(** * llvm-locstats: debug location coverage calculator

    A shallow embedding of [llvm/tools/llvm-locstats/llvm-locstats.cpp]
    and the properties of its traversal, coverage arithmetic, histogram
    and report.

    Conventions of the embedding:
    - [uint64_t], [unsigned] and [unsigned long] values are integers in
      [Z] whose wrap-around is written with [u64] and [u32];
    - [double] is IEEE 754 binary64, taken from the standard library's
      executable specification [SpecFloat] (precision 53, emax 1024);
    - the conversion [(int)d] of a [double] is partial: C++ leaves it
      undefined for NaN, the infinities and values outside [int], and the
      embedding returns [Undefined] there;
    - the DWARF reader, the object loader, the option parser and the
      output stream are collaborators: a DIE is a tree that already holds
      what the reader answers ([getTag], [find], [getAddressRanges], the
      children), and a stream is the string written to it. *)

From Stdlib Require Import ZArith List Bool String Ascii Lia.
From Stdlib Require Import Floats.SpecFloat.
From stdpp Require Import gmap strings pretty.

Local Open Scope Z_scope.

(** ** Machine integers *)

Definition u64 (z : Z) : Z := z mod 2 ^ 64.
Definition u32 (z : Z) : Z := z mod 2 ^ 32.
Definition INT_MIN : Z := - 2 ^ 31.
Definition INT_MAX : Z := 2 ^ 31 - 1.

(** ** Results of code that can run into undefined behaviour *)

Inductive Result (A : Type) : Type :=
| Ok (a : A)
| Undefined.
Arguments Ok {A} a.
Arguments Undefined {A}.

#[global] Instance Result_ret : MRet Result := fun A a => Ok a.
#[global] Instance Result_bind : MBind Result := fun A B f r =>
  match r with
  | Ok a => f a
  | Undefined => Undefined
  end.

(** ** binary64 *)

Module Double.

Definition prec : Z := 53.
Definition emax : Z := 1024.

Abbreviation double := spec_float.

Definition mul : double -> double -> double := SFmul prec emax.
Definition div : double -> double -> double := SFdiv prec emax.
Definition add : double -> double -> double := SFadd prec emax.

(** Integer to [double] conversion, round to nearest even. It is exact
    below [2 ^ 53]. *)
Definition of_Z (z : Z) : double := binary_normalize prec emax z 0 false.

(** The magnitude [m * 2 ^ e] with its fraction dropped. *)
Definition trunc_mag (m : positive) (e : Z) : Z :=
  if 0 <=? e then Z.pos m * 2 ^ e else Z.pos m / 2 ^ (- e).

(** An integer as an [int], when it is representable. *)
Definition as_int (t : Z) : Result Z :=
  if (INT_MIN <=? t) && (t <=? INT_MAX) then Ok t else Undefined.

(** [(int)d]: truncation toward zero, defined when the truncated value
    is representable in [int]. *)
Definition to_int (d : double) : Result Z :=
  match d with
  | S754_zero _ => Ok 0
  | S754_finite s m e => as_int (cond_Zopp s (trunc_mag m e))
  | S754_infinity _ | S754_nan => Undefined
  end.

(** The magnitude [m * 2 ^ e] rounded to the nearest integer, halfway
    cases away from zero. *)
Definition round_mag (m : positive) (e : Z) : Z :=
  if 0 <=? e then Z.pos m * 2 ^ e
  else (2 * Z.pos m + 2 ^ (- e)) / (2 * 2 ^ (- e)).

(** [std::round]: the nearest integral [double], halfway cases away from
    zero. A finite [double] with a fraction is below [2 ^ 53], so the
    rounded magnitude is representable. *)
Definition round (d : double) : double :=
  match d with
  | S754_finite s m e =>
      if 0 <=? e then d
      else match round_mag m e with
           | Z0 => S754_zero s
           | r => binary_normalize prec emax (cond_Zopp s r) 0 s
           end
  | _ => d
  end.

End Double.
Import Double.

(** ** DWARF data as the reader exposes it *)

Inductive Tag : Type :=
| DW_TAG_null
| DW_TAG_compile_unit
| DW_TAG_subprogram
| DW_TAG_lexical_block
| DW_TAG_inlined_subroutine
| DW_TAG_variable
| DW_TAG_formal_parameter
| DW_TAG_subroutine_type
| DW_TAG_other (code : Z).

#[global] Instance Tag_eq_dec : EqDecision Tag.
Proof. solve_decision. Defined.

Inductive Attribute : Type :=
| DW_AT_declaration
| DW_AT_artificial
| DW_AT_external
| DW_AT_location
| DW_AT_const_value
| DW_AT_inline
| DW_AT_low_pc
| DW_AT_other (code : Z).

#[global] Instance Attribute_eq_dec : EqDecision Attribute.
Proof. solve_decision. Defined.

Inductive OpCode : Type :=
| DW_OP_entry_value
| DW_OP_GNU_entry_value
| DW_OP_other (code : Z).

#[global] Instance OpCode_eq_dec : EqDecision OpCode.
Proof. solve_decision. Defined.

(** One operation of a decoded DWARF expression; only its code is read. *)
Record Operation : Type := mkOperation { getCode : OpCode }.

(** An attribute value. [FormSecOffset] is the class for which
    [getAsSectionOffset] answers, [FormAddress] the one for which
    [toAddress] does. *)
Inductive DWARFFormValue : Type :=
| FormFlag (b : bool)
| FormAddress (a : Z)
| FormSecOffset (o : Z)
| FormExprLoc (ops : list Operation)
| FormData (v : Z).

Definition getAsSectionOffset (V : DWARFFormValue) : option Z :=
  match V with
  | FormSecOffset o => Some o
  | _ => None
  end.

Definition toAddress (V : option DWARFFormValue) (Default : Z) : Z :=
  match V with
  | Some (FormAddress a) => a
  | _ => Default
  end.

Record DWARFAddressRange : Type := mkRange { LowPC : Z; HighPC : Z }.

(** An entry of a [.debug_loc] location list; [Loc] is its expression as
    the expression decoder iterates it. *)
Record LocEntry : Type := mkEntry { Begin : Z; End_ : Z; Loc : list Operation }.

(** A debug-info entry: tag, attributes in abbreviation order, what
    [getAddressRanges] answers ([None] for an error) and the children in
    sibling order. *)
#[local] Unset Elimination Schemes.
Inductive DWARFDie : Type :=
| mkDie (tag : Tag) (attrs : list (Attribute * DWARFFormValue))
        (ranges : option (list DWARFAddressRange))
        (children : list DWARFDie).
#[local] Set Elimination Schemes.

Definition getTag (Die : DWARFDie) : Tag :=
  match Die with mkDie t _ _ _ => t end.

Definition getAttrs (Die : DWARFDie) : list (Attribute * DWARFFormValue) :=
  match Die with mkDie _ a _ _ => a end.

Definition getAddressRanges (Die : DWARFDie) : option (list DWARFAddressRange) :=
  match Die with mkDie _ _ r _ => r end.

Definition getChildren (Die : DWARFDie) : list DWARFDie :=
  match Die with mkDie _ _ _ c => c end.

Fixpoint find_attr (l : list (Attribute * DWARFFormValue)) (A : Attribute)
  : option DWARFFormValue :=
  match l with
  | [] => None
  | (a, v) :: l' => if bool_decide (a = A) then Some v else find_attr l' A
  end.

(** [Die.find(Attr)] *)
Definition find (Die : DWARFDie) (A : Attribute) : option DWARFFormValue :=
  find_attr (getAttrs Die) A.

Definition has (Die : DWARFDie) (A : Attribute) : bool :=
  bool_decide (is_Some (find Die A)).

(** The DWARF context: the location lists of [.debug_loc] by offset, and
    for every compile unit its unit DIE when it has a usable one. *)
Record DWARFContext : Type := mkContext {
  DebugLoc : gmap Z (list LocEntry);
  compile_units : list (option DWARFDie)
}.

Definition getLocationListAtOffset (DICtx : DWARFContext) (Offset : Z)
  : option (list LocEntry) :=
  DebugLoc DICtx !! Offset.

(** ** Command line options *)

Record Options : Type := mkOptions {
  Help : bool;
  InputFilename : string;
  OutputFilename : string;
  OnlyFormalParameters : bool;
  OnlyVariables : bool;
  IgnoreInlined : bool;
  IgnoreEntryValues : bool
}.

(** ** The statistics threaded through the traversal *)

Definition largest_cov_category : Z := 12.

Record Stats : Type := mkStats {
  LocStatistics : gmap Z Z;
  CumulNumOfVars : Z;
  TotalAverage : double
}.

Definition increment (LocStatistics : gmap Z Z) (Key : Z) : gmap Z Z :=
  <[Key := u64 (default 0 (LocStatistics !! Key) + 1)]> LocStatistics.

(** ** The analyzer *)

(** Extract the low pc from a Die. *)
Definition getLowPC (Die : DWARFDie) : Z :=
  let Ranges := default [] (getAddressRanges Die) in
  match Ranges with
  | R :: _ => LowPC R
  | [] => toAddress (find Die DW_AT_low_pc) 0
  end.

Section Analyzer.

Variable Opts : Options.
Variable DICtx : DWARFContext.

Definition IsEntryValue (D : list Operation) : bool :=
  existsb (fun Op => bool_decide (getCode Op = DW_OP_entry_value)
                     || bool_decide (getCode Op = DW_OP_GNU_entry_value)) D.

(** The loop over [List->Entries], from a given value of [Covered]. *)
Definition sumEntries (Entries : list LocEntry) (Covered : Z) : Z :=
  fold_left
    (fun Covered Entry =>
       if IgnoreEntryValues Opts && IsEntryValue (Loc Entry) then Covered
       else u64 (Covered + u64 (End_ Entry - Begin Entry)))
    Entries Covered.

(** [Covered] after the loop, before the comparison with [BytesInScope]. *)
Definition summedBytes (DebugLocOffset : Z) : Z :=
  match getLocationListAtOffset DICtx DebugLocOffset with
  | Some List => sumEntries List 0
  | None => 0
  end.

(** [Covered] when the division is reached. *)
Definition coveredBytes (DebugLocOffset BytesInScope : Z) : Z :=
  let Covered := summedBytes DebugLocOffset in
  if Covered >? BytesInScope then BytesInScope else Covered.

(** The early returns of [collectLocStatsForDie]; [Parent] is the tag of
    [Die.getParent()]. *)
Definition skipped (Die : DWARFDie) (Parent : Tag) : bool :=
  if bool_decide (getTag Die = DW_TAG_variable) && OnlyFormalParameters Opts
  then true
  else if bool_decide (getTag Die = DW_TAG_formal_parameter)
          && OnlyVariables Opts
  then true
  else if has Die DW_AT_declaration || has Die DW_AT_artificial
  then true
  else if has Die DW_AT_external && negb (has Die DW_AT_location)
  then true
  else if bool_decide (getTag Die = DW_TAG_formal_parameter)
          && bool_decide (Parent = DW_TAG_subroutine_type)
  then true
  else false.

(** The value of [Coverage] when [collectLocStatsForDie] reaches the
    conversion to [int]. *)
Definition Coverage (Die : DWARFDie) (BytesInScope : Z) : double :=
  if has Die DW_AT_const_value then of_Z 100
  else
    match find Die DW_AT_location with
    | Some FormValue =>
        match getAsSectionOffset FormValue with
        | Some DebugLocOffset =>
            let Covered := coveredBytes DebugLocOffset BytesInScope in
            div (mul (of_Z 100) (of_Z Covered)) (of_Z BytesInScope)
        | None => of_Z 100
        end
    | None => of_Z 0
    end.

Definition PercentageKey (CoverageRounded : Z) : Z :=
  if CoverageRounded =? 0 then 0
  else if CoverageRounded =? 100 then largest_cov_category - 1
  else Z.quot CoverageRounded 10 + 1.

(** The tail of [collectLocStatsForDie], from [CoverageRounded] on. *)
Definition record (CoverageRounded : Z) (S : Stats) : Stats :=
  {| LocStatistics := increment (LocStatistics S) (PercentageKey CoverageRounded);
     CumulNumOfVars := u32 (CumulNumOfVars S + 1);
     TotalAverage := add (TotalAverage S) (of_Z CoverageRounded) |}.

Definition collectLocStatsForDie (Die : DWARFDie) (Parent : Tag)
    (ScopeLowPC BytesInScope : Z) (S : Stats) : Result Stats :=
  if skipped Die Parent then Ok S
  else
    CoverageRounded ← to_int (Coverage Die BytesInScope);
    Ok (record CoverageRounded S).

Definition IsScope (T : Tag) : bool :=
  bool_decide (T = DW_TAG_subprogram)
  || bool_decide (T = DW_TAG_inlined_subroutine)
  || bool_decide (T = DW_TAG_lexical_block).

Definition scopeBytes (Ranges : list DWARFAddressRange) : Z :=
  fold_left (fun BytesInThisScope Range =>
               u64 (BytesInThisScope + u64 (HighPC Range - LowPC Range)))
            Ranges 0.

Fixpoint collectStatsRecursive (Die : DWARFDie) (Parent : Tag)
    (ScopeLowPC BytesInScope : Z) (S : Stats) {struct Die} : Result Stats :=
  let Tag := getTag Die in
  let traverse :=
    fun (ScopeLowPC BytesInScope : Z) =>
      (fix loop (Children : list DWARFDie) (S : Stats) {struct Children}
         : Result Stats :=
         match Children with
         | [] => Ok S
         | Child :: Siblings =>
             S' ← collectStatsRecursive Child Tag ScopeLowPC BytesInScope S;
             loop Siblings S'
         end) (getChildren Die) in
  if IsScope Tag then
    if has Die DW_AT_declaration then Ok S
    else if has Die DW_AT_inline then Ok S
    else if IgnoreInlined Opts
            && bool_decide (Tag = DW_TAG_inlined_subroutine) then Ok S
    else
      match getAddressRanges Die with
      | None => Ok S
      | Some Ranges => traverse (getLowPC Die) (scopeBytes Ranges) S
      end
  else if bool_decide (Tag = DW_TAG_variable)
          || bool_decide (Tag = DW_TAG_formal_parameter) then
    S' ← collectLocStatsForDie Die Parent ScopeLowPC BytesInScope S;
    traverse ScopeLowPC BytesInScope S'
  else traverse ScopeLowPC BytesInScope S.

(** The [while (Child)] loop over the children of a DIE whose tag is
    [Parent]. *)
Fixpoint traverseChildren (Parent : Tag) (ScopeLowPC BytesInScope : Z)
    (Children : list DWARFDie) (S : Stats) : Result Stats :=
  match Children with
  | [] => Ok S
  | Child :: Siblings =>
      S' ← collectStatsRecursive Child Parent ScopeLowPC BytesInScope S;
      traverseChildren Parent ScopeLowPC BytesInScope Siblings S'
  end.

End Analyzer.

(** ** The report *)

Definition nl : string := String (ascii_of_nat 10) EmptyString.

Definition s64 (z : Z) : Z := if z <? 2 ^ 63 then z else z - 2 ^ 64.

Definition spaces (n : Z) : string :=
  String.concat "" (replicate (Z.to_nat n) " "%string).

(** Modelled from the spec: [format_decimal] of LLVM's [Format.h], which is
    not under the analysed sources. The report is a fixed-width table: the
    decimal digits of [N] are written right-justified in [Width] columns,
    and a longer number is written in full. *)
Definition format_decimal (N : Z) (Width : Z) : string :=
  let Buffer := pretty N in
  spaces (Width - Z.of_nat (String.length Buffer)) +:+ Buffer.

(** [(int)(LocStatistics[i] / (double)CumulNumOfVars * 100)] *)
Definition share (Samples CumulNumOfVars : Z) : Result Z :=
  to_int (mul (div (of_Z Samples) (of_Z CumulNumOfVars)) (of_Z 100)).

(** [(int)std::round((TotalAverage/CumulNumOfVars * 100) / 100)] *)
Definition average (TotalAverage : double) (CumulNumOfVars : Z) : Result Z :=
  to_int (round (div (mul (div TotalAverage (of_Z CumulNumOfVars)) (of_Z 100))
                     (of_Z 100))).

Definition line (Label : string) (Samples CumulNumOfVars : Z) : Result string :=
  Percentage ← share Samples CumulNumOfVars;
  Ok (Label +:+ format_decimal (s64 Samples) 8 +:+ "        "
      +:+ format_decimal Percentage 8 +:+ "%" +:+ nl).

(** The label of the row of category [i] in the [for] loop; [i] is
    [unsigned]. *)
Definition band (i : Z) : string :=
  "    " +:+ pretty (u32 (u32 (u32 (i - 1) * 10) + 1)) +:+ ".."
  +:+ pretty (u32 (u32 (i * 10) - 1)) +:+ "    ".

Fixpoint lines (Is : list Z) (LocStatistics : gmap Z Z) (CumulNumOfVars : Z)
  : Result string :=
  match Is with
  | [] => Ok ""%string
  | i :: Is' =>
      L ← line (band i) (default 0 (LocStatistics !! i)) CumulNumOfVars;
      Ls ← lines Is' LocStatistics CumulNumOfVars;
      Ok (L +:+ Ls)
  end.

Definition rule : string :=
  "=================================================" +:+ nl.

Definition heading : string :=
  rule
  +:+ "           Debug Location Statistics" +:+ nl
  +:+ rule
  +:+ "    cov%        samples        percentage" +:+ nl
  +:+ "-------------------------------------------------" +:+ nl.

Definition footer (CumulNumOfVars Mean : Z) : string :=
  rule
  +:+ "-the number of debug variables processed: "
  +:+ pretty CumulNumOfVars +:+ nl
  +:+ "-the average coverage per var: ~ " +:+ pretty Mean +:+ "%" +:+ nl
  +:+ rule.

(** The twelve rows of the table. *)
Definition rows (S : Stats) : Result string :=
  let N := CumulNumOfVars S in
  let at_ := fun i => default 0 (LocStatistics S !! i) in
  L0 ← line "    0         " (at_ 0) N;
  L1 ← line "    1..9      " (at_ 1) N;
  Ls ← lines (seqZ 2 9) (LocStatistics S) N;
  L11 ← line "    100       " (at_ 11) N;
  Ok (L0 +:+ L1 +:+ Ls +:+ L11).

Definition outputLocStats (S : Stats) : Result string :=
  let N := CumulNumOfVars S in
  if N =? 0 then Ok ("No coverage recorded." +:+ nl)
  else
    Rows ← rows S;
    Mean ← average (TotalAverage S) N;
    Ok (heading +:+ Rows +:+ footer N Mean).

(** ** One object file *)

Definition initialStats : Stats :=
  {| LocStatistics :=
       foldl (fun M i => <[i := 0]> M) ∅ (seqZ 0 largest_cov_category);
     CumulNumOfVars := 0;
     TotalAverage := S754_zero false |}.

(** The loop over the compile units; a unit without a unit DIE is passed
    over. A unit DIE has no parent: [getParent()] is the invalid DIE, whose
    tag reads [DW_TAG_null]. *)
Fixpoint collectUnits (Opts : Options) (DICtx : DWARFContext)
    (Units : list (option DWARFDie)) (S : Stats) : Result Stats :=
  match Units with
  | [] => Ok S
  | None :: Units' => collectUnits Opts DICtx Units' S
  | Some CUDie :: Units' =>
      S' ← collectStatsRecursive Opts DICtx CUDie DW_TAG_null 0 0 S;
      collectUnits Opts DICtx Units' S'
  end.

(** The statistics when the traversal of all units is over. *)
Definition finalStats (Opts : Options) (DICtx : DWARFContext) : Result Stats :=
  collectUnits Opts DICtx (compile_units DICtx) initialStats.

Definition collectLocstats (Opts : Options) (DICtx : DWARFContext)
  : Result string :=
  S ← finalStats Opts DICtx;
  outputLocStats S.

(** ** The driver *)

(** [Options] is what [ParseCommandLineOptions] leaves in the option
    variables. The initialisation of LLVM and of the targets, and
    [OutputFile.keep()], write nothing and decide nothing: they are left
    out, like the [LLVM_DEBUG] traces of the analyzer. *)

(** What the file system and the object loader answer for a path. *)
Inductive InputFile : Type :=
| Unreadable (EC : string)
| NotABinary (EC : string)
| OtherBinary
| ObjectFile (DICtx : DWARFContext).

Record World : Type := mkWorld {
  getFileOrSTDIN : string -> InputFile;
  openOutput : string -> option string
}.

(** What a run shows: the help text of the option parser, a message of
    [WithColor::error()], the text written to the output file. *)
Inductive Event : Type :=
| HelpMessage
| ErrorMessage (Text : string)
| Report (Text : string).

Record Outcome : Type := mkOutcome { status : Z; events : list Event }.

Definition EXIT_SUCCESS : Z := 0.

(** [error(Prefix, EC)] when [EC] is set: the message, then [exit(1)]. *)
Definition error (Prefix Message : string) : Outcome :=
  {| status := 1; events := [ErrorMessage (Prefix +:+ ": " +:+ Message +:+ nl)] |}.

Definition handleFile (Opts : Options) (W : World) : Result Outcome :=
  let Filename := InputFilename Opts in
  match getFileOrSTDIN W Filename with
  | Unreadable EC => Ok (error Filename EC)
  | NotABinary EC => Ok (error Filename EC)
  | OtherBinary => Ok {| status := EXIT_SUCCESS; events := [] |}
  | ObjectFile DICtx =>
      Text ← collectLocstats Opts DICtx;
      Ok {| status := EXIT_SUCCESS; events := [Report Text] |}
  end.

Definition main (Opts : Options) (W : World) : Result Outcome :=
  if Help Opts then Ok {| status := 0; events := [HelpMessage] |}
  else if bool_decide (InputFilename Opts = ""%string)
  then Ok {| status := 1; events := [ErrorMessage ("no input file" +:+ nl)] |}
  else if OnlyFormalParameters Opts && OnlyVariables Opts
  then Ok {| status := 0;
             events := [ErrorMessage
               ("incompatible arguments: specifying both "
                +:+ "-only-formal-parameters and -only-variables is "
                +:+ "not allowed.")] |}
  else
    match openOutput W (OutputFilename Opts) with
    | Some EC =>
        Ok (error ("Unable to open output file" +:+ OutputFilename Opts) EC)
    | None => handleFile Opts W
    end.

(** ** Vocabulary of the statements *)

(** The early exits of the coverage evaluator, as the list of filters:
    wrong tag for the active mode, declaration or artificial flag,
    external without location, formal parameter of a subroutine type. *)
Definition filtered (Opts : Options) (Die : DWARFDie) (Parent : Tag) : Prop :=
  (getTag Die = DW_TAG_variable ∧ OnlyFormalParameters Opts = true)
  ∨ (getTag Die = DW_TAG_formal_parameter ∧ OnlyVariables Opts = true)
  ∨ is_Some (find Die DW_AT_declaration)
  ∨ is_Some (find Die DW_AT_artificial)
  ∨ (is_Some (find Die DW_AT_external) ∧ find Die DW_AT_location = None)
  ∨ (getTag Die = DW_TAG_formal_parameter ∧ Parent = DW_TAG_subroutine_type).

(** The local [RangesOrError] of [collectStatsRecursive] when control
    reaches [Die.getAddressRanges()]: a declaration, an inline subprogram
    and an ignored inlined instance return before it. *)
Definition RangesOrError (Opts : Options) (Die : DWARFDie)
  : option (option (list DWARFAddressRange)) :=
  if has Die DW_AT_declaration then None
  else if has Die DW_AT_inline then None
  else if IgnoreInlined Opts
          && bool_decide (getTag Die = DW_TAG_inlined_subroutine) then None
  else Some (getAddressRanges Die).

(** The sum of the counts of the 12 categories. *)
Definition categoriesTotal (LocStatistics : gmap Z Z) : Z :=
  foldr (fun i Sum => default 0 (LocStatistics !! i) + Sum) 0
        (seqZ 0 largest_cov_category).

(** The sub-range lengths of a location list that are counted, with
    entry-value entries left out when they are ignored, and their sum as
    integers without bound. *)
Definition countedLengths (Opts : Options) (Entries : list LocEntry) : list Z :=
  map (fun Entry => End_ Entry - Begin Entry)
      (List.filter (fun Entry => negb (IgnoreEntryValues Opts
                                       && IsEntryValue (Loc Entry)))
                   Entries).

Definition total (Lengths : list Z) : Z := foldr Z.add 0 Lengths.

(** The value of a finite [double] as the fraction
    [numerator / denominator], the denominator a power of two. *)
Definition numerator (d : double) : Z :=
  match d with
  | S754_finite s m e =>
      cond_Zopp s (if 0 <=? e then Z.pos m * 2 ^ e else Z.pos m)
  | _ => 0
  end.

Definition denominator (d : double) : Z :=
  match d with
  | S754_finite s m e => if 0 <=? e then 1 else 2 ^ (- e)
  | _ => 1
  end.

Definition is_number (d : double) : bool :=
  match d with
  | S754_zero _ | S754_finite _ _ _ => true
  | S754_infinity _ | S754_nan => false
  end.

(** The fraction [n / d] without its fractional part is [Z.quot n d];
    [nearest n d] is the integer nearest to it, a halfway case going away
    from zero. *)
Definition nearest (n d : Z) : Z := Z.sgn n * ((2 * Z.abs n + d) / (2 * d)).

(** A [double] truncated to an [int], and rounded to an [int], in terms
    of its value. *)
Definition truncated (d : double) : Result Z :=
  if is_number d then as_int (Z.quot (numerator d) (denominator d))
  else Undefined.

Definition rounded (d : double) : Result Z :=
  if is_number d then as_int (nearest (numerator d) (denominator d))
  else Undefined.

(** The histogram invariant: the 12 categories are present, no other key
    is, and their counts add up to the count of processed variables. *)
Definition categories (LocStatistics : gmap Z Z) : Prop :=
  forall i, is_Some (LocStatistics !! i) <-> 0 <= i < largest_cov_category.

Definition balanced (S : Stats) : Prop :=
  categories (LocStatistics S)
  ∧ categoriesTotal (LocStatistics S) = CumulNumOfVars S.

(** The same with the sum taken in the 32 bits of the counter. *)
Definition balanced_mod (S : Stats) : Prop :=
  categories (LocStatistics S)
  ∧ u32 (categoriesTotal (LocStatistics S)) = CumulNumOfVars S.

Definition Result_eqb (x y : Result Z) : bool :=
  match x, y with
  | Ok a, Ok b => a =? b
  | Undefined, Undefined => true
  | _, _ => false
  end.

(** A positive normal [double] in terms of integers: [scaled m e] is its
    value times [2 ^ 200]. *)
Definition scaled (m : positive) (e : Z) : Z := Z.pos m * 2 ^ (e + 200).

(** ** Vocabulary of the traversal *)

(** The variables and formal parameters that the traversal of [Die] hands
    to [collectLocStatsForDie], in the order of the traversal, each with
    the tag of its parent and the byte size of the scope it is evaluated
    against. *)
Fixpoint reached (Opts : Options) (Die : DWARFDie) (Parent : Tag)
    (BytesInScope : Z) {struct Die} : list (DWARFDie * Tag * Z) :=
  let Tag := getTag Die in
  let below := fun (BytesInScope : Z) =>
    flat_map (fun Child => reached Opts Child Tag BytesInScope)
             (getChildren Die) in
  if IsScope Tag then
    match RangesOrError Opts Die with
    | Some (Some Ranges) => below (scopeBytes Ranges)
    | _ => []
    end
  else if bool_decide (Tag = DW_TAG_variable)
          || bool_decide (Tag = DW_TAG_formal_parameter) then
    (Die, Parent, BytesInScope) :: below BytesInScope
  else below BytesInScope.

Definition reachedUnits (Opts : Options) (Units : list (option DWARFDie))
  : list (DWARFDie * Tag * Z) :=
  flat_map (fun Unit => match Unit with
                        | Some CUDie => reached Opts CUDie DW_TAG_null 0
                        | None => []
                        end) Units.

(** The evaluation of a list of variables, one after the other. *)
Fixpoint evaluate (Opts : Options) (DICtx : DWARFContext)
    (Vars : list (DWARFDie * Tag * Z)) (S : Stats) : Result Stats :=
  match Vars with
  | [] => Ok S
  | (Die, Parent, BytesInScope) :: Vars' =>
      S' ← collectLocStatsForDie Opts DICtx Die Parent 0 BytesInScope S;
      evaluate Opts DICtx Vars' S'
  end.

(** The reached variables that pass the filters. *)
Definition processed (Opts : Options) (Vars : list (DWARFDie * Tag * Z))
  : list (DWARFDie * Tag * Z) :=
  List.filter (fun V => negb (skipped Opts V.1.1 V.1.2)) Vars.

(** The byte lengths of the ranges of a scope. *)
Definition rangeLengths (Ranges : list DWARFAddressRange) : list Z :=
  map (fun Range => HighPC Range - LowPC Range) Ranges.

(** The category of a reached variable, when its percentage is defined. *)
Definition categoryOf (Opts : Options) (DICtx : DWARFContext)
    (V : DWARFDie * Tag * Z) : option Z :=
  match to_int (Coverage Opts DICtx V.1.1 V.2) with
  | Ok CoverageRounded => Some (PercentageKey CoverageRounded)
  | Undefined => None
  end.

(** How many of the variables fall into category [Key]. *)
Definition tally (Opts : Options) (DICtx : DWARFContext) (Key : Z)
    (Vars : list (DWARFDie * Tag * Z)) : Z :=
  Z.of_nat (length (List.filter
    (fun V => bool_decide (categoryOf Opts DICtx V = Some Key)) Vars)).

(** The counts of a histogram are 64-bit values. *)
Definition counts64 (LocStatistics : gmap Z Z) : Prop :=
  forall Key Count, LocStatistics !! Key = Some Count -> 0 <= Count < 2 ^ 64.

(** The percentage of a reached variable (0 when it is undefined), and
    the sum of the percentages of a list of variables. *)
Definition percentOf (Opts : Options) (DICtx : DWARFContext)
    (V : DWARFDie * Tag * Z) : Z :=
  match to_int (Coverage Opts DICtx V.1.1 V.2) with
  | Ok CoverageRounded => CoverageRounded
  | Undefined => 0
  end.

Definition percentSum (Opts : Options) (DICtx : DWARFContext)
    (Vars : list (DWARFDie * Tag * Z)) : Z :=
  foldr (fun V Sum => percentOf Opts DICtx V + Sum) 0 Vars.

(** A reached variable whose evaluation divides by a scope of 0 bytes: it
    passes the filters, has no constant value, and its location is a
    location list. *)
Definition unguarded (Opts : Options) (V : DWARFDie * Tag * Z) : Prop :=
  ¬ filtered Opts V.1.1 V.1.2
  ∧ find V.1.1 DW_AT_const_value = None
  ∧ (exists FormValue Offset,
       find V.1.1 DW_AT_location = Some FormValue
       ∧ getAsSectionOffset FormValue = Some Offset)
  ∧ V.2 = 0.

(** The options with the two modes set as given and the rest unchanged. *)
Definition withModes (Opts : Options) (Parameters Variables : bool) : Options :=
  {| Help := Help Opts;
     InputFilename := InputFilename Opts;
     OutputFilename := OutputFilename Opts;
     OnlyFormalParameters := Parameters;
     OnlyVariables := Variables;
     IgnoreInlined := IgnoreInlined Opts;
     IgnoreEntryValues := IgnoreEntryValues Opts |}.

(** ** Inputs used as instances *)

Module Sample.

Definition plain : Options :=
  mkOptions false "a.o" "-" false false false false.

Definition onlyVariables : Options :=
  mkOptions false "a.o" "-" false true false false.

(** Both [-only-formal-parameters] and [-only-variables]. *)
Definition both : Options :=
  mkOptions false "a.o" "-" true true false false.

(** A variable whose location is the location list at offset 0. *)
Definition listed : DWARFDie :=
  mkDie DW_TAG_variable [(DW_AT_location, FormSecOffset 0)] (Some []) [].

Definition constant : DWARFDie :=
  mkDie DW_TAG_variable
        [(DW_AT_const_value, FormData 7); (DW_AT_location, FormSecOffset 0)]
        (Some []) [].

Definition parameter : DWARFDie :=
  mkDie DW_TAG_formal_parameter [(DW_AT_location, FormExprLoc [])]
        (Some []) [].

Definition declared : DWARFDie :=
  mkDie DW_TAG_subprogram [(DW_AT_declaration, FormFlag true)] (Some [])
        [listed].

(** A function of 100 bytes. *)
Definition function (Children : list DWARFDie) : DWARFDie :=
  mkDie DW_TAG_subprogram [] (Some [mkRange 4096 4196]) Children.

(** A block whose ranges resolve to the empty list. *)
Definition emptyBlock (Children : list DWARFDie) : DWARFDie :=
  mkDie DW_TAG_lexical_block [] (Some []) Children.

Definition unit (Children : list DWARFDie) : DWARFDie :=
  mkDie DW_TAG_compile_unit [] (Some []) Children.

(** A variable without attributes. *)
Definition bare : DWARFDie := mkDie DW_TAG_variable [] (Some []) [].

(** A variable whose location is the location list at offset 8. *)
Definition almost : DWARFDie :=
  mkDie DW_TAG_variable [(DW_AT_location, FormSecOffset 8)] (Some []) [].

(** [.debug_loc] with two lists: [0,50) and [60,90) at offset 0, and
    [0,999) at offset 8. *)
Definition lists : gmap Z (list LocEntry) :=
  <[ 8 := [mkEntry 0 999 []] ]>
    {[ 0 := [mkEntry 0 50 []; mkEntry 60 90 []] ]}.

Definition context (Children : list DWARFDie) : DWARFContext :=
  mkContext lists [Some (unit Children)].

Definition world (DICtx : DWARFContext) : World :=
  mkWorld (fun _ => ObjectFile DICtx) (fun _ => None).

Definition empty : Stats := initialStats.

Definition ignoreEntryValues : Options :=
  mkOptions false "a.o" "-" false false false true.

Definition ignoreInlined : Options :=
  mkOptions false "a.o" "-" false false true false.

(** An entry over [40,100) whose expression is an entry value. *)
Definition entryValue : LocEntry :=
  mkEntry 40 100 [mkOperation DW_OP_entry_value].

(** An entry whose end lies below its begin. *)
Definition reversed : LocEntry := mkEntry 10 5 [].

(** [.debug_loc] with [0,40) and an entry-value entry at offset 16, an
    entry-value entry alone at offset 24, and a reversed entry at offset
    32. *)
Definition moreLists : gmap Z (list LocEntry) :=
  <[ 32 := [reversed] ]>
    (<[ 24 := [entryValue] ]> {[ 16 := [mkEntry 0 40 []; entryValue] ]}).

Definition moreContext : DWARFContext := mkContext moreLists [].

(** A variable whose location list holds only an entry value. *)
Definition entered : DWARFDie :=
  mkDie DW_TAG_variable [(DW_AT_location, FormSecOffset 24)] (Some []) [].

(** An inlined instance of 20 bytes. *)
Definition inlined (Children : list DWARFDie) : DWARFDie :=
  mkDie DW_TAG_inlined_subroutine [] (Some [mkRange 4100 4120]) Children.

(** [.debug_loc] with one list at offset 0: twice the entry
    [0, 2 ^ 63 + 50), whose lengths add up to [2 ^ 64 + 100]. *)
Definition wrapping : DWARFContext :=
  mkContext
    {[ 0 := [mkEntry 0 (2 ^ 63 + 50) []; mkEntry 0 (2 ^ 63 + 50) []] ]} [].

(** A file that cannot be read, and an archive. *)
Definition missing : World :=
  mkWorld (fun _ => Unreadable "No such file or directory") (fun _ => None).

Definition archive : World :=
  mkWorld (fun _ => OtherBinary) (fun _ => None).

End Sample.

(** * Properties *)

(** ** Results *)

Lemma bind_Ok {A B} (a : A) (f : A -> Result B) : (Ok a ≫= f) = f a.
Proof. reflexivity. Qed.

(** ** Conversions between [double] and integers *)

Lemma as_int_Ok t : INT_MIN <= t <= INT_MAX -> as_int t = Ok t.
Proof.
  intros [H1 H2]. unfold as_int.
  destruct (Z.leb_spec INT_MIN t); [|lia].
  destruct (Z.leb_spec t INT_MAX); [|lia]. reflexivity.
Qed.

Lemma as_int_Undefined t : 2 ^ 31 < Z.abs t -> as_int t = Undefined.
Proof.
  intros H. unfold as_int, INT_MIN, INT_MAX.
  destruct (Z.leb_spec (- 2 ^ 31) t); [|reflexivity].
  destruct (Z.leb_spec t (2 ^ 31 - 1)); [lia | reflexivity].
Qed.

(** [(int)d] is the value of [d] without its fractional part. *)
Lemma to_int_truncated d : to_int d = truncated d.
Proof.
  destruct d as [s | s | | s m e]; try reflexivity.
  unfold truncated. cbn [to_int is_number numerator denominator].
  f_equal. unfold trunc_mag. destruct (0 <=? e) eqn:He.
  - rewrite Z.quot_1_r. reflexivity.
  - apply Z.leb_gt in He.
    assert (Hpow : 0 < 2 ^ (- e)) by (apply Z.pow_pos_nonneg; lia).
    destruct s; cbn [cond_Zopp].
    + rewrite Z.quot_opp_l by lia.
      rewrite Z.quot_div_nonneg by lia. reflexivity.
    + rewrite Z.quot_div_nonneg by lia. reflexivity.
Qed.

(** *** Digits and shifts of [SpecFloat] *)

Lemma digits2_pos_bounds p :
  2 ^ (Z.pos (digits2_pos p) - 1) <= Z.pos p < 2 ^ Z.pos (digits2_pos p).
Proof.
  induction p as [p IH | p IH |]; cbn [digits2_pos].
  - rewrite Pos2Z.inj_succ.
    replace (Z.succ (Z.pos (digits2_pos p)) - 1)
      with (Z.succ (Z.pos (digits2_pos p) - 1)) by lia.
    rewrite !Z.pow_succ_r by lia. lia.
  - rewrite Pos2Z.inj_succ.
    replace (Z.succ (Z.pos (digits2_pos p)) - 1)
      with (Z.succ (Z.pos (digits2_pos p) - 1)) by lia.
    rewrite !Z.pow_succ_r by lia. lia.
  - simpl. lia.
Qed.

(** The number of digits is determined by the two bounds. *)
Lemma digits2_pos_unique p k :
  2 ^ (k - 1) <= Z.pos p < 2 ^ k -> 0 < k -> Z.pos (digits2_pos p) = k.
Proof.
  intros [Hlo Hhi] Hk. pose proof (digits2_pos_bounds p) as [Hlo' Hhi'].
  destruct (Z.lt_trichotomy (Z.pos (digits2_pos p)) k) as [H | [H | H]];
    [exfalso | exact H | exfalso].
  - assert (2 ^ Z.pos (digits2_pos p) <= 2 ^ (k - 1))
      by (apply Z.pow_le_mono_r; lia). lia.
  - assert (2 ^ k <= 2 ^ (Z.pos (digits2_pos p) - 1))
      by (apply Z.pow_le_mono_r; lia). lia.
Qed.

Lemma iter_xO m d : Z.pos (Pos.iter xO m d) = Z.pos m * 2 ^ Z.pos d.
Proof.
  induction d as [|d IH] using Pos.peano_ind.
  - simpl. lia.
  - rewrite Pos.iter_succ, Pos2Z.inj_succ, Z.pow_succ_r by lia.
    change (Z.pos (Pos.iter xO m d)~0) with (2 * Z.pos (Pos.iter xO m d)).
    rewrite IH. lia.
Qed.

Lemma shr_1_m mrs : 0 <= shr_m mrs -> shr_m (shr_1 mrs) = shr_m mrs / 2.
Proof.
  destruct mrs as [m r s]. cbn [shr_m]. intros Hm.
  destruct m as [|[p|p|]|p]; cbn [shr_1 shr_m]; try lia.
  - reflexivity.
  - apply Z.div_unique with (r := 1); lia.
  - apply Z.div_unique with (r := 0); lia.
  - reflexivity.
Qed.

Lemma pow2_xO n : 2 ^ Z.pos n~0 = 2 ^ Z.pos n * 2 ^ Z.pos n.
Proof.
  replace (Z.pos n~0) with (Z.pos n + Z.pos n) by lia.
  apply Z.pow_add_r; lia.
Qed.

Lemma pow2_xI n : 2 ^ Z.pos n~1 = 2 * (2 ^ Z.pos n * 2 ^ Z.pos n).
Proof.
  replace (Z.pos n~1) with (Z.succ (Z.pos n + Z.pos n)) by lia.
  rewrite Z.pow_succ_r, Z.pow_add_r by lia. reflexivity.
Qed.

Lemma iter_shr_1_m n mrs :
  0 <= shr_m mrs ->
  0 <= shr_m (SpecFloat.iter_pos shr_1 n mrs)
  ∧ shr_m (SpecFloat.iter_pos shr_1 n mrs) = shr_m mrs / 2 ^ Z.pos n.
Proof.
  revert mrs. induction n as [n IH | n IH |]; intros mrs Hm;
    cbn [SpecFloat.iter_pos].
  - assert (H1 : 0 <= shr_m (shr_1 mrs))
      by (rewrite shr_1_m by exact Hm; apply Z.div_pos; lia).
    assert (Hp : 0 < 2 ^ Z.pos n) by (apply Z.pow_pos_nonneg; lia).
    destruct (IH _ H1) as [H2 E2]. destruct (IH _ H2) as [H3 E3].
    split; [exact H3|].
    rewrite E3, E2, shr_1_m by exact Hm.
    rewrite !Z.div_div by lia.
    f_equal. rewrite pow2_xI. lia.
  - assert (Hp : 0 < 2 ^ Z.pos n) by (apply Z.pow_pos_nonneg; lia).
    destruct (IH _ Hm) as [H2 E2]. destruct (IH _ H2) as [H3 E3].
    split; [exact H3|].
    rewrite E3, E2.
    rewrite !Z.div_div by lia.
    f_equal. rewrite pow2_xO. lia.
  - rewrite shr_1_m by exact Hm. split; [apply Z.div_pos; lia|].
    reflexivity.
Qed.

(** *** Rounding to 53 digits *)

Lemma fexp_normal k : -1021 <= k -> fexp prec emax k = k - 53.
Proof. unfold fexp, emin, prec, emax. lia. Qed.

Lemma binary_round_aux_exact s m e :
  Z.pos (digits2_pos m) = 53 -> -1074 <= e <= 971 ->
  binary_round_aux prec emax s (Z.pos m) e loc_Exact = S754_finite s m e.
Proof.
  intros Hd He. unfold binary_round_aux, shr_fexp.
  cbn [Zdigits2 shr_record_of_loc]. rewrite Hd.
  rewrite fexp_normal by lia.
  replace (53 + e - 53 - e) with 0 by lia.
  cbn [shr shr_m loc_of_shr_record round_nearest_even Zdigits2
       shr_record_of_loc].
  rewrite Hd, fexp_normal by lia.
  replace (53 + e - 53 - e) with 0 by lia.
  cbn [shr shr_m].
  destruct (Z.leb_spec e (emax - prec)); [reflexivity|].
  unfold emax, prec in *. lia.
Qed.

Lemma normalized_mantissa p :
  Z.pos (digits2_pos p) <= 53 ->
  2 ^ 52 <= Z.pos p * 2 ^ (53 - Z.pos (digits2_pos p)) < 2 ^ 53.
Proof.
  intros Hd. pose proof (digits2_pos_bounds p) as [Hlo Hhi].
  set (dg := Z.pos (digits2_pos p)) in *.
  assert (Hp : 0 < 2 ^ (53 - dg)) by (apply Z.pow_pos_nonneg; lia).
  assert (E52 : 2 ^ 52 = 2 ^ (dg - 1) * 2 ^ (53 - dg))
    by (rewrite <- Z.pow_add_r by lia; f_equal; lia).
  assert (E53 : 2 ^ 53 = 2 ^ dg * 2 ^ (53 - dg))
    by (rewrite <- Z.pow_add_r by lia; f_equal; lia).
  rewrite E52, E53. split.
  - apply Z.mul_le_mono_nonneg_r; lia.
  - apply Z.mul_lt_mono_pos_r; lia.
Qed.

(** An integer of at most 53 digits is converted exactly. *)
Lemma binary_round_small s p :
  Z.pos (digits2_pos p) <= 53 ->
  exists m e,
    binary_round prec emax s p 0 = S754_finite s m e
    ∧ 2 ^ 52 <= Z.pos m < 2 ^ 53
    ∧ -52 <= e <= 0 ∧ Z.pos m = Z.pos p * 2 ^ (- e).
Proof.
  intros Hd. unfold binary_round.
  rewrite Z.add_0_r, fexp_normal by lia.
  pose proof (normalized_mantissa p Hd) as Hnorm.
  set (dg := Z.pos (digits2_pos p)) in *.
  unfold shl_align. rewrite Z.sub_0_r.
  destruct (dg - 53) as [|d|d] eqn:Hdiff; [| lia |].
  - replace (53 - dg) with 0 in Hnorm by lia.
    rewrite Z.pow_0_r, Z.mul_1_r in Hnorm.
    exists p, 0. split; [|split; [exact Hnorm | split; [lia | simpl; lia]]].
    apply binary_round_aux_exact; [fold dg|]; lia.
  - replace (53 - dg) with (Z.pos d) in Hnorm by lia.
    rewrite <- iter_xO in Hnorm.
    exists (Pos.iter xO p d), (Z.neg d).
    split; [|split; [exact Hnorm | split; [lia | apply iter_xO]]].
    apply binary_round_aux_exact; [|lia].
    apply digits2_pos_unique; [exact Hnorm | lia].
Qed.

Lemma to_int_large s m e :
  1 <= e -> 2 ^ 52 <= Z.pos m -> to_int (S754_finite s m e) = Undefined.
Proof.
  intros He Hm. cbn [to_int]. apply as_int_Undefined. unfold trunc_mag.
  destruct (Z.leb_spec 0 e); [|lia].
  assert (2 ^ 1 <= 2 ^ e) by (apply Z.pow_le_mono_r; lia).
  assert (Hbig : 2 ^ 53 <= Z.pos m * 2 ^ e).
  { change (2 ^ 53) with (2 ^ 52 * 2 ^ 1). apply Z.mul_le_mono_nonneg; lia. }
  assert (2 ^ 31 < 2 ^ 53) by (apply Z.pow_lt_mono_r; lia).
  destruct s; cbn [cond_Zopp]; lia.
Qed.

Lemma round_nearest_even_range m l :
  m <= round_nearest_even m l <= m + 1.
Proof.
  destruct l as [|[]]; cbn [round_nearest_even];
    try destruct (Z.even m); lia.
Qed.

Lemma loc_of_shr_record_of_loc m l :
  loc_of_shr_record (shr_record_of_loc m l) = l.
Proof. destruct l as [|[]]; reflexivity. Qed.

Lemma shr_m_of_loc m l : shr_m (shr_record_of_loc m l) = m.
Proof. destruct l as [|[]]; reflexivity. Qed.

(** The two steps of [binary_round_aux] on a mantissa of at least 53
    digits, away from the subnormal range: the mantissa is shifted down to
    53 digits and moves by at most one unit in the last place. *)
Lemma binary_round_aux_shape s m e l :
  let k := Z.pos (digits2_pos m) in
  53 <= k -> -1021 <= k + e ->
  exists m' e',
    binary_round_aux prec emax s (Z.pos m) e l
    = (if e' <=? emax - prec then S754_finite s m' e' else S754_infinity s)
    ∧ 2 ^ 52 <= Z.pos m' < 2 ^ 53
    ∧ e + (k - 53) <= e' <= e + (k - 53) + 1
    ∧ Z.pos m - 2 ^ (k - 53) < Z.pos m' * 2 ^ (e' - e)
      <= Z.pos m + 2 ^ (k - 53).
Proof.
  intros k Hk Hke.
  pose proof (digits2_pos_bounds m) as [Hlo Hhi]. fold k in Hlo, Hhi.
  set (n := k - 53) in *.
  assert (Hpn : 0 < 2 ^ n) by (apply Z.pow_pos_nonneg; lia).
  assert (E52 : 2 ^ (k - 1) = 2 ^ 52 * 2 ^ n)
    by (rewrite <- Z.pow_add_r by lia; f_equal; lia).
  assert (E53 : 2 ^ k = 2 ^ 53 * 2 ^ n)
    by (rewrite <- Z.pow_add_r by lia; f_equal; lia).
  (* the first shift *)
  assert (H1 : exists mrs,
    shr_fexp prec emax (Z.pos m) e l = (mrs, e + n)
    ∧ shr_m mrs = Z.pos m / 2 ^ n).
  { unfold shr_fexp. cbn [Zdigits2]. fold k.
    rewrite fexp_normal by lia.
    replace (k + e - 53 - e) with n by lia.
    destruct n as [|n'|n'] eqn:Hn; [| |lia].
    - eexists. split; [cbn [shr]; f_equal; lia|].
      rewrite shr_m_of_loc, Z.pow_0_r, Z.div_1_r. reflexivity.
    - eexists. split; [cbn [shr]; reflexivity|].
      destruct (iter_shr_1_m n' (shr_record_of_loc (Z.pos m) l)) as [_ Hi];
        [rewrite shr_m_of_loc; lia|].
      rewrite Hi, shr_m_of_loc. reflexivity. }
  destruct H1 as (mrs & H1 & Hm1).
  unfold binary_round_aux. rewrite H1. clear H1.
  assert (Hm1lo : 2 ^ 52 <= shr_m mrs)
    by (rewrite Hm1; apply Z.div_le_lower_bound; lia).
  assert (Hm1hi : shr_m mrs < 2 ^ 53)
    by (rewrite Hm1; apply Z.div_lt_upper_bound; lia).
  assert (Hmul : shr_m mrs * 2 ^ n <= Z.pos m < (shr_m mrs + 1) * 2 ^ n).
  { rewrite Hm1. pose proof (Z.div_mod (Z.pos m) (2 ^ n)).
    pose proof (Z.mod_pos_bound (Z.pos m) (2 ^ n)). lia. }
  pose proof (round_nearest_even_range (shr_m mrs) (loc_of_shr_record mrs))
    as Hr.
  destruct (round_nearest_even (shr_m mrs) (loc_of_shr_record mrs))
    as [|q|q]; [lia| |lia].
  destruct (Z.eq_dec (Z.pos q) (2 ^ 53)) as [Htop | Hlt].
  - assert (H2 : shr_fexp prec emax (Z.pos q) (e + n) loc_Exact
                 = ({| shr_m := 2 ^ 52; shr_r := false; shr_s := false |},
                    e + n + 1)).
    { unfold shr_fexp. cbn [Zdigits2 shr_record_of_loc].
      rewrite (digits2_pos_unique q 54) by (try rewrite Htop; simpl; lia).
      rewrite fexp_normal by lia.
      replace (54 + (e + n) - 53 - (e + n)) with 1 by lia.
      assert (Hq : q = (2 ^ 53)%positive) by lia.
      subst q. reflexivity. }
    rewrite H2. cbn [shr_m]. change (2 ^ 52) with (Z.pos (2 ^ 52)).
    cbv iota beta.
    exists (2 ^ 52)%positive, (e + n + 1).
    split; [reflexivity|]. split; [simpl; lia|]. split; [lia|].
    replace (e + n + 1 - e) with (n + 1) by lia.
    rewrite Z.pow_add_r by lia.
    change (Z.pos (2 ^ 52)) with (2 ^ 52).
    assert (2 ^ 52 * (2 ^ n * 2 ^ 1) = 2 ^ 53 * 2 ^ n)
      by (change (2 ^ 53) with (2 ^ 52 * 2 ^ 1); lia).
    nia.
  - assert (H2 : shr_fexp prec emax (Z.pos q) (e + n) loc_Exact
                 = ({| shr_m := Z.pos q; shr_r := false; shr_s := false |},
                    e + n)).
    { unfold shr_fexp. cbn [Zdigits2 shr_record_of_loc].
      rewrite (digits2_pos_unique q 53) by (simpl; lia).
      rewrite fexp_normal by lia.
      replace (53 + (e + n) - 53 - (e + n)) with 0 by lia.
      reflexivity. }
    rewrite H2. cbn [shr_m]. cbv iota beta.
    exists q, (e + n).
    split; [reflexivity|]. split; [lia|]. split; [lia|].
    replace (e + n - e) with n by lia. nia.
Qed.

Lemma binary_round_large s p :
  53 < Z.pos (digits2_pos p) ->
  to_int (binary_round prec emax s p 0) = Undefined.
Proof.
  intros Hd. unfold binary_round.
  rewrite Z.add_0_r, fexp_normal by lia.
  unfold shl_align. rewrite Z.sub_0_r.
  destruct (Z.pos (digits2_pos p) - 53) as [|n|n] eqn:Hdiff; [lia| |lia].
  destruct (binary_round_aux_shape s p 0 loc_Exact)
    as (m & e & Hb & Hm & He & _); [lia | lia |].
  cbv zeta in He. rewrite Hb.
  destruct (e <=? emax - prec); [|reflexivity].
  apply to_int_large; lia.
Qed.

(** The conversion of an integer to [double] and back gives the integer
    when it is an [int]. *)
Lemma to_int_binary_normalize z szero :
  to_int (binary_normalize prec emax z 0 szero) = as_int z.
Proof.
  assert (Hround : forall s p,
    to_int (binary_round prec emax s p 0) = as_int (cond_Zopp s (Z.pos p))).
  { intros s p.
    destruct (Z.le_gt_cases (Z.pos (digits2_pos p)) 53) as [Hd | Hd].
    - destruct (binary_round_small s p Hd) as (m & e & Hb & _ & He & Hm).
      rewrite Hb. cbn [to_int]. f_equal. f_equal.
      unfold trunc_mag. destruct (Z.leb_spec 0 e).
      + replace e with 0 in * by lia. simpl in Hm. lia.
      + rewrite Hm. apply Z.div_mul. apply Z.pow_nonzero; lia.
    - rewrite binary_round_large by lia. symmetry.
      apply as_int_Undefined.
      pose proof (digits2_pos_bounds p) as [Hlo _].
      assert (2 ^ 53 <= 2 ^ (Z.pos (digits2_pos p) - 1))
        by (apply Z.pow_le_mono_r; lia).
      assert (2 ^ 31 < 2 ^ 53) by (apply Z.pow_lt_mono_r; lia).
      destruct s; cbn [cond_Zopp]; lia. }
  destruct z as [|p|p]; cbn [binary_normalize].
  - reflexivity.
  - apply (Hround false p).
  - apply (Hround true p).
Qed.

Lemma scaled_shift m e e' :
  -200 <= e <= e' ->
  scaled m e' = Z.pos m * 2 ^ (e' - e) * 2 ^ (e + 200).
Proof.
  intros H. unfold scaled. rewrite <- Z.mul_assoc, <- Z.pow_add_r by lia.
  do 2 f_equal. lia.
Qed.

(** [of_Z] on a positive 64-bit integer: a normal number within one part
    in [2 ^ 52] of the integer. *)
Lemma of_Z_shape z :
  0 < z < 2 ^ 64 ->
  exists m e,
    of_Z z = S754_finite false m e
    ∧ 2 ^ 52 <= Z.pos m < 2 ^ 53
    ∧ -52 <= e <= 12
    ∧ (2 ^ 52 - 1) * (z * 2 ^ 200) <= 2 ^ 52 * scaled m e
      <= (2 ^ 52 + 1) * (z * 2 ^ 200).
Proof.
  intros Hz. destruct z as [|p|p]; try lia.
  unfold of_Z. cbn [binary_normalize].
  pose proof (digits2_pos_bounds p) as [Hlo Hhi].
  assert (Hdg : Z.pos (digits2_pos p) <= 64).
  { destruct (Z.le_gt_cases (Z.pos (digits2_pos p)) 64) as [H|H]; [exact H|].
    assert (2 ^ 64 <= 2 ^ (Z.pos (digits2_pos p) - 1))
      by (apply Z.pow_le_mono_r; lia). lia. }
  assert (HP : 0 < 2 ^ 200) by (apply Z.pow_pos_nonneg; lia).
  destruct (Z.le_gt_cases (Z.pos (digits2_pos p)) 53) as [Hd | Hd].
  - destruct (binary_round_small false p Hd) as (m & e & Hb & Hbits & He & Hm).
    exists m, e. split; [exact Hb|]. split; [exact Hbits|]. split; [lia|].
    assert (Hpe : 0 < 2 ^ (- e)) by (apply Z.pow_pos_nonneg; lia).
    assert (Hsc : scaled m e * 2 ^ (- e) = Z.pos p * 2 ^ 200 * 2 ^ (- e)).
    { unfold scaled. rewrite Hm.
      replace (2 ^ 200) with (2 ^ (e + 200) * 2 ^ (- e))
        by (rewrite <- Z.pow_add_r by lia; f_equal; lia).
      lia. }
    apply Z.mul_cancel_r in Hsc; [|lia].
    rewrite Hsc. nia.
  - unfold binary_round. rewrite Z.add_0_r, fexp_normal by lia.
    unfold shl_align. rewrite Z.sub_0_r.
    destruct (Z.pos (digits2_pos p) - 53) as [|n|n] eqn:Hdiff; [lia| |lia].
    destruct (binary_round_aux_shape false p 0 loc_Exact)
      as (m & e & Hb & Hm & He & Hv); [lia | lia |].
    cbv zeta in He, Hv. rewrite Hdiff in He, Hv.
    rewrite Z.sub_0_r in Hv.
    exists m, e. rewrite Hb.
    destruct (Z.leb_spec e (emax - prec)); [|unfold emax, prec in *; lia].
    split; [reflexivity|]. split; [exact Hm|]. split; [lia|].
    assert (Hn52 : 2 ^ 52 * 2 ^ Z.pos n <= Z.pos p).
    { rewrite <- Z.pow_add_r by lia.
      replace (52 + Z.pos n) with (Z.pos (digits2_pos p) - 1) by lia.
      exact Hlo. }
    rewrite (scaled_shift m 0 e) by lia. rewrite Z.sub_0_r, Z.add_0_l.
    nia.
Qed.

Lemma digits2_pos_ge m k : 2 ^ (k - 1) <= Z.pos m -> k <= Z.pos (digits2_pos m).
Proof.
  intros H. pose proof (digits2_pos_bounds m) as [_ Hhi].
  destruct (Z.le_gt_cases k (Z.pos (digits2_pos m))) as [?|Hlt]; [assumption|].
  assert (2 ^ Z.pos (digits2_pos m) <= 2 ^ (k - 1))
    by (apply Z.pow_le_mono_r; lia). lia.
Qed.

Lemma digits2_pos_le m k :
  0 <= k -> Z.pos m < 2 ^ k -> Z.pos (digits2_pos m) <= k.
Proof.
  intros Hk H. pose proof (digits2_pos_bounds m) as [Hlo _].
  destruct (Z.le_gt_cases (Z.pos (digits2_pos m)) k) as [?|Hlt]; [assumption|].
  assert (2 ^ k <= 2 ^ (Z.pos (digits2_pos m) - 1))
    by (apply Z.pow_le_mono_r; lia). lia.
Qed.

(** [100 * x] for a positive normal [x] of moderate exponent. *)
Lemma mul_100_shape mx ex :
  2 ^ 52 <= Z.pos mx < 2 ^ 53 -> -100 <= ex <= 100 ->
  exists mz ez,
    mul (of_Z 100) (S754_finite false mx ex) = S754_finite false mz ez
    ∧ 2 ^ 52 <= Z.pos mz < 2 ^ 53
    ∧ ex + 6 <= ez <= ex + 8
    ∧ 2 ^ 52 * scaled mz ez <= (2 ^ 52 + 1) * (100 * scaled mx ex).
Proof.
  intros Hmx Hex.
  change (of_Z 100) with (S754_finite false (100 * 2 ^ 46) (-46)).
  unfold mul. cbn [SFmul xorb].
  set (m := (100 * 2 ^ 46 * mx)%positive).
  assert (Em : Z.pos m = 100 * 2 ^ 46 * Z.pos mx) by reflexivity.
  assert (Hlo : 2 ^ (105 - 1) <= Z.pos m).
  { rewrite Em. change (2 ^ (105 - 1)) with (2 ^ 52 * 2 ^ 52).
    assert (2 ^ 52 <= 100 * 2 ^ 46) by (vm_compute; discriminate).
    apply Z.mul_le_mono_nonneg; lia. }
  assert (Hhi : Z.pos m < 2 ^ 106).
  { rewrite Em. change (2 ^ 106) with (2 ^ 53 * 2 ^ 53).
    assert (100 * 2 ^ 46 < 2 ^ 53) by (vm_compute; reflexivity).
    apply Z.mul_lt_mono_nonneg; lia. }
  pose proof (digits2_pos_ge m 105 Hlo) as Hk1.
  pose proof (digits2_pos_le m 106 ltac:(lia) Hhi) as Hk2.
  pose proof (digits2_pos_bounds m) as [Hlo' _].
  destruct (binary_round_aux_shape false m (-46 + ex) loc_Exact)
    as (mz & ez & Hb & Hmz & Hez & _ & Hv); [lia | lia |].
  cbv zeta in Hez, Hv.
  set (k := Z.pos (digits2_pos m)) in *.
  exists mz, ez. rewrite Hb.
  destruct (Z.leb_spec ez (emax - prec)); [|unfold emax, prec in *; lia].
  split; [reflexivity|]. split; [exact Hmz|]. split; [lia|].
  assert (Hulp : 2 ^ 52 * 2 ^ (k - 53) <= Z.pos m).
  { rewrite <- Z.pow_add_r by lia.
    replace (52 + (k - 53)) with (k - 1) by lia. exact Hlo'. }
  assert (H1 : 2 ^ 52 * (Z.pos mz * 2 ^ (ez - (-46 + ex)))
               <= (2 ^ 52 + 1) * Z.pos m) by nia.
  rewrite (scaled_shift mz (-46 + ex) ez) by lia.
  assert (Hsx : 100 * scaled mx ex = Z.pos m * 2 ^ (-46 + ex + 200)).
  { unfold scaled. rewrite Em.
    replace (ex + 200) with (46 + (-46 + ex + 200)) by lia.
    rewrite (Z.pow_add_r 2 46) by lia. lia. }
  rewrite Hsx.
  assert (0 < 2 ^ (-46 + ex + 200)) by (apply Z.pow_pos_nonneg; lia).
  nia.
Qed.

(** The quotient of two positive normal numbers of moderate exponents. *)
Lemma div_shape mz ez my ey :
  2 ^ 52 <= Z.pos mz < 2 ^ 53 -> 2 ^ 52 <= Z.pos my < 2 ^ 53 ->
  -60 <= ez <= 60 -> -60 <= ey <= 60 ->
  exists mq eq,
    div (S754_finite false mz ez) (S754_finite false my ey)
    = S754_finite false mq eq
    ∧ 2 ^ 52 <= Z.pos mq < 2 ^ 53
    ∧ ez - ey - 53 <= eq <= ez - ey - 51
    ∧ 2 ^ 52 * (scaled mq eq * scaled my ey)
      <= (2 ^ 52 + 1) * (scaled mz ez * 2 ^ 200).
Proof.
  intros Hmz Hmy Hez Hey.
  unfold div. cbn [SFdiv xorb]. unfold SFdiv_core_binary. cbn [Zdigits2].
  rewrite (digits2_pos_unique mz 53), (digits2_pos_unique my 53)
    by (simpl; lia).
  rewrite fexp_normal by lia.
  replace (Z.min (53 + ez - (53 + ey) - 53) (ez - ey))
    with (ez - ey - 53) by lia.
  replace (ez - ey - (ez - ey - 53)) with 53 by lia.
  cbv iota. rewrite Z.shiftl_mul_pow2 by lia.
  pose proof (Z_div_mod (Z.pos mz * 2 ^ 53) (Z.pos my) ltac:(lia)) as Hdm.
  destruct (Z.div_eucl (Z.pos mz * 2 ^ 53) (Z.pos my)) as [q r].
  destruct Hdm as [Hq Hr].
  assert (Hqlo : 2 ^ 52 <= q) by nia.
  assert (Hqhi : q < 2 ^ 54) by nia.
  destruct q as [|pq|pq]; [lia| |lia].
  pose proof (digits2_pos_ge pq 53 ltac:(simpl; lia)) as Hk1.
  pose proof (digits2_pos_le pq 54 ltac:(lia) Hqhi) as Hk2.
  pose proof (digits2_pos_bounds pq) as [Hlo' _].
  destruct (binary_round_aux_shape false pq (ez - ey - 53)
              (new_location (Z.pos my) r))
    as (mq & eq & Hb & Hmq & Heq & _ & Hv); [lia | lia |].
  cbv zeta in Heq, Hv.
  set (k := Z.pos (digits2_pos pq)) in *.
  exists mq, eq. rewrite Hb.
  destruct (Z.leb_spec eq (emax - prec)); [|unfold emax, prec in *; lia].
  split; [reflexivity|]. split; [exact Hmq|]. split; [lia|].
  assert (Hulp : 2 ^ 52 * 2 ^ (k - 53) <= Z.pos pq).
  { rewrite <- Z.pow_add_r by lia.
    replace (52 + (k - 53)) with (k - 1) by lia. exact Hlo'. }
  set (u := Z.pos mq * 2 ^ (eq - (ez - ey - 53))) in *.
  assert (H1 : 2 ^ 52 * u <= (2 ^ 52 + 1) * Z.pos pq) by nia.
  assert (H2 : 2 ^ 52 * (u * Z.pos my)
               <= (2 ^ 52 + 1) * (Z.pos mz * 2 ^ 53)).
  { assert (Ha : 2 ^ 52 * u * Z.pos my <= (2 ^ 52 + 1) * Z.pos pq * Z.pos my)
      by (apply Z.mul_le_mono_nonneg_r; lia).
    assert (Hb' : Z.pos pq * Z.pos my <= Z.pos mz * 2 ^ 53) by lia.
    lia. }
  rewrite (scaled_shift mq (ez - ey - 53) eq) by lia. fold u.
  unfold scaled.
  set (T := 2 ^ (ez + 347)).
  assert (HT : 0 < T) by (apply Z.pow_pos_nonneg; lia).
  assert (E1 : 2 ^ (ez - ey - 53 + 200) * 2 ^ (ey + 200) = T)
    by (rewrite <- Z.pow_add_r by lia; unfold T; f_equal; lia).
  assert (E2 : 2 ^ (ez + 200) * 2 ^ 200 = 2 ^ 53 * T)
    by (unfold T; rewrite <- !Z.pow_add_r by lia; f_equal; lia).
  replace (u * 2 ^ (ez - ey - 53 + 200) * (Z.pos my * 2 ^ (ey + 200)))
    with (u * Z.pos my * T) by (rewrite <- E1; ring).
  replace (Z.pos mz * 2 ^ (ez + 200) * 2 ^ 200)
    with (Z.pos mz * 2 ^ 53 * T)
    by (transitivity (Z.pos mz * (2 ^ 53 * T)); [ring | rewrite <- E2; ring]).
  nia.
Qed.

(** The percentage of [Covered] bytes in a scope of [Bytes] bytes is
    defined and between 0 and 100 when the scope is not empty. *)
Lemma percentage_range Covered Bytes :
  0 <= Covered <= Bytes -> 0 < Bytes < 2 ^ 64 ->
  exists p,
    to_int (div (mul (of_Z 100) (of_Z Covered)) (of_Z Bytes)) = Ok p
    ∧ 0 <= p <= 100.
Proof.
  intros Hc Hb.
  destruct (of_Z_shape Bytes Hb) as (my & ey & Ey & Hmy & Hey & Hy & _).
  rewrite Ey.
  destruct (Z.eq_dec Covered 0) as [-> | Hc0].
  { exists 0. split; [reflexivity | lia]. }
  destruct (of_Z_shape Covered ltac:(lia)) as (mx & ex & Ex & Hmx & Hex & _ & Hx).
  rewrite Ex.
  destruct (mul_100_shape mx ex Hmx ltac:(lia)) as (mz & ez & Ez & Hmz & Hez & Hz).
  rewrite Ez.
  destruct (div_shape mz ez my ey Hmz Hmy ltac:(lia) ltac:(lia))
    as (mq & eq & Eq & Hmq & Heq & Hq).
  rewrite Eq. cbn [to_int cond_Zopp].
  set (P := 2 ^ 200) in *.
  assert (HP : 0 < P) by (apply Z.pow_pos_nonneg; lia).
  assert (Hlt : scaled mq eq < 101 * P).
  { destruct (Z.lt_ge_cases (scaled mq eq) (101 * P)) as [?|Hge]; [assumption|].
    exfalso.
    assert (HY : 0 < scaled my ey)
      by (unfold scaled; apply Z.mul_pos_pos; [|apply Z.pow_pos_nonneg]; lia).
    set (Q := scaled mq eq) in *. set (Y := scaled my ey) in *.
    set (X := scaled mx ex) in *. set (Zs := scaled mz ez) in *.
    set (cP := Covered * P) in *. set (bP := Bytes * P) in *.
    assert (HcP : cP <= bP) by (apply Z.mul_le_mono_nonneg_r; lia).
    assert (HbP : 0 < bP) by (apply Z.mul_pos_pos; lia).
    assert (S1 : 101 * (P * Y) <= Q * Y) by nia.
    assert (S2 : (2 ^ 52 - 1) * (bP * P) <= 2 ^ 52 * (P * Y)) by nia.
    assert (S3 : 101 * ((2 ^ 52 - 1) * bP) * P <= (2 ^ 52 + 1) * Zs * P) by lia.
    apply Z.mul_le_mono_pos_r in S3; [|exact HP].
    lia. }
  assert (Hpos : 0 <= trunc_mag mq eq).
  { unfold trunc_mag. destruct (Z.leb_spec 0 eq).
    - apply Z.mul_nonneg_nonneg; [|apply Z.pow_nonneg]; lia.
    - apply Z.div_pos; [|apply Z.pow_pos_nonneg]; lia. }
  assert (Hle : trunc_mag mq eq <= 100).
  { unfold trunc_mag, scaled in *. destruct (Z.leb_spec 0 eq).
    - rewrite Z.pow_add_r in Hlt by lia. fold P in Hlt. nia.
    - assert (Hpe : 0 < 2 ^ (- eq)) by (apply Z.pow_pos_nonneg; lia).
      assert (EP : P = 2 ^ (eq + 200) * 2 ^ (- eq))
        by (unfold P; rewrite <- Z.pow_add_r by lia; f_equal; lia).
      assert (0 < 2 ^ (eq + 200)) by (apply Z.pow_pos_nonneg; lia).
      assert (Z.pos mq < 101 * 2 ^ (- eq)) by nia.
      assert (Z.pos mq / 2 ^ (- eq) < 101)
        by (apply Z.div_lt_upper_bound; lia).
      lia. }
  exists (trunc_mag mq eq). split; [|lia].
  apply as_int_Ok. unfold INT_MIN, INT_MAX. lia.
Qed.

Lemma nearest_integer x : nearest x 1 = x.
Proof.
  unfold nearest.
  replace ((2 * Z.abs x + 1) / (2 * 1)) with (Z.abs x)
    by (apply Z.div_unique with (r := 1); lia).
  rewrite Z.mul_comm. apply Z.abs_sgn.
Qed.

(** [(int)std::round(d)] is the integer nearest to the value of [d], a
    halfway case going away from zero. *)
Lemma to_int_round d : to_int (round d) = rounded d.
Proof.
  destruct d as [s | s | | s m e]; try reflexivity.
  unfold rounded. cbn [round is_number numerator denominator].
  destruct (Z.leb_spec 0 e) as [He | He].
  - cbn [to_int]. unfold trunc_mag.
    destruct (Z.leb_spec 0 e); [|lia].
    rewrite nearest_integer. reflexivity.
  - assert (Hn : nearest (cond_Zopp s (Z.pos m)) (2 ^ (- e))
                 = cond_Zopp s (round_mag m e)).
    { unfold nearest, round_mag. destruct (Z.leb_spec 0 e); [lia|].
      destruct s; cbn [cond_Zopp].
      - change (Z.abs (- Z.pos m)) with (Z.pos m).
        change (Z.sgn (- Z.pos m)) with (-1).
        generalize ((2 * Z.pos m + 2 ^ (- e)) / (2 * 2 ^ (- e))). lia.
      - change (Z.abs (Z.pos m)) with (Z.pos m).
        change (Z.sgn (Z.pos m)) with 1.
        generalize ((2 * Z.pos m + 2 ^ (- e)) / (2 * 2 ^ (- e))). lia. }
    rewrite Hn.
    destruct (round_mag m e) as [|r|r] eqn:Hr.
    + destruct s; reflexivity.
    + apply to_int_binary_normalize.
    + apply to_int_binary_normalize.
Qed.

(** ** The traversal, one level at a time *)

Section Traversal.

Variable Opts : Options.
Variable DICtx : DWARFContext.

(** [collectStatsRecursive] in terms of the loop over the children. *)
Lemma collectStatsRecursive_unfold Die Parent ScopeLowPC BytesInScope S :
  collectStatsRecursive Opts DICtx Die Parent ScopeLowPC BytesInScope S =
  let Tag := getTag Die in
  let traverse := fun Lo Bytes =>
    traverseChildren Opts DICtx Tag Lo Bytes (getChildren Die) in
  if IsScope Tag then
    if has Die DW_AT_declaration then Ok S
    else if has Die DW_AT_inline then Ok S
    else if IgnoreInlined Opts
            && bool_decide (Tag = DW_TAG_inlined_subroutine) then Ok S
    else
      match getAddressRanges Die with
      | None => Ok S
      | Some Ranges => traverse (getLowPC Die) (scopeBytes Ranges) S
      end
  else if bool_decide (Tag = DW_TAG_variable)
          || bool_decide (Tag = DW_TAG_formal_parameter) then
    S' ← collectLocStatsForDie Opts DICtx Die Parent ScopeLowPC BytesInScope S;
    traverse ScopeLowPC BytesInScope S'
  else traverse ScopeLowPC BytesInScope S.
Proof.
  destruct Die as [tag attrs ranges children].
  assert (Hloop : forall Lo Bytes S0,
    (fix loop (Children : list DWARFDie) (S1 : Stats) {struct Children}
       : Result Stats :=
       match Children with
       | [] => Ok S1
       | Child :: Siblings =>
           S' ← collectStatsRecursive Opts DICtx Child tag Lo Bytes S1;
           loop Siblings S'
       end) children S0
    = traverseChildren Opts DICtx tag Lo Bytes children S0).
  { intros Lo Bytes. induction children as [|c cs IH]; intros S0.
    - reflexivity.
    - simpl. destruct (collectStatsRecursive Opts DICtx c tag Lo Bytes S0);
        simpl; [apply IH | reflexivity]. }
  cbn [collectStatsRecursive getTag getChildren].
  destruct (IsScope tag).
  - repeat case_match; first [reflexivity | apply Hloop].
  - case_match; [|apply Hloop].
    destruct (collectLocStatsForDie _ _ _ _ _ _ _); simpl;
      [apply Hloop | reflexivity].
Qed.

Lemma traverseChildren_app Parent Lo Bytes Cs1 Cs2 S :
  traverseChildren Opts DICtx Parent Lo Bytes (Cs1 ++ Cs2) S =
  S' ← traverseChildren Opts DICtx Parent Lo Bytes Cs1 S;
  traverseChildren Opts DICtx Parent Lo Bytes Cs2 S'.
Proof.
  revert S. induction Cs1 as [|c cs IH]; intros S; simpl.
  - reflexivity.
  - destruct (collectStatsRecursive Opts DICtx c Parent Lo Bytes S); simpl;
      [apply IH | reflexivity].
Qed.

End Traversal.

Lemma DWARFDie_children_ind (P : DWARFDie -> Prop) :
  (forall tag attrs ranges children,
     Forall P children -> P (mkDie tag attrs ranges children)) ->
  forall Die, P Die.
Proof.
  intros H. fix IH 1. intros [tag attrs ranges children].
  apply H. induction children as [|c cs IHcs].
  - constructor.
  - constructor; [apply IH | exact IHcs].
Qed.

(** ** The filters *)

Lemma has_true Die A : has Die A = true <-> is_Some (find Die A).
Proof. unfold has. apply bool_decide_eq_true. Qed.

Lemma has_false Die A : has Die A = false <-> find Die A = None.
Proof.
  unfold has. rewrite bool_decide_eq_false. split.
  - destruct (find Die A); [intros H; destruct H; eauto | reflexivity].
  - intros -> [v Hv]. discriminate.
Qed.

Lemma skipped_filtered Opts Die Parent :
  skipped Opts Die Parent = true <-> filtered Opts Die Parent.
Proof.
  unfold skipped, filtered.
  destruct (bool_decide (getTag Die = DW_TAG_variable)
            && OnlyFormalParameters Opts) eqn:E1.
  { apply andb_true_iff in E1 as [Ht%bool_decide_eq_true Ho]. tauto. }
  destruct (bool_decide (getTag Die = DW_TAG_formal_parameter)
            && OnlyVariables Opts) eqn:E2.
  { apply andb_true_iff in E2 as [Ht%bool_decide_eq_true Ho]. tauto. }
  destruct (has Die DW_AT_declaration || has Die DW_AT_artificial) eqn:E3.
  { apply orb_true_iff in E3 as [H%has_true | H%has_true]; tauto. }
  destruct (has Die DW_AT_external && negb (has Die DW_AT_location)) eqn:E4.
  { apply andb_true_iff in E4 as [He%has_true Hl%negb_true_iff%has_false].
    tauto. }
  destruct (bool_decide (getTag Die = DW_TAG_formal_parameter)
            && bool_decide (Parent = DW_TAG_subroutine_type)) eqn:E5.
  { apply andb_true_iff in E5 as [Ht%bool_decide_eq_true Hp%bool_decide_eq_true].
    tauto. }
  split; [discriminate|]. intros H. exfalso.
  apply orb_false_iff in E3 as [Hd%has_false Ha%has_false].
  destruct H as [[Ht Ho] | [[Ht Ho] | [Hs | [Hs | [[Hs Hl] | [Ht Hp]]]]]].
  - rewrite Ho, (bool_decide_eq_true_2 _ Ht) in E1. discriminate.
  - rewrite Ho, (bool_decide_eq_true_2 _ Ht) in E2. discriminate.
  - rewrite Hd in Hs. destruct Hs; discriminate.
  - rewrite Ha in Hs. destruct Hs; discriminate.
  - apply has_true in Hs. apply has_false in Hl.
    rewrite Hs, Hl in E4. discriminate.
  - rewrite (bool_decide_eq_true_2 _ Ht), (bool_decide_eq_true_2 _ Hp) in E5.
    discriminate.
Qed.

(** ** Covered bytes *)

Section Covered.

Variable Opts : Options.
Variable DICtx : DWARFContext.

Lemma u64_range z : 0 <= u64 z < 2 ^ 64.
Proof. unfold u64. apply Z.mod_pos_bound. lia. Qed.

Lemma u64_small z : 0 <= z < 2 ^ 64 -> u64 z = z.
Proof. unfold u64. apply Z.mod_small. Qed.

Lemma sumEntries_nonneg Entries Covered :
  0 <= Covered -> 0 <= sumEntries Opts Entries Covered.
Proof.
  revert Covered. unfold sumEntries.
  induction Entries as [|E Es IH]; intros Covered H; simpl; [exact H|].
  apply IH. destruct (IgnoreEntryValues Opts && IsEntryValue (Loc E));
    [exact H | apply u64_range].
Qed.

Lemma summedBytes_nonneg Offset : 0 <= summedBytes Opts DICtx Offset.
Proof.
  unfold summedBytes.
  destruct (getLocationListAtOffset DICtx Offset);
    [apply sumEntries_nonneg|]; lia.
Qed.

(** Without wrap-around the loop computes the sum of the counted
    lengths. *)
Lemma sumEntries_exact Entries Covered :
  Forall (fun Entry => Begin Entry <= End_ Entry) Entries ->
  0 <= Covered ->
  Covered + total (countedLengths Opts Entries) < 2 ^ 64 ->
  sumEntries Opts Entries Covered
  = Covered + total (countedLengths Opts Entries).
Proof.
  unfold sumEntries, countedLengths, total.
  intros Hwf. revert Covered.
  induction Hwf as [|E Es HE Hwf IH]; intros Covered H0 Hlt.
  - simpl. lia.
  - assert (Hpos : 0 <= foldr Z.add 0
      (map (fun Entry => End_ Entry - Begin Entry)
         (List.filter (fun Entry => negb (IgnoreEntryValues Opts
                                          && IsEntryValue (Loc Entry))) Es))).
    { clear -Hwf. induction Hwf as [|E' Es' HE' _ IH']; simpl; [lia|].
      destruct (negb _); simpl; lia. }
    simpl in *.
    destruct (IgnoreEntryValues Opts && IsEntryValue (Loc E)); simpl in *.
    + apply IH; assumption.
    + rewrite (u64_small (End_ E - Begin E)) by lia.
      rewrite u64_small by lia.
      rewrite IH by lia. lia.
Qed.

Lemma coveredBytes_le Offset BytesInScope :
  coveredBytes Opts DICtx Offset BytesInScope <= BytesInScope.
Proof.
  unfold coveredBytes. destruct (Z.gtb_spec (summedBytes Opts DICtx Offset)
                                   BytesInScope); lia.
Qed.

Lemma coveredBytes_nonneg Offset Bytes :
  0 <= Bytes -> 0 <= coveredBytes Opts DICtx Offset Bytes.
Proof.
  intros HB. unfold coveredBytes.
  pose proof (summedBytes_nonneg Offset).
  destruct (summedBytes Opts DICtx Offset >? Bytes); lia.
Qed.

Lemma coveredBytes_zero_scope Offset : coveredBytes Opts DICtx Offset 0 = 0.
Proof.
  unfold coveredBytes. pose proof (summedBytes_nonneg Offset).
  destruct (Z.gtb_spec (summedBytes Opts DICtx Offset) 0); lia.
Qed.

(** The evaluation of a variable that passes the filters, has no
    constant value and whose location is a section offset. *)
Lemma collectLocStatsForDie_list Die Parent Lo Bytes S V Offset :
  ¬ filtered Opts Die Parent ->
  find Die DW_AT_const_value = None ->
  find Die DW_AT_location = Some V ->
  getAsSectionOffset V = Some Offset ->
  Coverage Opts DICtx Die Bytes
  = div (mul (of_Z 100) (of_Z (coveredBytes Opts DICtx Offset Bytes)))
        (of_Z Bytes)
  ∧ collectLocStatsForDie Opts DICtx Die Parent Lo Bytes S
    = CoverageRounded ← to_int (Coverage Opts DICtx Die Bytes);
      Ok (record CoverageRounded S).
Proof.
  intros Hf Hc Hl Ho. split.
  - unfold Coverage. apply has_false in Hc. rewrite Hc, Hl, Ho. reflexivity.
  - unfold collectLocStatsForDie.
    destruct (skipped Opts Die Parent) eqn:Hs; [|reflexivity].
    apply skipped_filtered in Hs. contradiction.
Qed.

End Covered.

(** The sum of the loop over the entries, in the 64 bits of [Covered]. *)

Lemma u64_add_l a b : u64 (u64 a + b) = u64 (a + b).
Proof. unfold u64. apply Zplus_mod_idemp_l. Qed.

Lemma u64_add_r a b : u64 (a + u64 b) = u64 (a + b).
Proof. unfold u64. apply Zplus_mod_idemp_r. Qed.

Lemma sumEntries_mod Opts Entries Covered :
  sumEntries Opts Entries (u64 Covered)
  = u64 (Covered + total (countedLengths Opts Entries)).
Proof.
  unfold sumEntries, countedLengths, total. revert Covered.
  induction Entries as [|E Es IH]; intros Covered; cbn [fold_left List.filter].
  - cbn [map foldr]. rewrite Z.add_0_r. reflexivity.
  - destruct (IgnoreEntryValues Opts && IsEntryValue (Loc E));
      cbn [negb map foldr].
    + apply IH.
    + rewrite u64_add_l, u64_add_r, IH. f_equal. lia.
Qed.

Lemma summedBytes_mod Opts DICtx Offset Entries :
  getLocationListAtOffset DICtx Offset = Some Entries ->
  summedBytes Opts DICtx Offset = u64 (total (countedLengths Opts Entries)).
Proof.
  intros H. unfold summedBytes. rewrite H.
  change 0 with (u64 0) at 1. apply sumEntries_mod.
Qed.

Lemma total_nonneg Lengths : Forall (fun l => 0 <= l) Lengths -> 0 <= total Lengths.
Proof. unfold total. induction 1; cbn [foldr]; lia. Qed.

Lemma countedLengths_nonneg Opts Entries :
  Forall (fun Entry => Begin Entry <= End_ Entry) Entries ->
  Forall (fun l => 0 <= l) (countedLengths Opts Entries).
Proof.
  unfold countedLengths. induction 1 as [|E Es HE _ IH]; cbn [List.filter map].
  - constructor.
  - destruct (negb _); cbn [map]; [constructor; [lia | exact IH] | exact IH].
Qed.

Lemma countedLengths_le Opts Entries :
  Forall (fun Entry => Begin Entry <= End_ Entry) Entries ->
  total (countedLengths Opts Entries)
  <= total (map (fun Entry => End_ Entry - Begin Entry) Entries).
Proof.
  unfold countedLengths, total.
  induction 1 as [|E Es HE _ IH]; cbn [List.filter map foldr]; [lia|].
  destruct (negb _); cbn [map foldr]; lia.
Qed.

Lemma countedLengths_all Opts Entries :
  IgnoreEntryValues Opts = false ->
  countedLengths Opts Entries
  = map (fun Entry => End_ Entry - Begin Entry) Entries.
Proof.
  intros H. unfold countedLengths. rewrite H. cbn [andb negb].
  induction Entries as [|E Es IH]; cbn [List.filter map]; [reflexivity|].
  f_equal. exact IH.
Qed.

Lemma countedLengths_none Opts Entries :
  IgnoreEntryValues Opts = true ->
  Forall (fun Entry => IsEntryValue (Loc Entry) = true) Entries ->
  countedLengths Opts Entries = [].
Proof.
  intros H. unfold countedLengths. rewrite H.
  induction 1 as [|E Es HE _ IH]; cbn [List.filter map]; [reflexivity|].
  rewrite HE. cbn [andb negb]. exact IH.
Qed.

Lemma coveredBytes_sum Opts DICtx Offset Bytes :
  coveredBytes Opts DICtx Offset Bytes
  = Z.min (u64 (total (countedLengths Opts
                         (default [] (getLocationListAtOffset DICtx Offset)))))
          Bytes.
Proof.
  unfold coveredBytes.
  assert (E : summedBytes Opts DICtx Offset
              = u64 (total (countedLengths Opts
                       (default [] (getLocationListAtOffset DICtx Offset))))).
  { destruct (getLocationListAtOffset DICtx Offset) as [Entries|] eqn:H.
    - apply summedBytes_mod. exact H.
    - unfold summedBytes. rewrite H. reflexivity. }
  rewrite E.
  destruct (Z.gtb_spec
    (u64 (total (countedLengths Opts
                   (default [] (getLocationListAtOffset DICtx Offset))))) Bytes);
    lia.
Qed.

(** * The scope tracker *)

(** C3. A function, inlined-function or lexical-block node with a
    declaration attribute, with an inline attribute, or whose address
    ranges cannot be obtained is abandoned with its whole subtree: the
    statistics come back as they went in, and the loop over the siblings
    goes on as if the node were not there. *)
Theorem abandoned_subtree Opts DICtx Die Parent Lo Bytes Before After S :
  IsScope (getTag Die) = true ->
  is_Some (find Die DW_AT_declaration)
  ∨ is_Some (find Die DW_AT_inline)
  ∨ getAddressRanges Die = None ->
  collectStatsRecursive Opts DICtx Die Parent Lo Bytes S = Ok S
  ∧ traverseChildren Opts DICtx Parent Lo Bytes (Before ++ Die :: After) S
    = traverseChildren Opts DICtx Parent Lo Bytes (Before ++ After) S.
Proof.
  intros Hscope Hwhy.
  assert (Hself : forall S0,
    collectStatsRecursive Opts DICtx Die Parent Lo Bytes S0 = Ok S0).
  { intros S0. rewrite collectStatsRecursive_unfold. cbn zeta.
    rewrite Hscope. unfold has.
    destruct Hwhy as [Hd | [Hi | Hr]].
    - rewrite (bool_decide_eq_true_2 _ Hd). reflexivity.
    - rewrite (bool_decide_eq_true_2 _ Hi).
      destruct (bool_decide _); reflexivity.
    - rewrite Hr. repeat case_match; reflexivity. }
  split; [apply Hself|].
  rewrite !traverseChildren_app.
  destruct (traverseChildren Opts DICtx Parent Lo Bytes Before S) as [S1|];
    simpl; [|reflexivity].
  rewrite Hself. reflexivity.
Qed.

Lemma abandoned_subtree_witness :
  let Die := Sample.declared in
  IsScope (getTag Die) = true
  ∧ collectStatsRecursive Sample.plain (Sample.context []) Die
      DW_TAG_compile_unit 0 0 Sample.empty = Ok Sample.empty
  ∧ traverseChildren Sample.plain (Sample.context []) DW_TAG_compile_unit 0 0
      ([] ++ Die :: [Sample.function [Sample.parameter]]) Sample.empty
    = traverseChildren Sample.plain (Sample.context []) DW_TAG_compile_unit 0 0
      ([] ++ [Sample.function [Sample.parameter]]) Sample.empty.
Proof.
  assert (Hs : IsScope (getTag Sample.declared) = true) by reflexivity.
  assert (Hd : is_Some (find Sample.declared DW_AT_declaration)
               ∨ is_Some (find Sample.declared DW_AT_inline)
               ∨ getAddressRanges Sample.declared = None)
    by (left; eexists; reflexivity).
  split; [exact Hs|].
  exact (abandoned_subtree Sample.plain (Sample.context []) Sample.declared
           DW_TAG_compile_unit 0 0 [] [Sample.function [Sample.parameter]]
           Sample.empty Hs Hd).
Defined.

Lemma RangesOrError_reached Opts Die R :
  RangesOrError Opts Die = Some R <->
  find Die DW_AT_declaration = None
  ∧ find Die DW_AT_inline = None
  ∧ (IgnoreInlined Opts = true -> getTag Die ≠ DW_TAG_inlined_subroutine)
  ∧ getAddressRanges Die = R.
Proof.
  unfold RangesOrError, has.
  destruct (find Die DW_AT_declaration) as [v|] eqn:Hd.
  { rewrite bool_decide_eq_true_2 by eauto. split; [discriminate|].
    intros [H _]; discriminate. }
  rewrite bool_decide_eq_false_2 by (intros [? ?]; discriminate).
  destruct (find Die DW_AT_inline) as [v|] eqn:Hi.
  { rewrite bool_decide_eq_true_2 by eauto. split; [discriminate|].
    intros (_ & H & _); discriminate. }
  rewrite bool_decide_eq_false_2 by (intros [? ?]; discriminate).
  destruct (IgnoreInlined Opts); cbn [andb].
  - destruct (decide (getTag Die = DW_TAG_inlined_subroutine)) as [e|n].
    + rewrite bool_decide_eq_true_2 by exact e. split; [discriminate|].
      intros (_ & _ & H & _). destruct (H eq_refl e).
    + rewrite bool_decide_eq_false_2 by exact n. split.
      * intros [= <-]. auto.
      * intros (_ & _ & _ & <-). reflexivity.
  - split.
    + intros [= <-]. repeat split; auto; discriminate.
    + intros (_ & _ & _ & <-). reflexivity.
Qed.

(** C10. A function, inlined-function or lexical-block node that has no
    declaration attribute and no inline attribute, that is not an inlined
    instance under [-ignore-inlined], and whose ranges resolve to the empty
    list is kept: its children are traversed with a scope of 0 bytes (and
    the low pc of the node), so a first child that is a variable or a
    formal parameter is evaluated against 0 bytes. *)
Theorem empty_ranges_kept Opts DICtx Die Parent Lo Bytes S :
  IsScope (getTag Die) = true ->
  find Die DW_AT_declaration = None ->
  find Die DW_AT_inline = None ->
  (IgnoreInlined Opts = true -> getTag Die ≠ DW_TAG_inlined_subroutine) ->
  getAddressRanges Die = Some [] ->
  collectStatsRecursive Opts DICtx Die Parent Lo Bytes S
  = traverseChildren Opts DICtx (getTag Die)
      (toAddress (find Die DW_AT_low_pc) 0) 0 (getChildren Die) S
  ∧ forall Var Siblings,
      getChildren Die = Var :: Siblings ->
      getTag Var = DW_TAG_variable ∨ getTag Var = DW_TAG_formal_parameter ->
      collectStatsRecursive Opts DICtx Die Parent Lo Bytes S
      = S1 ← collectLocStatsForDie Opts DICtx Var (getTag Die)
               (toAddress (find Die DW_AT_low_pc) 0) 0 S;
        S2 ← traverseChildren Opts DICtx (getTag Var)
               (toAddress (find Die DW_AT_low_pc) 0) 0 (getChildren Var) S1;
        traverseChildren Opts DICtx (getTag Die)
          (toAddress (find Die DW_AT_low_pc) 0) 0 Siblings S2.
Proof.
  intros Hscope Hdecl Hinline Hinst Hempty.
  assert (Hranges : RangesOrError Opts Die = Some (Some []))
    by (apply RangesOrError_reached; auto).
  assert (Hself :
    collectStatsRecursive Opts DICtx Die Parent Lo Bytes S
    = traverseChildren Opts DICtx (getTag Die)
        (toAddress (find Die DW_AT_low_pc) 0) 0 (getChildren Die) S).
  { rewrite collectStatsRecursive_unfold. cbn zeta. rewrite Hscope.
    unfold RangesOrError in Hranges.
    destruct (has Die DW_AT_declaration); [discriminate|].
    destruct (has Die DW_AT_inline); [discriminate|].
    destruct (IgnoreInlined Opts && _); [discriminate|].
    injection Hranges as Hr. rewrite Hr.
    unfold getLowPC. rewrite Hr. reflexivity. }
  split; [exact Hself|].
  intros Var Siblings Hcs Hvar. rewrite Hself, Hcs. cbn [traverseChildren].
  rewrite (collectStatsRecursive_unfold _ _ Var). cbn zeta.
  assert (Hns : IsScope (getTag Var) = false)
    by (destruct Hvar as [-> | ->]; reflexivity).
  assert (Hv : bool_decide (getTag Var = DW_TAG_variable)
               || bool_decide (getTag Var = DW_TAG_formal_parameter) = true)
    by (destruct Hvar as [-> | ->]; reflexivity).
  rewrite Hns, Hv.
  destruct (collectLocStatsForDie _ _ _ _ _ _ _); reflexivity.
Qed.

Lemma empty_ranges_kept_witness :
  let Die := Sample.emptyBlock [Sample.parameter] in
  getAddressRanges Die = Some []
  ∧ collectStatsRecursive Sample.plain (Sample.context []) Die
      DW_TAG_subprogram 4096 100 Sample.empty
    = traverseChildren Sample.plain (Sample.context []) DW_TAG_lexical_block
        0 0 [Sample.parameter] Sample.empty.
Proof.
  assert (Hinst : IgnoreInlined Sample.plain = true ->
                  getTag (Sample.emptyBlock [Sample.parameter])
                  ≠ DW_TAG_inlined_subroutine) by (intros _; discriminate).
  split; [reflexivity|].
  exact (proj1 (empty_ranges_kept Sample.plain (Sample.context [])
                  (Sample.emptyBlock [Sample.parameter]) DW_TAG_subprogram
                  4096 100 Sample.empty eq_refl eq_refl eq_refl Hinst
                  eq_refl)).
Defined.

(** The statement of C10 without its three side conditions fails on a
    forward declaration: the ranges of [Sample.declared] resolve to the
    empty list, yet the node is abandoned. The statistics come back as
    they went in, where the traversal of its child against 0 bytes would
    have been undefined. *)
Lemma declared_empty_ranges_abandoned :
  let Die := Sample.declared in
  IsScope (getTag Die) = true
  ∧ getAddressRanges Die = Some []
  ∧ getChildren Die = [Sample.listed]
  ∧ collectStatsRecursive Sample.plain (Sample.context []) Die
      DW_TAG_compile_unit 0 0 Sample.empty = Ok Sample.empty
  ∧ traverseChildren Sample.plain (Sample.context []) (getTag Die)
      (toAddress (find Die DW_AT_low_pc) 0) 0 (getChildren Die) Sample.empty
    = Undefined.
Proof. repeat split; vm_compute; reflexivity. Qed.

(** * The coverage evaluator *)

(** C9. An entity caught by a filter (wrong tag for the active mode,
    declaration or artificial attribute, external without location, formal
    parameter of a subroutine type) leaves the statistics as they are, so
    it is not counted and adds to no category: the traversal of a filtered
    variable or formal parameter is the traversal of its children. And
    when the count of processed variables is 0 the report is the line
    [No coverage recorded.] and nothing else. *)
Theorem filtered_not_counted Opts DICtx Die Parent Lo Bytes S Final :
  filtered Opts Die Parent ->
  CumulNumOfVars Final = 0 ->
  collectLocStatsForDie Opts DICtx Die Parent Lo Bytes S = Ok S
  ∧ (getTag Die = DW_TAG_variable ∨ getTag Die = DW_TAG_formal_parameter ->
     collectStatsRecursive Opts DICtx Die Parent Lo Bytes S
     = traverseChildren Opts DICtx (getTag Die) Lo Bytes (getChildren Die) S)
  ∧ outputLocStats Final = Ok ("No coverage recorded." +:+ nl).
Proof.
  intros Hf H0.
  assert (Hself : collectLocStatsForDie Opts DICtx Die Parent Lo Bytes S = Ok S).
  { unfold collectLocStatsForDie.
    apply skipped_filtered in Hf. rewrite Hf. reflexivity. }
  split; [exact Hself|]. split.
  - intros Hvar. rewrite collectStatsRecursive_unfold. cbn zeta.
    rewrite Hself.
    destruct Hvar as [-> | ->]; reflexivity.
  - unfold outputLocStats. rewrite H0. reflexivity.
Qed.

Lemma filtered_not_counted_witness :
  filtered Sample.onlyVariables Sample.parameter DW_TAG_subprogram
  ∧ CumulNumOfVars Sample.empty = 0
  ∧ collectLocStatsForDie Sample.onlyVariables (Sample.context [])
      Sample.parameter DW_TAG_subprogram 4096 100 Sample.empty
    = Ok Sample.empty
  ∧ outputLocStats Sample.empty = Ok ("No coverage recorded." +:+ nl).
Proof.
  assert (Hf : filtered Sample.onlyVariables Sample.parameter DW_TAG_subprogram)
    by (right; left; split; reflexivity).
  split; [exact Hf|]. split; [reflexivity|].
  destruct (filtered_not_counted Sample.onlyVariables (Sample.context [])
              Sample.parameter DW_TAG_subprogram 4096 100 Sample.empty
              Sample.empty Hf eq_refl) as (H1 & _ & H2).
  split; [exact H1 | exact H2].
Defined.

(** The end-to-end case: a function with only a formal parameter, under
    [-only-variables]. *)
Example only_parameters_no_coverage :
  collectLocstats Sample.onlyVariables
    (Sample.context [Sample.function [Sample.parameter]])
  = Ok ("No coverage recorded." +:+ nl).
Proof. vm_compute. reflexivity. Qed.

(** C8. A variable or formal parameter that passes the filters and has a
    constant-value attribute has coverage 100, with or without a location
    attribute and for any scope: it is recorded with percentage 100. *)
Theorem const_value_full_coverage Opts DICtx Die Parent Lo Bytes S :
  ¬ filtered Opts Die Parent ->
  is_Some (find Die DW_AT_const_value) ->
  Coverage Opts DICtx Die Bytes = of_Z 100
  ∧ to_int (Coverage Opts DICtx Die Bytes) = Ok 100
  ∧ collectLocStatsForDie Opts DICtx Die Parent Lo Bytes S = Ok (record 100 S).
Proof.
  intros Hf Hc.
  assert (HC : Coverage Opts DICtx Die Bytes = of_Z 100).
  { unfold Coverage. apply has_true in Hc. rewrite Hc. reflexivity. }
  split; [exact HC|]. split; [rewrite HC; reflexivity|].
  unfold collectLocStatsForDie.
  destruct (skipped Opts Die Parent) eqn:Hs.
  - apply skipped_filtered in Hs. contradiction.
  - rewrite HC. reflexivity.
Qed.

Lemma not_filtered_constant :
  ¬ filtered Sample.plain Sample.constant DW_TAG_subprogram.
Proof.
  intros H. apply skipped_filtered in H. discriminate H.
Defined.

Lemma const_value_full_coverage_witness :
  is_Some (find Sample.constant DW_AT_const_value)
  ∧ is_Some (find Sample.constant DW_AT_location)
  ∧ collectLocStatsForDie Sample.plain (Sample.context []) Sample.constant
      DW_TAG_subprogram 0 0 Sample.empty
    = Ok (record 100 Sample.empty).
Proof.
  assert (Hc : is_Some (find Sample.constant DW_AT_const_value))
    by (eexists; reflexivity).
  split; [exact Hc|]. split; [eexists; reflexivity|].
  exact (proj2 (proj2 (const_value_full_coverage Sample.plain
           (Sample.context []) Sample.constant DW_TAG_subprogram 0 0
           Sample.empty not_filtered_constant Hc))).
Defined.

(** C6. When the lengths of the entries of a location list (entry-value
    entries left out when they are ignored), summed modulo [2 ^ 64] as the
    64 bits of [Covered] hold them, exceed the byte size of the scope, the
    covered bytes are exactly the byte size of the scope, so they never
    exceed it, and the evaluation goes on to the conversion and the
    histogram with the percentage of a list that covers the scope exactly;
    in a scope that is not empty the variable is recorded, with a
    percentage between 0 and 100. *)
Theorem wrong_location_list_clamped Opts DICtx Die Parent Lo Bytes S V Offset
    Entries :
  ¬ filtered Opts Die Parent ->
  find Die DW_AT_const_value = None ->
  find Die DW_AT_location = Some V ->
  getAsSectionOffset V = Some Offset ->
  getLocationListAtOffset DICtx Offset = Some Entries ->
  u64 (total (countedLengths Opts Entries)) > Bytes ->
  coveredBytes Opts DICtx Offset Bytes = Bytes
  ∧ coveredBytes Opts DICtx Offset Bytes <= Bytes
  ∧ collectLocStatsForDie Opts DICtx Die Parent Lo Bytes S
    = (CoverageRounded ← to_int (div (mul (of_Z 100) (of_Z Bytes))
                                     (of_Z Bytes));
       Ok (record CoverageRounded S))
  ∧ (0 < Bytes < 2 ^ 64 ->
     exists CoverageRounded,
       0 <= CoverageRounded <= 100
       ∧ collectLocStatsForDie Opts DICtx Die Parent Lo Bytes S
         = Ok (record CoverageRounded S)).
Proof.
  intros Hf Hc Hl Ho HL Hsum.
  assert (Hcov : coveredBytes Opts DICtx Offset Bytes = Bytes).
  { unfold coveredBytes.
    rewrite (summedBytes_mod Opts DICtx Offset Entries HL).
    destruct (Z.gtb_spec (u64 (total (countedLengths Opts Entries))) Bytes);
      lia. }
  destruct (collectLocStatsForDie_list Opts DICtx Die Parent Lo Bytes S V
              Offset Hf Hc Hl Ho) as [HC Hrun].
  rewrite HC, Hcov in Hrun.
  split; [exact Hcov|]. split; [lia|]. split; [exact Hrun|].
  intros HB.
  destruct (percentage_range Bytes Bytes ltac:(lia) HB) as (p & Hp & Hrange).
  exists p. split; [exact Hrange|].
  rewrite Hrun, Hp. reflexivity.
Qed.

Lemma not_filtered_listed :
  ¬ filtered Sample.plain Sample.listed DW_TAG_subprogram.
Proof.
  intros H. apply skipped_filtered in H. discriminate H.
Defined.

Lemma wrong_location_list_clamped_witness :
  let Entries := [mkEntry 0 50 []; mkEntry 60 90 []] in
  getLocationListAtOffset (Sample.context []) 0 = Some Entries
  ∧ u64 (total (countedLengths Sample.plain Entries)) > 70
  ∧ coveredBytes Sample.plain (Sample.context []) 0 70 = 70
  ∧ collectLocStatsForDie Sample.plain (Sample.context []) Sample.listed
      DW_TAG_subprogram 4096 70 Sample.empty
    = Ok (record 100 Sample.empty).
Proof.
  assert (Hsum : u64 (total (countedLengths Sample.plain
                               [mkEntry 0 50 []; mkEntry 60 90 []])) > 70)
    by (vm_compute; reflexivity).
  split; [reflexivity|]. split; [exact Hsum|].
  destruct (wrong_location_list_clamped Sample.plain (Sample.context [])
              Sample.listed DW_TAG_subprogram 4096 70 Sample.empty
              (FormSecOffset 0) 0 [mkEntry 0 50 []; mkEntry 60 90 []]
              not_filtered_listed eq_refl eq_refl eq_refl eq_refl
              Hsum) as (Hcov & _ & Hrun & _).
  split; [exact Hcov|]. rewrite Hrun. reflexivity.
Defined.

(** The statement of C6 over the sum of the lengths as integers, and for
    every scope, fails twice. Two entries [0, 2 ^ 63 + 50) have lengths
    that add up to [2 ^ 64 + 100], far above a scope of 1000 bytes, but
    [Covered] wraps around to 100: the covered bytes are 100, not 1000, and
    the variable is recorded with 10 percent. And in a scope of 0 bytes the
    list [0,50), [60,90) of 80 bytes is clamped to 0, and the evaluation is
    undefined. *)
Lemma wrong_location_list_wraps :
  let Entries := [mkEntry 0 (2 ^ 63 + 50) []; mkEntry 0 (2 ^ 63 + 50) []] in
  (getLocationListAtOffset Sample.wrapping 0 = Some Entries
   ∧ total (countedLengths Sample.plain Entries) = 2 ^ 64 + 100
   ∧ total (countedLengths Sample.plain Entries) > 1000
   ∧ coveredBytes Sample.plain Sample.wrapping 0 1000 = 100
   ∧ collectLocStatsForDie Sample.plain Sample.wrapping Sample.listed
       DW_TAG_subprogram 4096 1000 Sample.empty
     = Ok (record 10 Sample.empty))
  ∧ (total (countedLengths Sample.plain [mkEntry 0 50 []; mkEntry 60 90 []])
     > 0
     ∧ coveredBytes Sample.plain (Sample.context []) 0 0 = 0
     ∧ collectLocStatsForDie Sample.plain (Sample.context []) Sample.listed
         DW_TAG_subprogram 4096 0 Sample.empty
       = Undefined).
Proof. repeat split; vm_compute; reflexivity. Qed.

(** C1. The division by the byte size of the scope has no guard. For a
    variable or formal parameter that passes the filters, has no constant
    value and whose location is a location list, a scope of 0 bytes makes
    [Covered] 0 and [Coverage] the quotient of 0 by 0, which is NaN and
    not 0; its conversion to [int] is undefined. *)
Theorem zero_scope_division Opts DICtx Die Parent Lo S V Offset :
  ¬ filtered Opts Die Parent ->
  find Die DW_AT_const_value = None ->
  find Die DW_AT_location = Some V ->
  getAsSectionOffset V = Some Offset ->
  Coverage Opts DICtx Die 0 = div (mul (of_Z 100) (of_Z 0)) (of_Z 0)
  ∧ Coverage Opts DICtx Die 0 = S754_nan
  ∧ Coverage Opts DICtx Die 0 ≠ of_Z 0
  ∧ collectLocStatsForDie Opts DICtx Die Parent Lo 0 S = Undefined.
Proof.
  intros Hf Hc Hl Ho.
  destruct (collectLocStatsForDie_list Opts DICtx Die Parent Lo 0 S V Offset
              Hf Hc Hl Ho) as [HC Hrun].
  rewrite coveredBytes_zero_scope in HC.
  split; [exact HC|].
  assert (Hnan : Coverage Opts DICtx Die 0 = S754_nan)
    by (rewrite HC; reflexivity).
  split; [exact Hnan|]. split; [rewrite Hnan; discriminate|].
  rewrite Hrun, Hnan. reflexivity.
Qed.

Lemma zero_scope_division_witness :
  Coverage Sample.plain (Sample.context []) Sample.listed 0 = S754_nan
  ∧ collectLocStatsForDie Sample.plain (Sample.context []) Sample.listed
      DW_TAG_compile_unit 0 0 Sample.empty = Undefined.
Proof.
  assert (Hf : ¬ filtered Sample.plain Sample.listed DW_TAG_compile_unit)
    by (intros H; apply skipped_filtered in H; discriminate H).
  destruct (zero_scope_division Sample.plain (Sample.context [])
              Sample.listed DW_TAG_compile_unit 0 Sample.empty
              (FormSecOffset 0) 0 Hf eq_refl eq_refl eq_refl)
    as (_ & Hnan & _ & Hrun).
  split; [exact Hnan | exact Hrun].
Defined.

(** * The aggregator *)

Lemma PercentageKey_range p :
  0 <= p <= 100 -> 0 <= PercentageKey p < largest_cov_category.
Proof.
  intros Hp. unfold PercentageKey, largest_cov_category.
  destruct (Z.eqb_spec p 0); [lia|].
  destruct (Z.eqb_spec p 100); [lia|].
  rewrite Z.quot_div_nonneg by lia.
  assert (0 <= p / 10) by (apply Z.div_pos; lia).
  assert (p / 10 < 10) by (apply Z.div_lt_upper_bound; lia).
  lia.
Qed.

(** C4. For a percentage [p] in [0,100]: 0 goes to category 0, 100 to
    category 11, any other [p] to [p / 10 + 1]; so 5 goes to 1, 10 to 2 and
    99 to 10, and the category is one of the 12. *)
Theorem PercentageKey_categories (p : Z) :
  0 <= p <= 100 ->
  (p = 0 -> PercentageKey p = 0)
  ∧ (p = 100 -> PercentageKey p = 11)
  ∧ (p ≠ 0 -> p ≠ 100 -> PercentageKey p = p / 10 + 1)
  ∧ PercentageKey 5 = 1 ∧ PercentageKey 10 = 2 ∧ PercentageKey 99 = 10
  ∧ 0 <= PercentageKey p < largest_cov_category.
Proof.
  intros Hp.
  split; [intros ->; reflexivity|].
  split; [intros ->; reflexivity|].
  split.
  { intros H0 H100. unfold PercentageKey.
    destruct (Z.eqb_spec p 0); [contradiction|].
    destruct (Z.eqb_spec p 100); [contradiction|].
    rewrite Z.quot_div_nonneg by lia. reflexivity. }
  do 3 (split; [reflexivity|]).
  apply PercentageKey_range. exact Hp.
Qed.

Lemma PercentageKey_categories_witness :
  0 <= 80 <= 100 ∧ PercentageKey 80 = 80 / 10 + 1.
Proof.
  split; [lia|].
  refine (proj1 (proj2 (proj2 (PercentageKey_categories 80 _))) _ _); lia.
Defined.

Lemma total_insert (Keys : list Z) (M : gmap Z Z) k v :
  NoDup Keys ->
  foldr (fun i Sum => default 0 (<[k := v]> M !! i) + Sum) 0 Keys
  = foldr (fun i Sum => default 0 (M !! i) + Sum) 0 Keys
    + (if bool_decide (k ∈ Keys) then v - default 0 (M !! k) else 0).
Proof.
  induction 1 as [|i Keys Hi Hnd IH]; cbn [foldr].
  - rewrite bool_decide_eq_false_2 by apply not_elem_of_nil. lia.
  - rewrite IH. destruct (decide (k = i)) as [-> | Hne].
    + rewrite lookup_insert_eq.
      rewrite (bool_decide_eq_false_2 (i ∈ Keys)) by exact Hi.
      rewrite bool_decide_eq_true_2 by apply list_elem_of_here.
      simpl. lia.
    + rewrite lookup_insert_ne by exact Hne.
      destruct (decide (k ∈ Keys)) as [Hin | Hnin].
      * rewrite !bool_decide_eq_true_2;
          [lia | apply list_elem_of_further; exact Hin | exact Hin].
      * rewrite !bool_decide_eq_false_2; [lia | | exact Hnin].
        intros [?|?]%elem_of_cons; congruence.
Qed.

Lemma categoriesTotal_increment M k :
  0 <= k < largest_cov_category ->
  categoriesTotal (increment M k)
  = categoriesTotal M - default 0 (M !! k) + u64 (default 0 (M !! k) + 1).
Proof.
  intros Hk. unfold categoriesTotal, increment.
  rewrite total_insert by apply NoDup_seqZ.
  rewrite bool_decide_eq_true_2 by (apply elem_of_seqZ; lia). lia.
Qed.

Lemma categories_increment M k :
  0 <= k < largest_cov_category -> categories M -> categories (increment M k).
Proof.
  intros Hk HM i. unfold increment.
  destruct (decide (k = i)) as [-> | Hne].
  - rewrite lookup_insert_eq. split; [intros _; exact Hk | eauto].
  - rewrite lookup_insert_ne by exact Hne. apply HM.
Qed.

Lemma u32_step t old : u32 (t - old + u64 (old + 1)) = u32 (u32 t + 1).
Proof.
  unfold u32, u64.
  rewrite (Z.mod_eq (old + 1) (2 ^ 64)) by lia.
  replace (t - old + (old + 1 - 2 ^ 64 * ((old + 1) / 2 ^ 64)))
    with (t + 1 + (- (2 ^ 32 * ((old + 1) / 2 ^ 64))) * 2 ^ 32)
    by (change (2 ^ 64) with (2 ^ 32 * 2 ^ 32); ring).
  rewrite Z.mod_add by lia.
  rewrite Zplus_mod_idemp_l. reflexivity.
Qed.

Section Run.

Variable Opts : Options.
Variable DICtx : DWARFContext.

Lemma balanced_mod_record p S :
  0 <= p <= 100 -> balanced_mod S -> balanced_mod (record p S).
Proof.
  intros Hp [Hcat Hsum].
  pose proof (PercentageKey_range p Hp) as Hkey.
  split; cbn [record LocStatistics CumulNumOfVars].
  - apply categories_increment; assumption.
  - rewrite categoriesTotal_increment by exact Hkey.
    rewrite u32_step, Hsum. reflexivity.
Qed.

(** The percentage of an evaluated variable is between 0 and 100 whenever
    it is defined, and it is defined in every scope that is not empty. *)
Lemma Coverage_range Die Bytes :
  0 <= Bytes < 2 ^ 64 ->
  (exists p, to_int (Coverage Opts DICtx Die Bytes) = Ok p ∧ 0 <= p <= 100)
  ∨ (Bytes = 0 ∧ Coverage Opts DICtx Die Bytes = S754_nan).
Proof.
  intros HB. unfold Coverage.
  destruct (has Die DW_AT_const_value).
  { left. exists 100. split; [reflexivity | lia]. }
  destruct (find Die DW_AT_location) as [V|].
  2:{ left. exists 0. split; [reflexivity | lia]. }
  destruct (getAsSectionOffset V) as [Offset|].
  2:{ left. exists 100. split; [reflexivity | lia]. }
  destruct (Z.eq_dec Bytes 0) as [-> | Hne].
  - right. split; [reflexivity|].
    rewrite coveredBytes_zero_scope. reflexivity.
  - left. apply percentage_range; [|lia].
    split; [apply coveredBytes_nonneg; lia | apply coveredBytes_le].
Qed.

Lemma collectLocStatsForDie_balanced Die Parent Lo Bytes S S' :
  0 <= Bytes < 2 ^ 64 -> balanced_mod S ->
  collectLocStatsForDie Opts DICtx Die Parent Lo Bytes S = Ok S' ->
  balanced_mod S'.
Proof.
  intros HB HS. unfold collectLocStatsForDie.
  destruct (skipped Opts Die Parent); [intros [= <-]; exact HS|].
  destruct (Coverage_range Die Bytes HB) as [(p & -> & Hp) | [_ ->]].
  - rewrite bind_Ok. intros [= <-]. apply balanced_mod_record; assumption.
  - discriminate 1.
Qed.

Lemma scopeBytes_range Ranges : 0 <= scopeBytes Ranges < 2 ^ 64.
Proof.
  unfold scopeBytes.
  assert (H : forall Rs acc, 0 <= acc < 2 ^ 64 ->
    0 <= fold_left (fun BytesInThisScope Range =>
                      u64 (BytesInThisScope + u64 (HighPC Range - LowPC Range)))
                   Rs acc < 2 ^ 64).
  { induction Rs as [|R Rs IH]; intros acc Hacc; cbn [fold_left];
      [exact Hacc | apply IH, u64_range]. }
  apply H. lia.
Qed.

Lemma collectStatsRecursive_balanced Die :
  forall Parent Lo Bytes S S',
    0 <= Bytes < 2 ^ 64 -> balanced_mod S ->
    collectStatsRecursive Opts DICtx Die Parent Lo Bytes S = Ok S' ->
    balanced_mod S'.
Proof.
  induction Die as [tag attrs ranges children IH] using DWARFDie_children_ind.
  assert (Hloop : forall Parent Lo Bytes S S',
    0 <= Bytes < 2 ^ 64 -> balanced_mod S ->
    traverseChildren Opts DICtx Parent Lo Bytes children S = Ok S' ->
    balanced_mod S').
  { induction IH as [|c cs Hc _ IHcs]; intros Parent Lo Bytes S S' HB HS;
      cbn [traverseChildren].
    - intros [= <-]. exact HS.
    - destruct (collectStatsRecursive Opts DICtx c Parent Lo Bytes S)
        as [S1|] eqn:H1; [|discriminate 1].
      rewrite bind_Ok. apply IHcs; [exact HB|].
      exact (Hc _ _ _ _ _ HB HS H1). }
  intros Parent Lo Bytes S S' HB HS.
  rewrite collectStatsRecursive_unfold. cbn zeta. cbn [getTag getChildren].
  destruct (IsScope tag).
  - destruct (has _ DW_AT_declaration); [intros [= <-]; exact HS|].
    destruct (has _ DW_AT_inline); [intros [= <-]; exact HS|].
    destruct (IgnoreInlined Opts && _); [intros [= <-]; exact HS|].
    destruct (getAddressRanges _) as [Ranges|]; [|intros [= <-]; exact HS].
    apply Hloop; [apply scopeBytes_range | exact HS].
  - destruct (_ || _); [|apply Hloop; assumption].
    destruct (collectLocStatsForDie _ _ _ _ _ _ _) as [S1|] eqn:H1;
      [|discriminate 1].
    rewrite bind_Ok. apply Hloop; [exact HB|].
    exact (collectLocStatsForDie_balanced _ _ _ _ _ _ HB HS H1).
Qed.

End Run.

Lemma initialStats_balanced : balanced initialStats ∧ balanced_mod initialStats.
Proof.
  assert (Hcat : categories (LocStatistics initialStats)).
  { intros i. unfold initialStats, largest_cov_category.
    cbn [LocStatistics]. change (seqZ 0 12) with [0;1;2;3;4;5;6;7;8;9;10;11].
    cbn [foldl].
    repeat (rewrite lookup_insert; case_decide;
            [subst i; split; [lia | eauto]|]).
    rewrite lookup_empty. split; [intros [? ?]; discriminate | lia]. }
  split; (split; [exact Hcat | vm_compute; reflexivity]).
Qed.

(** Every run that completes leaves exactly the 12 categories, and their
    counts add up to the count of processed variables in the 32 bits of
    the counter. *)
Theorem completed_run_balanced Opts DICtx S :
  finalStats Opts DICtx = Ok S -> balanced_mod S.
Proof.
  unfold finalStats.
  assert (H : forall Units S0 S1, balanced_mod S0 ->
    collectUnits Opts DICtx Units S0 = Ok S1 -> balanced_mod S1).
  { induction Units as [|[CUDie|] Units IH]; intros S0 S1 H0;
      cbn [collectUnits].
    - intros [= <-]. exact H0.
    - destruct (collectStatsRecursive Opts DICtx CUDie DW_TAG_null 0 0 S0)
        as [S'|] eqn:H1; [|discriminate 1].
      rewrite bind_Ok. apply IH.
      apply (collectStatsRecursive_balanced Opts DICtx CUDie DW_TAG_null 0 0
               S0 S' ltac:(lia) H0 H1).
    - apply IH. exact H0. }
  apply H. apply initialStats_balanced.
Qed.

Lemma balanced_mod_small S :
  balanced_mod S -> 0 <= categoriesTotal (LocStatistics S) < 2 ^ 32 ->
  balanced S.
Proof.
  intros [Hcat Hsum] Hsmall. split; [exact Hcat|].
  rewrite <- Hsum. unfold u32. symmetry. apply Z.mod_small. exact Hsmall.
Qed.


(** *** The 32 bits of the counter *)

(** A run over [n] variables without location: each is recorded with
    percentage 0. *)
Lemma traverse_bare DICtx n Parent Lo Bytes S :
  traverseChildren Sample.plain DICtx Parent Lo Bytes (replicate n Sample.bare) S
  = Ok (Nat.iter n (record 0) S).
Proof.
  revert S. induction n as [|n IH]; intros S.
  - reflexivity.
  - cbn [replicate traverseChildren].
    rewrite collectStatsRecursive_unfold.
    change (getTag Sample.bare) with DW_TAG_variable.
    change (getChildren Sample.bare) with (@nil DWARFDie).
    cbn zeta.
    change (IsScope DW_TAG_variable) with false.
    cbv iota.
    change (bool_decide (DW_TAG_variable = DW_TAG_variable)
            || bool_decide (DW_TAG_variable = DW_TAG_formal_parameter))
      with true.
    cbv iota.
    change (collectLocStatsForDie Sample.plain DICtx Sample.bare Parent Lo Bytes S)
      with (Ok (record 0 S)).
    rewrite bind_Ok. cbn [traverseChildren]. rewrite bind_Ok.
    rewrite IH, <- Nat.iter_succ_r. reflexivity.
Qed.

Lemma iter_record_0 n :
  Nat.iter n (record 0) initialStats
  = {| LocStatistics := <[0 := u64 (Z.of_nat n)]> (LocStatistics initialStats);
       CumulNumOfVars := u32 (Z.of_nat n);
       TotalAverage := S754_zero false |}.
Proof.
  induction n as [|n IH].
  - change (Nat.iter 0 (record 0) initialStats) with initialStats.
    change (u64 (Z.of_nat 0)) with 0.
    change (u32 (Z.of_nat 0)) with 0.
    rewrite insert_id by reflexivity. reflexivity.
  - change (Nat.iter (Datatypes.S n) (record 0) initialStats)
      with (record 0 (Nat.iter n (record 0) initialStats)).
    rewrite IH. unfold record.
    cbn [LocStatistics CumulNumOfVars TotalAverage].
    change (PercentageKey 0) with 0. unfold increment.
    rewrite lookup_insert_eq, insert_insert_eq. cbn [default from_option id].
    assert (E64 : u64 (u64 (Z.of_nat n) + 1) = u64 (Z.of_nat (Datatypes.S n)))
      by (unfold u64; rewrite Nat2Z.inj_succ, Zplus_mod_idemp_l; f_equal; lia).
    assert (E32 : u32 (u32 (Z.of_nat n) + 1) = u32 (Z.of_nat (Datatypes.S n)))
      by (unfold u32; rewrite Nat2Z.inj_succ, Zplus_mod_idemp_l; f_equal; lia).
    rewrite E64, E32. reflexivity.
Qed.

(** With [2 ^ 32] processed variables the counter is back at 0 while
    category 0 holds [2 ^ 32]. *)
Lemma counter_wraps :
  exists S,
    finalStats Sample.plain
      (mkContext ∅ [Some (Sample.unit (replicate (Z.to_nat (2 ^ 32)) Sample.bare))])
    = Ok S
    ∧ CumulNumOfVars S = 0
    ∧ categoriesTotal (LocStatistics S) = 2 ^ 32
    ∧ balanced_mod S ∧ ¬ balanced S.
Proof.
  assert (Hn : Z.of_nat (Z.to_nat (2 ^ 32)) = 2 ^ 32) by (apply Z2Nat.id; lia).
  revert Hn. generalize (Z.to_nat (2 ^ 32)). intros n Hn.
  exists (Nat.iter n (record 0) initialStats).
  assert (Hrun : finalStats Sample.plain
                   (mkContext ∅ [Some (Sample.unit (replicate n Sample.bare))])
                 = Ok (Nat.iter n (record 0) initialStats)).
  { unfold finalStats. cbn [compile_units collectUnits].
    rewrite collectStatsRecursive_unfold.
    change (getTag (Sample.unit (replicate n Sample.bare))) with DW_TAG_compile_unit.
    change (getChildren (Sample.unit (replicate n Sample.bare)))
      with (replicate n Sample.bare).
    cbn zeta. change (IsScope DW_TAG_compile_unit) with false. cbv iota.
    change (bool_decide (DW_TAG_compile_unit = DW_TAG_variable)
            || bool_decide (DW_TAG_compile_unit = DW_TAG_formal_parameter))
      with false.
    cbv iota beta. rewrite traverse_bare, bind_Ok. reflexivity. }
  split; [exact Hrun|].
  rewrite iter_record_0, Hn. cbn [CumulNumOfVars LocStatistics].
  assert (Hc : u32 (2 ^ 32) = 0) by reflexivity.
  assert (Ht : categoriesTotal (<[0 := u64 (2 ^ 32)]> (LocStatistics initialStats))
               = 2 ^ 32).
  { unfold categoriesTotal. rewrite total_insert by apply NoDup_seqZ.
    rewrite bool_decide_eq_true_2 by (apply elem_of_seqZ; unfold largest_cov_category; lia).
    vm_compute. reflexivity. }
  split; [exact Hc|]. split; [exact Ht|]. split.
  - rewrite <- Hn, <- iter_record_0. 
    apply (completed_run_balanced Sample.plain _ _ Hrun).
  - intros [_ Hb]. cbn [CumulNumOfVars LocStatistics] in Hb.
    rewrite Ht, Hc in Hb. discriminate Hb.
Qed.

(** C5. A run over a unit with a location-list variable in a scope of 0
    bytes, here directly under the unit DIE, and also inside a block whose
    ranges are empty: the traversal reaches the undefined conversion, so
    the run ends in no statistics in which the 12 categories add up to the
    count, and in no report. *)
Theorem zero_scope_run :
  let Direct := Sample.context [Sample.listed] in
  let Nested :=
    Sample.context [Sample.function [Sample.emptyBlock [Sample.listed]]] in
  finalStats Sample.plain Direct = Undefined
  ∧ collectLocstats Sample.plain Direct = Undefined
  ∧ finalStats Sample.plain Nested = Undefined
  ∧ ¬ (exists S, finalStats Sample.plain Direct = Ok S ∧ balanced S).
Proof.
  cbv zeta.
  assert (H : finalStats Sample.plain (Sample.context [Sample.listed])
              = Undefined) by (vm_compute; reflexivity).
  split; [exact H|]. split; [vm_compute; reflexivity|].
  split; [vm_compute; reflexivity|].
  intros (S & HS & _). rewrite H in HS. discriminate HS.
Qed.

(** * The report *)

(** C7. The percentage of a variable is the [double] [Coverage] without
    its fractional part: that integer selects the category and is what is
    added to the running total. The mean in the footer is the [double]
    [(TotalAverage / CumulNumOfVars * 100) / 100] rounded to the nearest
    integer, a halfway case going away from zero. *)
Theorem truncated_then_rounded Opts DICtx Die Parent Lo Bytes S Final :
  ¬ filtered Opts Die Parent ->
  CumulNumOfVars Final ≠ 0 ->
  let C := Coverage Opts DICtx Die Bytes in
  let N := CumulNumOfVars Final in
  let D := div (mul (div (TotalAverage Final) (of_Z N)) (of_Z 100))
               (of_Z 100) in
  collectLocStatsForDie Opts DICtx Die Parent Lo Bytes S
  = (CoverageRounded ← truncated C; Ok (record CoverageRounded S))
  ∧ (forall CoverageRounded,
       LocStatistics (record CoverageRounded S)
       = increment (LocStatistics S) (PercentageKey CoverageRounded)
       ∧ TotalAverage (record CoverageRounded S)
         = add (TotalAverage S) (of_Z CoverageRounded))
  ∧ outputLocStats Final
    = (Rows ← rows Final; Mean ← rounded D;
       Ok (heading +:+ Rows +:+ footer N Mean)).
Proof.
  intros Hf HN. cbv zeta. split; [|split].
  - unfold collectLocStatsForDie.
    destruct (skipped Opts Die Parent) eqn:Hs.
    { apply skipped_filtered in Hs. contradiction. }
    rewrite to_int_truncated. reflexivity.
  - intros p. split; reflexivity.
  - unfold outputLocStats, average.
    destruct (Z.eqb_spec (CumulNumOfVars Final) 0); [contradiction|].
    rewrite to_int_round. reflexivity.
Qed.

Lemma not_filtered_almost :
  ¬ filtered Sample.plain Sample.almost DW_TAG_subprogram.
Proof.
  intros H. apply skipped_filtered in H. discriminate H.
Defined.

(** 999 of 1000 bytes are 99.9 percent and count as 99; the mean of 99 and
    100 is 99.5 and is shown as 100. *)
Lemma truncated_then_rounded_witness :
  let Final := record 100 (record 99 Sample.empty) in
  CumulNumOfVars Final ≠ 0
  ∧ collectLocStatsForDie Sample.plain (Sample.context []) Sample.almost
      DW_TAG_subprogram 0 1000 Sample.empty = Ok (record 99 Sample.empty)
  ∧ outputLocStats Final
    = (Rows ← rows Final; Ok (heading +:+ Rows +:+ footer 2 100)).
Proof.
  cbv zeta.
  assert (HN : CumulNumOfVars (record 100 (record 99 Sample.empty)) ≠ 0)
    by (vm_compute; discriminate).
  destruct (truncated_then_rounded Sample.plain (Sample.context [])
              Sample.almost DW_TAG_subprogram 0 1000 Sample.empty
              (record 100 (record 99 Sample.empty)) not_filtered_almost HN)
    as (Hrun & _ & Hout).
  split; [exact HN|]. split.
  - rewrite Hrun. vm_compute. reflexivity.
  - rewrite Hout. vm_compute. reflexivity.
Defined.

(** * The driver *)

(** C2. With both [-only-formal-parameters] and [-only-variables] (and an
    input file, without [-h]) the run prints the message about
    incompatible arguments, opens and reads nothing, writes no report, and
    returns status 0. *)
Theorem incompatible_arguments_status Opts W :
  Help Opts = false ->
  InputFilename Opts ≠ ""%string ->
  OnlyFormalParameters Opts = true ->
  OnlyVariables Opts = true ->
  main Opts W
  = Ok {| status := 0;
          events := [ErrorMessage
            "incompatible arguments: specifying both -only-formal-parameters and -only-variables is not allowed."] |}.
Proof.
  intros Hh Hi Hp Hv. unfold main.
  rewrite Hh, Hp, Hv, (bool_decide_eq_false_2 _ Hi). reflexivity.
Qed.

Lemma incompatible_arguments_status_witness :
  InputFilename Sample.both ≠ ""%string
  ∧ main Sample.both
      (Sample.world (Sample.context [Sample.function [Sample.parameter]]))
    = Ok {| status := 0;
            events := [ErrorMessage
              "incompatible arguments: specifying both -only-formal-parameters and -only-variables is not allowed."] |}.
Proof.
  assert (Hi : InputFilename Sample.both ≠ ""%string) by discriminate.
  split; [exact Hi|].
  exact (incompatible_arguments_status Sample.both
           (Sample.world (Sample.context [Sample.function [Sample.parameter]]))
           eq_refl Hi eq_refl eq_refl).
Defined.


(** * Small inputs, end to end *)

(** On small inputs the two [double] computations agree with exact
    arithmetic: the percentage of [Covered] in [Bytes] is
    [100 * Covered / Bytes] rounded down, and the mean of a total [T] over
    [N] variables is [T / N] rounded to the nearest integer. *)
Example percentage_exact_small :
  forallb (fun Bytes =>
    forallb (fun Covered =>
      Result_eqb (to_int (div (mul (of_Z 100) (of_Z Covered)) (of_Z Bytes)))
                 (Ok (100 * Covered / Bytes)))
      (seqZ 0 (Bytes + 1)))
    (seqZ 1 64) = true.
Proof. vm_compute. reflexivity. Qed.

Example average_exact_small :
  forallb (fun N =>
    forallb (fun T => Result_eqb (average (of_Z T) N) (Ok (nearest T N)))
      (seqZ 0 (100 * N + 1)))
    (seqZ 1 12) = true.
Proof. vm_compute. reflexivity. Qed.

(** The end-to-end case of a function of 100 bytes with one variable
    covered on [0,50) and [60,90): coverage 80, category 9, mean 80. *)
Example eighty_percent :
  finalStats Sample.plain (Sample.context [Sample.function [Sample.listed]])
  = Ok (record 80 initialStats)
  /\ PercentageKey 80 = 9
  /\ collectLocstats Sample.plain
       (Sample.context [Sample.function [Sample.listed]])
     = Ok "=================================================
           Debug Location Statistics
=================================================
    cov%        samples        percentage
-------------------------------------------------
    0                0               0%
    1..9             0               0%
    11..19           0               0%
    21..29           0               0%
    31..39           0               0%
    41..49           0               0%
    51..59           0               0%
    61..69           0               0%
    71..79           0               0%
    81..89           1             100%
    91..99           0               0%
    100              0               0%
=================================================
-the number of debug variables processed: 1
-the average coverage per var: ~ 80%
=================================================
"%string.
Proof. repeat split; vm_compute; reflexivity. Qed.

(** * The analysis, the report and the driver in full *)

(** ** Sums in 64 bits *)

(** X1. [Covered] at the division is the smaller of the byte size of the
    scope and the sum, in 64 bits, of the lengths of the counted entries of
    the location list; without a list at the offset it is the smaller of
    the byte size and 0. *)
Theorem coveredBytes_min Opts DICtx Offset Bytes :
  coveredBytes Opts DICtx Offset Bytes
  = Z.min (u64 (total (countedLengths Opts
                         (default [] (getLocationListAtOffset DICtx Offset)))))
          Bytes.
Proof. apply coveredBytes_sum. Qed.

(** X2. The byte size of a scope is the sum of the lengths of its ranges
    in 64 bits: the sum itself when the ranges are well formed and the sum
    is below [2 ^ 64]. *)
Theorem scopeBytes_sum Ranges :
  scopeBytes Ranges = u64 (total (rangeLengths Ranges))
  ∧ (Forall (fun Range => LowPC Range <= HighPC Range) Ranges ->
     total (rangeLengths Ranges) < 2 ^ 64 ->
     scopeBytes Ranges = total (rangeLengths Ranges)).
Proof.
  assert (H : forall Rs acc,
    fold_left (fun BytesInThisScope Range =>
                 u64 (BytesInThisScope + u64 (HighPC Range - LowPC Range)))
              Rs (u64 acc)
    = u64 (acc + total (rangeLengths Rs))).
  { unfold rangeLengths, total.
    induction Rs as [|R Rs IH]; intros acc; cbn [fold_left map foldr].
    - rewrite Z.add_0_r. reflexivity.
    - rewrite u64_add_l, u64_add_r, IH. f_equal. lia. }
  assert (E : scopeBytes Ranges = u64 (total (rangeLengths Ranges))).
  { unfold scopeBytes. change 0 with (u64 0) at 1. apply H. }
  split; [exact E|].
  intros Hwf Hlt. rewrite E. apply u64_small. split; [|exact Hlt].
  apply total_nonneg. unfold rangeLengths. clear E Hlt H.
  induction Hwf; cbn [map]; constructor; [lia | assumption].
Qed.

(** X3. On a well-formed location list whose lengths add up to less than
    [2 ^ 64], leaving the entry-value entries out never raises the covered
    bytes. *)
Theorem ignoring_entry_values_lowers Opts Opts' DICtx Offset Bytes Entries :
  IgnoreEntryValues Opts = true ->
  IgnoreEntryValues Opts' = false ->
  getLocationListAtOffset DICtx Offset = Some Entries ->
  Forall (fun Entry => Begin Entry <= End_ Entry) Entries ->
  total (map (fun Entry => End_ Entry - Begin Entry) Entries) < 2 ^ 64 ->
  coveredBytes Opts DICtx Offset Bytes <= coveredBytes Opts' DICtx Offset Bytes.
Proof.
  intros Hi Ha Hl Hwf Hlt.
  rewrite !coveredBytes_sum, Hl. cbn [default from_option id].
  pose proof (countedLengths_le Opts Entries Hwf) as Hle.
  pose proof (total_nonneg _ (countedLengths_nonneg Opts Entries Hwf)) as H0.
  rewrite (countedLengths_all Opts' Entries Ha).
  rewrite !u64_small by lia. lia.
Qed.

Lemma ignoring_entry_values_lowers_witness :
  coveredBytes Sample.ignoreEntryValues Sample.moreContext 16 100 = 40
  ∧ coveredBytes Sample.plain Sample.moreContext 16 100 = 100
  ∧ coveredBytes Sample.ignoreEntryValues Sample.moreContext 16 100
    <= coveredBytes Sample.plain Sample.moreContext 16 100.
Proof.
  split; [reflexivity|]. split; [reflexivity|].
  apply (ignoring_entry_values_lowers Sample.ignoreEntryValues Sample.plain
           Sample.moreContext 16 100 [mkEntry 0 40 []; Sample.entryValue]
           eq_refl eq_refl eq_refl).
  - repeat constructor; simpl; lia.
  - vm_compute. reflexivity.
Defined.

(** X4. An entry whose end lies below its begin adds [2 ^ 64] minus the
    difference: as the only counted entry of a list it exceeds every
    smaller scope, and the variable counts as covered over the whole
    scope. *)
Theorem reversed_entry_wraps Opts DICtx Offset Bytes Entry :
  getLocationListAtOffset DICtx Offset = Some [Entry] ->
  IgnoreEntryValues Opts && IsEntryValue (Loc Entry) = false ->
  End_ Entry < Begin Entry ->
  Begin Entry - End_ Entry <= 2 ^ 64 ->
  Bytes < 2 ^ 64 - (Begin Entry - End_ Entry) ->
  summedBytes Opts DICtx Offset = 2 ^ 64 - (Begin Entry - End_ Entry)
  ∧ coveredBytes Opts DICtx Offset Bytes = Bytes.
Proof.
  intros Hl Hc Hrev Hfit HB.
  assert (E : summedBytes Opts DICtx Offset
              = 2 ^ 64 - (Begin Entry - End_ Entry)).
  { rewrite (summedBytes_mod Opts DICtx Offset [Entry] Hl).
    unfold countedLengths, total. cbn [List.filter]. rewrite Hc.
    cbn [negb map foldr]. rewrite Z.add_0_r. unfold u64.
    symmetry. apply Z.mod_unique with (q := -1); lia. }
  split; [exact E|].
  unfold coveredBytes. rewrite E.
  destruct (Z.gtb_spec (2 ^ 64 - (Begin Entry - End_ Entry)) Bytes); lia.
Qed.

Lemma reversed_entry_wraps_witness :
  summedBytes Sample.plain Sample.moreContext 32 = 2 ^ 64 - 5
  ∧ coveredBytes Sample.plain Sample.moreContext 32 100 = 100.
Proof.
  apply (reversed_entry_wraps Sample.plain Sample.moreContext 32 100
           Sample.reversed eq_refl eq_refl);
    vm_compute; first [reflexivity | discriminate].
Defined.

(** ** The evaluation of one variable *)

Lemma percentage_zero Bytes :
  0 < Bytes < 2 ^ 64 ->
  to_int (div (mul (of_Z 100) (of_Z 0)) (of_Z Bytes)) = Ok 0.
Proof.
  intros HB. destruct (of_Z_shape Bytes HB) as (m & e & E & _).
  rewrite E. reflexivity.
Qed.

Lemma not_skipped Opts Die Parent :
  ¬ filtered Opts Die Parent -> skipped Opts Die Parent = false.
Proof.
  intros Hf. destruct (skipped Opts Die Parent) eqn:Hs; [|reflexivity].
  apply skipped_filtered in Hs. contradiction.
Qed.

(** X5. A variable or formal parameter that passes the filters and has
    neither a constant value nor a location is counted with coverage 0, in
    category 0, whatever the byte size of the scope. *)
Theorem no_location_no_coverage Opts DICtx Die Parent Lo Bytes S :
  ¬ filtered Opts Die Parent ->
  find Die DW_AT_const_value = None ->
  find Die DW_AT_location = None ->
  collectLocStatsForDie Opts DICtx Die Parent Lo Bytes S = Ok (record 0 S)
  ∧ LocStatistics (record 0 S) = increment (LocStatistics S) 0
  ∧ CumulNumOfVars (record 0 S) = u32 (CumulNumOfVars S + 1).
Proof.
  intros Hf Hc Hl. split; [|split; reflexivity].
  unfold collectLocStatsForDie, Coverage.
  apply has_false in Hc. rewrite (not_skipped _ _ _ Hf), Hc, Hl. reflexivity.
Qed.

Lemma not_filtered_bare : ¬ filtered Sample.plain Sample.bare DW_TAG_subprogram.
Proof. intros H. apply skipped_filtered in H. discriminate H. Defined.

Lemma no_location_no_coverage_witness :
  collectLocStatsForDie Sample.plain (Sample.context []) Sample.bare
    DW_TAG_subprogram 4096 100 Sample.empty = Ok (record 0 Sample.empty).
Proof.
  exact (proj1 (no_location_no_coverage Sample.plain (Sample.context [])
                  Sample.bare DW_TAG_subprogram 4096 100 Sample.empty
                  not_filtered_bare eq_refl eq_refl)).
Defined.

(** X6. A location that is not a section offset is taken as one location
    for the entire scope: the variable is counted with coverage 100, in
    category 11, whatever the byte size of the scope, 0 included. *)
Theorem single_location_full_coverage Opts DICtx Die Parent Lo Bytes S V :
  ¬ filtered Opts Die Parent ->
  find Die DW_AT_const_value = None ->
  find Die DW_AT_location = Some V ->
  getAsSectionOffset V = None ->
  collectLocStatsForDie Opts DICtx Die Parent Lo Bytes S = Ok (record 100 S)
  ∧ LocStatistics (record 100 S) = increment (LocStatistics S) 11.
Proof.
  intros Hf Hc Hl Ho. split; [|reflexivity].
  unfold collectLocStatsForDie, Coverage.
  apply has_false in Hc. rewrite (not_skipped _ _ _ Hf), Hc, Hl, Ho.
  reflexivity.
Qed.

Lemma not_filtered_parameter :
  ¬ filtered Sample.plain Sample.parameter DW_TAG_subprogram.
Proof. intros H. apply skipped_filtered in H. discriminate H. Defined.

Lemma single_location_full_coverage_witness :
  collectLocStatsForDie Sample.plain (Sample.context []) Sample.parameter
    DW_TAG_subprogram 0 0 Sample.empty = Ok (record 100 Sample.empty).
Proof.
  exact (proj1 (single_location_full_coverage Sample.plain (Sample.context [])
                  Sample.parameter DW_TAG_subprogram 0 0 Sample.empty
                  (FormExprLoc []) not_filtered_parameter eq_refl eq_refl
                  eq_refl)).
Defined.

Lemma collectLocStatsForDie_Undefined Opts DICtx Die Parent Lo Bytes S :
  0 <= Bytes < 2 ^ 64 ->
  collectLocStatsForDie Opts DICtx Die Parent Lo Bytes S = Undefined
  <-> ¬ filtered Opts Die Parent
      ∧ find Die DW_AT_const_value = None
      ∧ (exists V Offset, find Die DW_AT_location = Some V
                          ∧ getAsSectionOffset V = Some Offset)
      ∧ Bytes = 0.
Proof.
  intros HB. split.
  - unfold collectLocStatsForDie.
    destruct (skipped Opts Die Parent) eqn:Hs; [discriminate 1|].
    assert (Hf : ¬ filtered Opts Die Parent).
    { intros Hf. apply skipped_filtered in Hf. congruence. }
    unfold Coverage.
    destruct (has Die DW_AT_const_value) eqn:Hc; [discriminate 1|].
    apply has_false in Hc.
    destruct (find Die DW_AT_location) as [V|] eqn:Hl; [|discriminate 1].
    destruct (getAsSectionOffset V) as [Offset|] eqn:Ho; [|discriminate 1].
    destruct (Z.eq_dec Bytes 0) as [-> | Hne]; [eauto 8|].
    destruct (percentage_range (coveredBytes Opts DICtx Offset Bytes) Bytes)
      as (p & -> & _); [| lia | discriminate 1].
    split; [apply coveredBytes_nonneg; lia | apply coveredBytes_le].
  - intros (Hf & Hc & (V & Offset & Hl & Ho) & ->).
    destruct (collectLocStatsForDie_list Opts DICtx Die Parent Lo 0 S V Offset
                Hf Hc Hl Ho) as [HC Hrun].
    rewrite coveredBytes_zero_scope in HC. rewrite Hrun, HC. reflexivity.
Qed.

(** X7. In a scope of a 64-bit byte size the evaluation of a variable is
    undefined in one case only: the variable passes the filters, has no
    constant value, its location is a location list, and the scope has 0
    bytes. *)
Theorem undefined_only_in_empty_scope Opts DICtx Die Parent Lo Bytes S :
  0 <= Bytes < 2 ^ 64 ->
  collectLocStatsForDie Opts DICtx Die Parent Lo Bytes S = Undefined
  <-> ¬ filtered Opts Die Parent
      ∧ find Die DW_AT_const_value = None
      ∧ (exists V Offset, find Die DW_AT_location = Some V
                          ∧ getAsSectionOffset V = Some Offset)
      ∧ Bytes = 0.
Proof. apply collectLocStatsForDie_Undefined. Qed.

Lemma undefined_only_in_empty_scope_witness :
  0 <= 0 < 2 ^ 64
  ∧ (collectLocStatsForDie Sample.plain (Sample.context []) Sample.listed
       DW_TAG_subprogram 0 0 Sample.empty = Undefined
     <-> ¬ filtered Sample.plain Sample.listed DW_TAG_subprogram
         ∧ find Sample.listed DW_AT_const_value = None
         ∧ (exists V Offset, find Sample.listed DW_AT_location = Some V
                             ∧ getAsSectionOffset V = Some Offset)
         ∧ 0 = 0).
Proof.
  assert (H : 0 <= 0 < 2 ^ 64) by lia.
  split; [exact H|].
  exact (undefined_only_in_empty_scope Sample.plain (Sample.context [])
           Sample.listed DW_TAG_subprogram 0 0 Sample.empty H).
Defined.

(** X8. In a scope that is not empty, a variable whose location list is
    missing at its offset, or holds only entry-value entries while these
    are ignored, is counted with coverage 0. *)
Theorem uncovered_list Opts DICtx Die Parent Lo Bytes S V Offset :
  ¬ filtered Opts Die Parent ->
  find Die DW_AT_const_value = None ->
  find Die DW_AT_location = Some V ->
  getAsSectionOffset V = Some Offset ->
  0 < Bytes < 2 ^ 64 ->
  getLocationListAtOffset DICtx Offset = None
  ∨ (IgnoreEntryValues Opts = true
     ∧ exists Entries,
         getLocationListAtOffset DICtx Offset = Some Entries
         ∧ Forall (fun Entry => IsEntryValue (Loc Entry) = true) Entries) ->
  coveredBytes Opts DICtx Offset Bytes = 0
  ∧ collectLocStatsForDie Opts DICtx Die Parent Lo Bytes S = Ok (record 0 S).
Proof.
  intros Hf Hc Hl Ho HB Hwhy.
  assert (Hcov : coveredBytes Opts DICtx Offset Bytes = 0).
  { rewrite coveredBytes_sum.
    destruct Hwhy as [-> | (Hi & Entries & -> & Hall)]; cbn [default from_option id].
    - change (u64 (total (countedLengths Opts []))) with 0. lia.
    - rewrite (countedLengths_none Opts Entries Hi Hall).
      change (u64 (total [])) with 0. lia. }
  split; [exact Hcov|].
  destruct (collectLocStatsForDie_list Opts DICtx Die Parent Lo Bytes S V Offset
              Hf Hc Hl Ho) as [HC Hrun].
  rewrite Hrun, HC, Hcov, (percentage_zero Bytes HB). reflexivity.
Qed.

Lemma not_filtered_entered :
  ¬ filtered Sample.ignoreEntryValues Sample.entered DW_TAG_subprogram.
Proof. intros H. apply skipped_filtered in H. discriminate H. Defined.

Lemma uncovered_list_witness :
  coveredBytes Sample.ignoreEntryValues Sample.moreContext 24 100 = 0
  ∧ collectLocStatsForDie Sample.ignoreEntryValues Sample.moreContext
      Sample.entered DW_TAG_subprogram 4096 100 Sample.empty
    = Ok (record 0 Sample.empty).
Proof.
  apply (uncovered_list Sample.ignoreEntryValues Sample.moreContext
           Sample.entered DW_TAG_subprogram 4096 100 Sample.empty
           (FormSecOffset 24) 24 not_filtered_entered eq_refl eq_refl eq_refl).
  - lia.
  - right. split; [reflexivity|]. exists [Sample.entryValue].
    split; [reflexivity|]. repeat constructor.
Defined.

(** ** Scopes and the low pc *)

Lemma collectLocStatsForDie_ScopeLowPC Opts DICtx Die Parent Lo Lo' Bytes S :
  collectLocStatsForDie Opts DICtx Die Parent Lo Bytes S
  = collectLocStatsForDie Opts DICtx Die Parent Lo' Bytes S.
Proof. reflexivity. Qed.

Lemma traverseChildren_ScopeLowPC Opts DICtx Children :
  Forall (fun Die => forall Parent Lo Lo' Bytes S,
            collectStatsRecursive Opts DICtx Die Parent Lo Bytes S
            = collectStatsRecursive Opts DICtx Die Parent Lo' Bytes S) Children ->
  forall Parent Lo Lo' Bytes S,
    traverseChildren Opts DICtx Parent Lo Bytes Children S
    = traverseChildren Opts DICtx Parent Lo' Bytes Children S.
Proof.
  induction 1 as [|c cs Hc _ IH]; intros Parent Lo Lo' Bytes S;
    cbn [traverseChildren]; [reflexivity|].
  rewrite (Hc Parent Lo Lo' Bytes S).
  destruct (collectStatsRecursive Opts DICtx c Parent Lo' Bytes S); simpl;
    [apply IH | reflexivity].
Qed.

(** X9. The low pc of the scope is computed and passed down, and never
    read: the statistics of a subtree are the same for every
    [ScopeLowPC]. *)
Theorem ScopeLowPC_unused Opts DICtx Die Parent Lo Lo' Bytes S :
  collectStatsRecursive Opts DICtx Die Parent Lo Bytes S
  = collectStatsRecursive Opts DICtx Die Parent Lo' Bytes S.
Proof.
  revert Parent Lo Lo' Bytes S.
  induction Die as [tag attrs ranges children IH] using DWARFDie_children_ind.
  pose proof (traverseChildren_ScopeLowPC Opts DICtx children IH) as Hloop.
  intros Parent Lo Lo' Bytes S.
  rewrite !collectStatsRecursive_unfold. cbn zeta. cbn [getTag getChildren].
  destruct (IsScope tag).
  - reflexivity.
  - case_match; [|apply Hloop].
    rewrite (collectLocStatsForDie_ScopeLowPC Opts DICtx _ Parent Lo Lo').
    destruct (collectLocStatsForDie _ _ _ _ _ _ _); simpl;
      [apply Hloop | reflexivity].
Qed.

(** X10. With [-ignore-inlined] an inlined instance is abandoned with its
    whole subtree, like a declaration: the statistics come back as they
    went in and the loop over the siblings goes on as if the node were not
    there. *)
Theorem ignored_inlined_instance Opts DICtx Die Parent Lo Bytes Before After S :
  IgnoreInlined Opts = true ->
  getTag Die = DW_TAG_inlined_subroutine ->
  collectStatsRecursive Opts DICtx Die Parent Lo Bytes S = Ok S
  ∧ traverseChildren Opts DICtx Parent Lo Bytes (Before ++ Die :: After) S
    = traverseChildren Opts DICtx Parent Lo Bytes (Before ++ After) S.
Proof.
  intros Hi Ht.
  assert (Hself : forall S0,
    collectStatsRecursive Opts DICtx Die Parent Lo Bytes S0 = Ok S0).
  { intros S0. rewrite collectStatsRecursive_unfold. cbn zeta.
    rewrite Ht, Hi. change (IsScope DW_TAG_inlined_subroutine) with true.
    cbv iota.
    change (true && bool_decide (DW_TAG_inlined_subroutine
                                 = DW_TAG_inlined_subroutine)) with true.
    destruct (has Die DW_AT_declaration), (has Die DW_AT_inline);
      reflexivity. }
  split; [apply Hself|].
  rewrite !traverseChildren_app.
  destruct (traverseChildren Opts DICtx Parent Lo Bytes Before S) as [S1|];
    simpl; [|reflexivity].
  rewrite Hself. reflexivity.
Qed.

Lemma ignored_inlined_instance_witness :
  collectStatsRecursive Sample.ignoreInlined (Sample.context [])
    (Sample.inlined [Sample.listed]) DW_TAG_subprogram 4096 100 Sample.empty
  = Ok Sample.empty
  ∧ collectStatsRecursive Sample.plain (Sample.context [])
      (Sample.inlined [Sample.listed]) DW_TAG_subprogram 4096 100 Sample.empty
    = Ok (record 100 Sample.empty).
Proof.
  split.
  - exact (proj1 (ignored_inlined_instance Sample.ignoreInlined
                    (Sample.context []) (Sample.inlined [Sample.listed])
                    DW_TAG_subprogram 4096 100 [] [] Sample.empty
                    eq_refl eq_refl)).
  - vm_compute. reflexivity.
Defined.

(** ** Exact results of binary64 operations *)

Lemma shr_1_even m :
  0 <= m ->
  shr_1 {| shr_m := 2 * m; shr_r := false; shr_s := false |}
  = {| shr_m := m; shr_r := false; shr_s := false |}.
Proof. intros Hm. destruct m as [|p|p]; [reflexivity | reflexivity | lia]. Qed.

(** Shifting out zeros leaves no trace in the sticky bits. *)
Lemma iter_shr_1_even n m :
  0 <= m ->
  SpecFloat.iter_pos shr_1 n
    {| shr_m := m * 2 ^ Z.pos n; shr_r := false; shr_s := false |}
  = {| shr_m := m; shr_r := false; shr_s := false |}.
Proof.
  revert m. induction n as [n IH | n IH |]; intros m Hm;
    cbn [SpecFloat.iter_pos].
  - assert (Hp : 0 <= 2 ^ Z.pos n) by (apply Z.pow_nonneg; lia).
    replace (m * 2 ^ Z.pos n~1) with (2 * (m * 2 ^ Z.pos n * 2 ^ Z.pos n))
      by (rewrite pow2_xI; ring).
    rewrite shr_1_even by nia. rewrite IH by nia. apply IH. exact Hm.
  - assert (Hp : 0 <= 2 ^ Z.pos n) by (apply Z.pow_nonneg; lia).
    replace (m * 2 ^ Z.pos n~0) with (m * 2 ^ Z.pos n * 2 ^ Z.pos n)
      by (rewrite pow2_xO; ring).
    rewrite IH by nia. apply IH. exact Hm.
  - replace (m * 2 ^ 1) with (2 * m) by lia. apply shr_1_even. exact Hm.
Qed.

(** A mantissa that is a 53-digit number followed by zeros is rounded to
    that number. *)
Lemma binary_round_aux_shift s m M n e :
  Z.pos (digits2_pos M) = 53 -> 0 <= n ->
  Z.pos m = Z.pos M * 2 ^ n ->
  -1074 <= e + n <= 971 ->
  binary_round_aux prec emax s (Z.pos m) e loc_Exact = S754_finite s M (e + n).
Proof.
  intros HM Hn Hm He.
  pose proof (digits2_pos_bounds M) as [Hlo Hhi]. rewrite HM in Hlo, Hhi.
  assert (Hpn : 0 < 2 ^ n) by (apply Z.pow_pos_nonneg; lia).
  assert (Hdm : Z.pos (digits2_pos m) = 53 + n).
  { apply digits2_pos_unique; [|lia]. rewrite Hm.
    replace (53 + n - 1) with (52 + n) by lia.
    rewrite !Z.pow_add_r by lia. change (53 - 1) with 52 in Hlo. nia. }
  assert (H1 : shr_fexp prec emax (Z.pos m) e loc_Exact
               = ({| shr_m := Z.pos M; shr_r := false; shr_s := false |},
                  e + n)).
  { unfold shr_fexp. cbn [Zdigits2 shr_record_of_loc]. rewrite Hdm.
    rewrite fexp_normal by lia.
    replace (53 + n + e - 53 - e) with n by lia.
    destruct n as [|n'|n']; [| |lia].
    - cbn [shr]. rewrite Z.pow_0_r, Z.mul_1_r in Hm. rewrite Hm, Z.add_0_r.
      reflexivity.
    - cbn [shr]. rewrite Hm, iter_shr_1_even by lia. reflexivity. }
  unfold binary_round_aux. rewrite H1.
  cbn [shr_m loc_of_shr_record round_nearest_even].
  assert (H2 : shr_fexp prec emax (Z.pos M) (e + n) loc_Exact
               = ({| shr_m := Z.pos M; shr_r := false; shr_s := false |},
                  e + n)).
  { unfold shr_fexp. cbn [Zdigits2 shr_record_of_loc]. rewrite HM.
    rewrite fexp_normal by lia.
    replace (53 + (e + n) - 53 - (e + n)) with 0 by lia. reflexivity. }
  rewrite H2. cbn [shr_m].
  destruct (Z.leb_spec (e + n) (emax - prec)); [reflexivity|].
  unfold emax, prec in *. lia.
Qed.

(** An integer below [2 ^ 53] is converted exactly. *)
Lemma of_Z_exact z :
  0 < z < 2 ^ 53 ->
  exists m e,
    of_Z z = S754_finite false m e
    ∧ 2 ^ 52 <= Z.pos m < 2 ^ 53
    ∧ -52 <= e <= 0 ∧ Z.pos m = z * 2 ^ (- e).
Proof.
  intros Hz. destruct z as [|p|p]; try lia.
  unfold of_Z. cbn [binary_normalize].
  apply binary_round_small. apply digits2_pos_le; lia.
Qed.

(** The product of two integers held exactly is exact when it is below
    [2 ^ 53]. *)
Lemma mul_exact mx ex vx my ey vy :
  2 ^ 52 <= Z.pos mx < 2 ^ 53 -> -52 <= ex <= 0 -> Z.pos mx = vx * 2 ^ (- ex) ->
  2 ^ 52 <= Z.pos my < 2 ^ 53 -> -52 <= ey <= 0 -> Z.pos my = vy * 2 ^ (- ey) ->
  0 < vx * vy < 2 ^ 53 ->
  exists m e,
    mul (S754_finite false mx ex) (S754_finite false my ey)
    = S754_finite false m e
    ∧ 2 ^ 52 <= Z.pos m < 2 ^ 53
    ∧ -52 <= e <= 0 ∧ Z.pos m = vx * vy * 2 ^ (- e).
Proof.
  intros Hmx Hex Evx Hmy Hey Evy Hv.
  destruct (vx * vy) as [|v|v] eqn:Ev; try lia.
  destruct (binary_round_small false v) as (M & E & _ & HM & HE & EM).
  { apply digits2_pos_le; lia. }
  exists M, E. split; [|split; [exact HM | split; [exact HE | exact EM]]].
  unfold mul. cbn [SFmul xorb].
  assert (Hpx : 0 < 2 ^ (- ex)) by (apply Z.pow_pos_nonneg; lia).
  assert (Hpy : 0 < 2 ^ (- ey)) by (apply Z.pow_pos_nonneg; lia).
  assert (HpE : 0 < 2 ^ (- E)) by (apply Z.pow_pos_nonneg; lia).
  assert (Hprod : Z.pos (mx * my) * 2 ^ (- E) = Z.pos M * 2 ^ (- ex - ey)).
  { rewrite Pos2Z.inj_mul, Evx, Evy, EM.
    replace (- ex - ey) with (- ex + - ey) by lia.
    rewrite Z.pow_add_r by lia. rewrite <- Ev.
    generalize (2 ^ (- ex)) (2 ^ (- ey)) (2 ^ (- E)). intros. ring. }
  assert (Hn : 0 <= E - ex - ey).
  { destruct (Z.le_gt_cases (- E) (- ex - ey)) as [?|Hgt]; [lia|]. exfalso.
    assert (2 ^ (- ex - ey) <= 2 ^ (- E)) by (apply Z.pow_le_mono_r; lia).
    assert (2 ^ 52 * 2 ^ 52 <= Z.pos (mx * my)) by (rewrite Pos2Z.inj_mul; nia).
    assert (0 < 2 ^ (- ex - ey)) by (apply Z.pow_pos_nonneg; lia).
    nia. }
  rewrite (binary_round_aux_shift false (mx * my) M (E - ex - ey) (ex + ey));
    [f_equal; lia | | exact Hn | | lia].
  - apply digits2_pos_unique; [exact HM | lia].
  - assert (Hsplit : 2 ^ (- ex - ey) = 2 ^ (E - ex - ey) * 2 ^ (- E))
      by (rewrite <- Z.pow_add_r by lia; f_equal; lia).
    rewrite Hsplit in Hprod.
    apply (Z.mul_cancel_r _ _ (2 ^ (- E))); [lia|]. rewrite Hprod. ring.
Qed.

(** A multiple of [G] above [J - G], for a multiple [J] of [G], is at
    least [J]. *)
Lemma grid_lower x j G : 0 < G -> j * G - G < x * G -> j <= x.
Proof. intros HG H. nia. Qed.

(** The quotient of two positive normal numbers: the integer quotient of
    the mantissas, moved by less than a unit of its last place or two. *)
Lemma div_quotient mz ez my ey :
  2 ^ 52 <= Z.pos mz < 2 ^ 53 -> 2 ^ 52 <= Z.pos my < 2 ^ 53 ->
  -200 <= ez <= 200 -> -200 <= ey <= 200 ->
  exists mq eq n,
    div (S754_finite false mz ez) (S754_finite false my ey)
    = S754_finite false mq eq
    ∧ 2 ^ 52 <= Z.pos mq < 2 ^ 53
    ∧ 0 <= n <= 1
    ∧ ez - ey - 53 + n <= eq <= ez - ey - 53 + n + 1
    ∧ 2 ^ 52 * 2 ^ n <= Z.pos mz * 2 ^ 53 / Z.pos my
    ∧ Z.pos mz * 2 ^ 53 / Z.pos my - 2 ^ n
      < Z.pos mq * 2 ^ (eq - (ez - ey - 53))
      <= Z.pos mz * 2 ^ 53 / Z.pos my + 2 ^ n.
Proof.
  intros Hmz Hmy Hez Hey.
  unfold div. cbn [SFdiv xorb]. unfold SFdiv_core_binary. cbn [Zdigits2].
  rewrite (digits2_pos_unique mz 53), (digits2_pos_unique my 53)
    by (simpl; lia).
  rewrite fexp_normal by lia.
  replace (Z.min (53 + ez - (53 + ey) - 53) (ez - ey)) with (ez - ey - 53)
    by lia.
  replace (ez - ey - (ez - ey - 53)) with 53 by lia.
  cbv iota. rewrite Z.shiftl_mul_pow2 by lia.
  pose proof (Z_div_mod (Z.pos mz * 2 ^ 53) (Z.pos my) ltac:(lia)) as Hdm.
  unfold Z.div.
  destruct (Z.div_eucl (Z.pos mz * 2 ^ 53) (Z.pos my)) as [q r].
  cbn [fst]. destruct Hdm as [Hq Hr].
  assert (Hqlo : 2 ^ 52 <= q) by nia.
  assert (Hqhi : q < 2 ^ 54) by nia.
  destruct q as [|pq|pq]; [lia| |lia].
  pose proof (digits2_pos_ge pq 53 ltac:(simpl; lia)) as Hk1.
  pose proof (digits2_pos_le pq 54 ltac:(lia) Hqhi) as Hk2.
  pose proof (digits2_pos_bounds pq) as [Hlo' _].
  destruct (binary_round_aux_shape false pq (ez - ey - 53)
              (new_location (Z.pos my) r))
    as (mq & eq & Hb & Hmq & Heq & Hv); [lia | lia |].
  cbv zeta in Heq, Hv.
  set (k := Z.pos (digits2_pos pq)) in *.
  exists mq, eq, (k - 53). rewrite Hb.
  destruct (Z.leb_spec eq (emax - prec)); [|unfold emax, prec in *; lia].
  split; [reflexivity|]. split; [exact Hmq|]. split; [lia|]. split; [lia|].
  split; [|exact Hv].
  rewrite <- Z.pow_add_r by lia.
  replace (52 + (k - 53)) with (k - 1) by lia. exact Hlo'.
Qed.

Lemma trunc_mag_neg m e : e < 0 -> trunc_mag m e = Z.pos m / 2 ^ (- e).
Proof. intros He. unfold trunc_mag. destruct (Z.leb_spec 0 e); [lia|reflexivity]. Qed.

(** The percentage of [Covered] in [Bytes] is exact for scopes of up to
    [2 ^ 45] bytes: the quotient [100 * Covered / Bytes] rounded down. *)
Lemma percentage_floor Covered Bytes :
  0 <= Covered <= Bytes -> 0 < Bytes <= 2 ^ 45 ->
  to_int (div (mul (of_Z 100) (of_Z Covered)) (of_Z Bytes))
  = Ok (100 * Covered / Bytes).
Proof.
  intros Hc Hb.
  destruct (Z.eq_dec Covered 0) as [-> | Hc0].
  { rewrite percentage_zero by lia. reflexivity. }
  assert (H45 : 2 ^ 45 * 2 ^ 7 = 2 ^ 52) by reflexivity.
  destruct (of_Z_exact Bytes ltac:(lia)) as (my & ey & Ey & Hmy & Hey & Emy).
  destruct (of_Z_exact Covered ltac:(lia)) as (mx & ex & Ex & Hmx & Hex & Emx).
  rewrite Ey, Ex.
  change (of_Z 100) with (S754_finite false (100 * 2 ^ 46) (-46)).
  destruct (mul_exact (100 * 2 ^ 46) (-46) 100 mx ex Covered)
    as (mz & ez & Ez & Hmz & Hez & Emz);
    [simpl; lia | lia | reflexivity | exact Hmx | exact Hex | exact Emx | lia |].
  rewrite Ez.
  destruct (div_quotient mz ez my ey Hmz Hmy ltac:(lia) ltac:(lia))
    as (mq & eq & n & Eq & Hmq & Hn & Heq & Hqlo & Hu).
  rewrite Eq. cbn [to_int cond_Zopp].
  set (X := 100 * Covered) in *.
  set (K := X / Bytes).
  pose proof (Z.div_mod X Bytes ltac:(lia)) as HX. fold K in HX.
  pose proof (Z.mod_pos_bound X Bytes ltac:(lia)) as Hrho.
  set (rho := X mod Bytes) in *.
  assert (HK : 0 <= K <= 100).
  { split; [apply Z.div_pos; lia|].
    apply Z.div_le_upper_bound; unfold X; lia. }
  (* the integer quotient of the mantissas *)
  set (U := 2 ^ (53 + ey - ez)).
  assert (HU : 0 < U) by (apply Z.pow_pos_nonneg; lia).
  assert (Hpy : 0 < 2 ^ (- ey)) by (apply Z.pow_pos_nonneg; lia).
  assert (Enum : Z.pos mz * 2 ^ 53 = X * U * 2 ^ (- ey)).
  { rewrite Emz. unfold U.
    rewrite <- !Z.mul_assoc, <- !Z.pow_add_r by lia.
    do 2 f_equal. lia. }
  assert (Eq' : Z.pos mz * 2 ^ 53 / Z.pos my = X * U / Bytes).
  { rewrite Enum, Emy. apply Z.div_mul_cancel_r; lia. }
  rewrite Eq' in Hqlo, Hu.
  set (q := X * U / Bytes) in *.
  pose proof (Z.div_mod (X * U) Bytes ltac:(lia)) as Hq. fold q in Hq.
  pose proof (Z.mod_pos_bound (X * U) Bytes ltac:(lia)) as Hr.
  assert (HXlo : Bytes * K <= X) by (clear - HX Hrho; lia).
  assert (HXhi : X <= Bytes * (K + 1) - 1) by (clear - HX Hrho; lia).
  assert (HbKU : Bytes * (K * U) <= X * U).
  { rewrite Z.mul_assoc. apply Z.mul_le_mono_nonneg_r; [lia | exact HXlo]. }
  assert (Hq1 : K * U <= q) by (apply Z.div_le_lower_bound; [lia | exact HbKU]).
  assert (Hq2 : Bytes * q <= Bytes * (K + 1) * U - U).
  { assert (X * U <= (Bytes * (K + 1) - 1) * U)
      by (apply Z.mul_le_mono_nonneg_r; [lia | exact HXhi]).
    replace (Bytes * (K + 1) * U - U) with ((Bytes * (K + 1) - 1) * U) by ring.
    clear - H Hq Hr. lia. }
  assert (Hq3 : q <= 100 * U).
  { apply Z.div_le_upper_bound; [lia|].
    replace (Bytes * (100 * U)) with (100 * Bytes * U) by ring.
    apply Z.mul_le_mono_nonneg_r; [lia | unfold X; clear - Hc; lia]. }
  assert (Hpn : 1 <= 2 ^ n <= 2).
  { destruct (Z.eq_dec n 0) as [-> | ?]; [simpl; lia|].
    replace n with 1 by lia. simpl; lia. }
  (* the exponent of the quotient *)
  set (g := eq - (ez - ey - 53)) in *.
  assert (Hg : n <= g <= n + 1) by (unfold g; lia).
  assert (Hpg : 2 ^ n <= 2 ^ g) by (apply Z.pow_le_mono_r; lia).
  assert (Hneg : g < 53 + ey - ez).
  { destruct (Z.lt_ge_cases g (53 + ey - ez)) as [?|Hge]; [assumption|].
    exfalso.
    assert (HUg : U <= 2 ^ g) by (apply Z.pow_le_mono_r; lia).
    assert (H1 : 2 ^ 52 * U <= Z.pos mq * 2 ^ g)
      by (apply Z.mul_le_mono_nonneg; clear - Hmq HU HUg; lia).
    clear - H1 Hu Hq3 Hpn HU. lia. }
  assert (Heq0 : eq < 0) by (unfold g in Hneg; lia).
  rewrite trunc_mag_neg by exact Heq0.
  set (D := 2 ^ (- eq)).
  assert (HD : 0 < D) by (apply Z.pow_pos_nonneg; lia).
  assert (EU : U = D * 2 ^ g).
  { unfold U, D, g. rewrite <- Z.pow_add_r by lia. f_equal. lia. }
  assert (Hpg0 : 0 < 2 ^ g) by (clear - Hpg Hpn; lia).
  assert (Hlow : K * D <= Z.pos mq).
  { apply (grid_lower _ _ (2 ^ g)); [exact Hpg0|].
    replace (K * D * 2 ^ g) with (K * U) by (rewrite EU; ring).
    clear - Hu Hq1 Hpg. lia. }
  assert (HUb : Bytes * 2 ^ n < U).
  { assert (H1 : Bytes * 2 ^ n <= 2 ^ 45 * 2 ^ n)
      by (apply Z.mul_le_mono_nonneg_r; clear - Hb Hpn; lia).
    clear - H1 Hqlo Hq3 H45 Hpn. lia. }
  assert (Hhigh : Z.pos mq < (K + 1) * D).
  { apply (Z.mul_lt_mono_pos_r (2 ^ g)); [exact Hpg0|].
    replace ((K + 1) * D * 2 ^ g) with ((K + 1) * U) by (rewrite EU; ring).
    apply (Z.mul_lt_mono_pos_l Bytes); [lia|].
    assert (H1 : Bytes * (Z.pos mq * 2 ^ g) <= Bytes * (q + 2 ^ n))
      by (apply Z.mul_le_mono_nonneg_l; clear - Hu Hb; lia).
    replace (Bytes * (q + 2 ^ n)) with (Bytes * q + Bytes * 2 ^ n) in H1
      by ring.
    replace (Bytes * ((K + 1) * U)) with (Bytes * (K + 1) * U) by ring.
    clear - H1 Hq2 HUb. lia. }
  assert (Ediv : Z.pos mq / D = K).
  { symmetry. apply Z.div_unique with (r := Z.pos mq - K * D); lia. }
  rewrite Ediv. apply as_int_Ok. unfold INT_MIN, INT_MAX. clear -HK. lia.
Qed.

Lemma pow2_split a b : 0 <= a -> 0 <= b -> 2 ^ (a + b) = 2 ^ a * 2 ^ b.
Proof. intros. apply Z.pow_add_r; assumption. Qed.

(** [trunc_mag m e] between two integers, from the mantissa scaled up by
    any power of two [2 ^ h]. *)
Lemma trunc_mag_between m e h lo hi :
  e < 0 -> 0 <= h ->
  lo * 2 ^ (- e + h) <= Z.pos m * 2 ^ h < (hi + 1) * 2 ^ (- e + h) ->
  lo <= trunc_mag m e <= hi.
Proof.
  intros He Hh. rewrite trunc_mag_neg by exact He.
  rewrite pow2_split by lia.
  assert (HD : 0 < 2 ^ (- e)) by (apply Z.pow_pos_nonneg; lia).
  assert (HH : 0 < 2 ^ h) by (apply Z.pow_pos_nonneg; lia).
  generalize dependent (2 ^ (- e)). generalize dependent (2 ^ h).
  intros H HH D HD [Hlo Hhi].
  assert (lo * D <= Z.pos m) by nia.
  assert (Z.pos m < (hi + 1) * D) by nia.
  split.
  - apply Z.div_le_lower_bound; lia.
  - assert (Z.pos m / D < hi + 1) by (apply Z.div_lt_upper_bound; lia). lia.
Qed.

(** X11. In a scope of 1 to [2 ^ 45] bytes the percentage of a variable
    with a location list is exact: 100 times the covered bytes, divided by
    the byte size of the scope and rounded down; a list that covers the
    scope or more gives 100. *)
Theorem list_percentage_floor Opts DICtx Die Parent Lo Bytes S V Offset :
  ¬ filtered Opts Die Parent ->
  find Die DW_AT_const_value = None ->
  find Die DW_AT_location = Some V ->
  getAsSectionOffset V = Some Offset ->
  0 < Bytes <= 2 ^ 45 ->
  collectLocStatsForDie Opts DICtx Die Parent Lo Bytes S
  = Ok (record (100 * coveredBytes Opts DICtx Offset Bytes / Bytes) S)
  ∧ (Bytes <= summedBytes Opts DICtx Offset ->
     collectLocStatsForDie Opts DICtx Die Parent Lo Bytes S
     = Ok (record 100 S)).
Proof.
  intros Hf Hc Hl Ho HB.
  destruct (collectLocStatsForDie_list Opts DICtx Die Parent Lo Bytes S V Offset
              Hf Hc Hl Ho) as [HC Hrun].
  assert (E : collectLocStatsForDie Opts DICtx Die Parent Lo Bytes S
              = Ok (record (100 * coveredBytes Opts DICtx Offset Bytes / Bytes) S)).
  { rewrite Hrun, HC, percentage_floor; [reflexivity | | exact HB].
    split; [apply coveredBytes_nonneg; lia | apply coveredBytes_le]. }
  split; [exact E|].
  intros Hsum. rewrite E.
  assert (Hcov : coveredBytes Opts DICtx Offset Bytes = Bytes).
  { unfold coveredBytes.
    destruct (Z.gtb_spec (summedBytes Opts DICtx Offset) Bytes); lia. }
  rewrite Hcov, Z.div_mul by lia. reflexivity.
Qed.

Lemma list_percentage_floor_witness :
  coveredBytes Sample.plain (Sample.context []) 8 1000 = 999
  ∧ collectLocStatsForDie Sample.plain (Sample.context []) Sample.almost
      DW_TAG_subprogram 0 1000 Sample.empty = Ok (record 99 Sample.empty).
Proof.
  split; [reflexivity|].
  destruct (list_percentage_floor Sample.plain (Sample.context []) Sample.almost
              DW_TAG_subprogram 0 1000 Sample.empty (FormSecOffset 8) 8
              not_filtered_almost eq_refl eq_refl eq_refl) as [E _].
  - vm_compute. split; [reflexivity | discriminate].
  - rewrite E. reflexivity.
Defined.

(** ** The traversal as a list of evaluations *)

Section Flat.

Variable Opts : Options.
Variable DICtx : DWARFContext.

Lemma evaluate_app Vars1 Vars2 S :
  evaluate Opts DICtx (Vars1 ++ Vars2) S
  = S' ← evaluate Opts DICtx Vars1 S; evaluate Opts DICtx Vars2 S'.
Proof.
  revert S. induction Vars1 as [|[[Die Parent] Bytes] Vars1 IH]; intros S.
  - reflexivity.
  - cbn [app evaluate].
    destruct (collectLocStatsForDie Opts DICtx Die Parent 0 Bytes S); simpl;
      [apply IH | reflexivity].
Qed.

Lemma reached_unfold Die Parent Bytes :
  reached Opts Die Parent Bytes =
  let Tag := getTag Die in
  let below := fun Bytes =>
    flat_map (fun Child => reached Opts Child Tag Bytes) (getChildren Die) in
  if IsScope Tag then
    match RangesOrError Opts Die with
    | Some (Some Ranges) => below (scopeBytes Ranges)
    | _ => []
    end
  else if bool_decide (Tag = DW_TAG_variable)
          || bool_decide (Tag = DW_TAG_formal_parameter) then
    (Die, Parent, Bytes) :: below Bytes
  else below Bytes.
Proof. destruct Die. reflexivity. Qed.

Lemma traverseChildren_reached Children :
  Forall (fun Die => forall Parent Lo Bytes S,
            collectStatsRecursive Opts DICtx Die Parent Lo Bytes S
            = evaluate Opts DICtx (reached Opts Die Parent Bytes) S) Children ->
  forall Parent Lo Bytes S,
    traverseChildren Opts DICtx Parent Lo Bytes Children S
    = evaluate Opts DICtx
        (flat_map (fun Child => reached Opts Child Parent Bytes) Children) S.
Proof.
  induction 1 as [|c cs Hc _ IH]; intros Parent Lo Bytes S;
    cbn [traverseChildren flat_map]; [reflexivity|].
  rewrite evaluate_app, (Hc Parent Lo Bytes S).
  destruct (evaluate Opts DICtx (reached Opts c Parent Bytes) S); simpl;
    [apply IH | reflexivity].
Qed.

Lemma collectStatsRecursive_reached Die :
  forall Parent Lo Bytes S,
    collectStatsRecursive Opts DICtx Die Parent Lo Bytes S
    = evaluate Opts DICtx (reached Opts Die Parent Bytes) S.
Proof.
  induction Die as [tag attrs ranges children IH] using DWARFDie_children_ind.
  pose proof (traverseChildren_reached children IH) as Hloop.
  intros Parent Lo Bytes S.
  rewrite collectStatsRecursive_unfold, reached_unfold. cbn zeta.
  cbn [getTag getChildren]. unfold RangesOrError.
  destruct (IsScope tag).
  - destruct (has _ DW_AT_declaration); [reflexivity|].
    destruct (has _ DW_AT_inline); [reflexivity|].
    cbn [getTag].
    destruct (IgnoreInlined Opts && _); [reflexivity|].
    destruct (getAddressRanges _) as [Ranges|]; [|reflexivity].
    apply Hloop.
  - destruct (_ || _); [|apply Hloop].
    cbn [evaluate].
    change (collectLocStatsForDie Opts DICtx (mkDie tag attrs ranges children)
              Parent 0 Bytes S)
      with (collectLocStatsForDie Opts DICtx (mkDie tag attrs ranges children)
              Parent Lo Bytes S).
    destruct (collectLocStatsForDie _ _ _ _ _ _ _); simpl;
      [apply Hloop | reflexivity].
Qed.

Lemma collectUnits_reached Units S :
  collectUnits Opts DICtx Units S
  = evaluate Opts DICtx (reachedUnits Opts Units) S.
Proof.
  revert S. induction Units as [|[CUDie|] Units IH]; intros S;
    cbn [collectUnits reachedUnits flat_map].
  - reflexivity.
  - rewrite evaluate_app, collectStatsRecursive_reached.
    destruct (evaluate Opts DICtx (reached Opts CUDie DW_TAG_null 0) S); simpl;
      [apply IH | reflexivity].
  - apply IH.
Qed.

Lemma reached_bytes_range Die :
  forall Parent Bytes, 0 <= Bytes < 2 ^ 64 ->
    Forall (fun V => 0 <= V.2 < 2 ^ 64) (reached Opts Die Parent Bytes).
Proof.
  induction Die as [tag attrs ranges children IH] using DWARFDie_children_ind.
  assert (Hloop : forall Parent Bytes, 0 <= Bytes < 2 ^ 64 ->
    Forall (fun V => 0 <= V.2 < 2 ^ 64)
      (flat_map (fun Child => reached Opts Child Parent Bytes) children)).
  { intros Parent Bytes HB. induction IH as [|c cs Hc _ IHcs];
      cbn [flat_map]; [constructor|].
    apply Forall_app. split; [apply Hc; exact HB | exact IHcs]. }
  intros Parent Bytes HB. rewrite reached_unfold. cbn zeta.
  cbn [getTag getChildren].
  destruct (IsScope tag).
  - destruct (RangesOrError _ _) as [[Ranges|]|]; try constructor.
    apply Hloop, scopeBytes_range.
  - destruct (_ || _); [|apply Hloop; exact HB].
    constructor; [exact HB | apply Hloop; exact HB].
Qed.

Lemma reachedUnits_bytes_range Units :
  Forall (fun V => 0 <= V.2 < 2 ^ 64) (reachedUnits Opts Units).
Proof.
  induction Units as [|[CUDie|] Units IH]; cbn [reachedUnits flat_map].
  - constructor.
  - apply Forall_app. split; [apply reached_bytes_range; lia | exact IH].
  - exact IH.
Qed.

(** What the evaluation of one reached variable does to the statistics. *)
Lemma collectLocStatsForDie_step Die Parent Bytes S S' :
  0 <= Bytes < 2 ^ 64 ->
  collectLocStatsForDie Opts DICtx Die Parent 0 Bytes S = Ok S' ->
  (skipped Opts Die Parent = true ∧ S' = S)
  ∨ (skipped Opts Die Parent = false
     ∧ exists p, to_int (Coverage Opts DICtx Die Bytes) = Ok p
                 ∧ 0 <= p <= 100 ∧ S' = record p S).
Proof.
  intros HB. unfold collectLocStatsForDie.
  destruct (skipped Opts Die Parent); [intros [= <-]; left; auto|].
  destruct (Coverage_range Opts DICtx Die Bytes HB) as [(p & Hp & Hr) | [_ E]].
  - rewrite Hp, bind_Ok. intros [= <-]. right. eauto 6.
  - rewrite E. discriminate 1.
Qed.

(** An invariant of [record] on percentages holds after the evaluation of
    any list of variables. *)
Lemma evaluate_invariant (P : Stats -> Prop) Vars :
  (forall p S, 0 <= p <= 100 -> P S -> P (record p S)) ->
  Forall (fun V => 0 <= V.2 < 2 ^ 64) Vars ->
  forall S S', P S -> evaluate Opts DICtx Vars S = Ok S' -> P S'.
Proof.
  intros Hrec. induction 1 as [|[[Die Parent] Bytes] Vars HB _ IH];
    intros S S' HS; cbn [evaluate].
  - intros [= <-]. exact HS.
  - destruct (collectLocStatsForDie Opts DICtx Die Parent 0 Bytes S) as [S1|]
      eqn:H1; [|discriminate 1].
    rewrite bind_Ok. apply IH.
    destruct (collectLocStatsForDie_step _ _ _ _ _ HB H1)
      as [[_ ->] | (_ & p & _ & Hp & ->)]; [exact HS | apply Hrec; assumption].
Qed.

Lemma processed_cons V Vars :
  processed Opts (V :: Vars)
  = if skipped Opts V.1.1 V.1.2 then processed Opts Vars
    else V :: processed Opts Vars.
Proof.
  unfold processed. cbn [List.filter].
  destruct (skipped Opts V.1.1 V.1.2); reflexivity.
Qed.

Lemma evaluate_count Vars :
  Forall (fun V => 0 <= V.2 < 2 ^ 64) Vars ->
  forall S S', evaluate Opts DICtx Vars S = Ok S' ->
    u32 (CumulNumOfVars S')
    = u32 (CumulNumOfVars S + Z.of_nat (length (processed Opts Vars))).
Proof.
  induction 1 as [|[[Die Parent] Bytes] Vars HB _ IH]; intros S S';
    cbn [evaluate].
  - intros [= <-]. cbn [processed List.filter length]. f_equal. lia.
  - destruct (collectLocStatsForDie Opts DICtx Die Parent 0 Bytes S) as [S1|]
      eqn:H1; [|discriminate 1].
    rewrite bind_Ok. intros H2. rewrite (IH _ _ H2), processed_cons.
    cbn [fst snd].
    destruct (collectLocStatsForDie_step _ _ _ _ _ HB H1)
      as [[-> ->] | (-> & p & _ & _ & ->)]; [reflexivity|].
    cbn [record CumulNumOfVars length]. unfold u32.
    rewrite Zplus_mod_idemp_l. f_equal. lia.
Qed.

Lemma tally_cons Key V Vars :
  tally Opts DICtx Key (V :: Vars)
  = (if bool_decide (categoryOf Opts DICtx V = Some Key) then 1 else 0)
    + tally Opts DICtx Key Vars.
Proof.
  unfold tally. cbn [List.filter].
  destruct (bool_decide (categoryOf Opts DICtx V = Some Key));
    cbn [length]; lia.
Qed.

Lemma evaluate_tally Key Vars :
  Forall (fun V => 0 <= V.2 < 2 ^ 64) Vars ->
  forall S S', evaluate Opts DICtx Vars S = Ok S' ->
    u64 (default 0 (LocStatistics S' !! Key))
    = u64 (default 0 (LocStatistics S !! Key)
           + tally Opts DICtx Key (processed Opts Vars)).
Proof.
  induction 1 as [|[[Die Parent] Bytes] Vars HB _ IH]; intros S S';
    cbn [evaluate].
  - intros [= <-]. f_equal. unfold tally. cbn [processed List.filter length].
    lia.
  - destruct (collectLocStatsForDie Opts DICtx Die Parent 0 Bytes S) as [S1|]
      eqn:H1; [|discriminate 1].
    rewrite bind_Ok. intros H2. rewrite (IH _ _ H2), processed_cons.
    cbn [fst snd] in HB |- *.
    destruct (collectLocStatsForDie_step _ _ _ _ _ HB H1)
      as [[-> ->] | (-> & p & Hp & _ & ->)]; [reflexivity|].
    rewrite tally_cons. unfold categoryOf. cbn [fst snd]. rewrite Hp.
    cbn [record LocStatistics]. unfold increment.
    destruct (decide (PercentageKey p = Key)) as [<- | Hne].
    + rewrite lookup_insert_eq, bool_decide_eq_true_2 by reflexivity.
      cbn [default from_option id]. rewrite u64_add_l. f_equal. lia.
    + rewrite lookup_insert_ne by exact Hne.
      rewrite bool_decide_eq_false_2 by congruence. reflexivity.
Qed.

End Flat.

(** ** A run over the units of a context *)

Lemma counts64_record p S :
  counts64 (LocStatistics S) -> counts64 (LocStatistics (record p S)).
Proof.
  intros H Key Count. cbn [record LocStatistics]. unfold increment.
  destruct (decide (PercentageKey p = Key)) as [<- | Hne].
  - rewrite lookup_insert_eq. intros [= <-]. apply u64_range.
  - rewrite lookup_insert_ne by exact Hne. apply H.
Qed.

Lemma counts64_initialStats : counts64 (LocStatistics initialStats).
Proof.
  intros Key Count. unfold initialStats, largest_cov_category.
  cbn [LocStatistics]. change (seqZ 0 12) with [0;1;2;3;4;5;6;7;8;9;10;11].
  cbn [foldl].
  repeat (rewrite lookup_insert; case_decide; [intros [= <-]; lia|]).
  rewrite lookup_empty. discriminate 1.
Qed.

Lemma initialStats_lookup Key :
  0 <= Key < largest_cov_category ->
  LocStatistics initialStats !! Key = Some 0.
Proof.
  unfold initialStats, largest_cov_category. cbn [LocStatistics].
  change (seqZ 0 12) with [0;1;2;3;4;5;6;7;8;9;10;11]. cbn [foldl].
  intros HK.
  repeat (rewrite lookup_insert; case_decide; [reflexivity|]). lia.
Qed.

Lemma categoriesTotal_nonneg M : counts64 M -> 0 <= categoriesTotal M.
Proof.
  intros H. unfold categoriesTotal.
  induction (seqZ 0 largest_cov_category) as [|i Is IH]; cbn [foldr]; [lia|].
  destruct (M !! i) as [v|] eqn:Hv; cbn [default from_option id];
    [specialize (H i v Hv)|]; lia.
Qed.

Lemma finalStats_reached Opts DICtx :
  finalStats Opts DICtx
  = evaluate Opts DICtx (reachedUnits Opts (compile_units DICtx)) initialStats.
Proof. apply collectUnits_reached. Qed.

Lemma finalStats_counts64 Opts DICtx S :
  finalStats Opts DICtx = Ok S -> counts64 (LocStatistics S).
Proof.
  rewrite finalStats_reached.
  apply (evaluate_invariant Opts DICtx (fun S => counts64 (LocStatistics S))).
  - intros p S0 _. apply counts64_record.
  - apply reachedUnits_bytes_range.
  - apply counts64_initialStats.
Qed.

(** X12. A run is the evaluation, one after the other and from the
    zeroed statistics, of the variables and formal parameters that lie
    outside abandoned scopes, in the order of the traversal, each against
    the byte size of the innermost kept scope around it (0 outside every
    scope). *)
Theorem run_is_evaluation Opts DICtx :
  finalStats Opts DICtx
  = evaluate Opts DICtx (reachedUnits Opts (compile_units DICtx)) initialStats.
Proof. apply finalStats_reached. Qed.

Lemma finalStats_count Opts DICtx S :
  finalStats Opts DICtx = Ok S ->
  CumulNumOfVars S
  = u32 (Z.of_nat (length (processed Opts
                             (reachedUnits Opts (compile_units DICtx))))).
Proof.
  intros H. pose proof (completed_run_balanced Opts DICtx S H) as [_ Hsum].
  rewrite finalStats_reached in H.
  pose proof (evaluate_count Opts DICtx _ (reachedUnits_bytes_range Opts _)
                _ _ H) as Hc.
  cbn [initialStats CumulNumOfVars] in Hc. rewrite Z.add_0_l in Hc.
  rewrite <- Hc, <- Hsum. unfold u32. rewrite Zmod_mod. reflexivity.
Qed.

(** X13. After a run that completes, the count of processed variables is
    the number of reached variables and formal parameters that pass the
    filters, in the 32 bits of the counter. *)
Theorem processed_variables_counted Opts DICtx S :
  finalStats Opts DICtx = Ok S ->
  CumulNumOfVars S
  = u32 (Z.of_nat (length (processed Opts
                             (reachedUnits Opts (compile_units DICtx))))).
Proof. apply finalStats_count. Qed.

Lemma eighty_percent_run :
  finalStats Sample.plain (Sample.context [Sample.function [Sample.listed]])
  = Ok (record 80 initialStats).
Proof. vm_compute. reflexivity. Defined.

Lemma processed_variables_counted_witness :
  CumulNumOfVars (record 80 initialStats)
  = u32 (Z.of_nat (length (processed Sample.plain
      (reachedUnits Sample.plain
         (compile_units (Sample.context [Sample.function [Sample.listed]]))))))
  ∧ processed Sample.plain
      (reachedUnits Sample.plain
         (compile_units (Sample.context [Sample.function [Sample.listed]])))
    = [(Sample.listed, DW_TAG_subprogram, 100)].
Proof.
  split; [|reflexivity].
  exact (processed_variables_counted Sample.plain
           (Sample.context [Sample.function [Sample.listed]])
           (record 80 initialStats) eighty_percent_run).
Defined.

Lemma finalStats_lookup Opts DICtx S Key :
  finalStats Opts DICtx = Ok S ->
  LocStatistics S !! Key
  = if bool_decide (0 <= Key < largest_cov_category)
    then Some (u64 (tally Opts DICtx Key
                      (processed Opts
                         (reachedUnits Opts (compile_units DICtx)))))
    else None.
Proof.
  intros H. pose proof (completed_run_balanced Opts DICtx S H) as [Hcat _].
  pose proof (finalStats_counts64 Opts DICtx S H) as H64.
  rewrite finalStats_reached in H.
  pose proof (evaluate_tally Opts DICtx Key _
                (reachedUnits_bytes_range Opts _) _ _ H) as Ht.
  case_bool_decide as HK.
  - destruct (proj2 (Hcat Key) HK) as [v Hv]. rewrite Hv in Ht |- *.
    cbn [default from_option id] in Ht.
    rewrite (u64_small v) in Ht by exact (H64 Key v Hv).
    rewrite (initialStats_lookup Key HK) in Ht.
    cbn [default from_option id] in Ht. rewrite Ht. reflexivity.
  - destruct (LocStatistics S !! Key) as [v|] eqn:Hv; [|reflexivity].
    exfalso. apply HK. apply Hcat. eauto.
Qed.

(** X14. After a run that completes, each of the 12 categories holds the
    number of processed variables whose percentage falls into it, in 64
    bits, and the histogram has no other key. *)
Theorem histogram_tallies Opts DICtx S Key :
  finalStats Opts DICtx = Ok S ->
  LocStatistics S !! Key
  = if bool_decide (0 <= Key < largest_cov_category)
    then Some (u64 (tally Opts DICtx Key
                      (processed Opts
                         (reachedUnits Opts (compile_units DICtx)))))
    else None.
Proof. apply finalStats_lookup. Qed.

Lemma histogram_tallies_witness :
  LocStatistics (record 80 initialStats) !! 9 = Some 1
  ∧ LocStatistics (record 80 initialStats) !! 12 = None.
Proof.
  split.
  - exact (histogram_tallies Sample.plain
             (Sample.context [Sample.function [Sample.listed]])
             (record 80 initialStats) 9 eighty_percent_run).
  - exact (histogram_tallies Sample.plain
             (Sample.context [Sample.function [Sample.listed]])
             (record 80 initialStats) 12 eighty_percent_run).
Defined.

Lemma evaluate_skipped Opts DICtx Vars S :
  processed Opts Vars = [] -> evaluate Opts DICtx Vars S = Ok S.
Proof.
  induction Vars as [|[[Die Parent] Bytes] Vars IH]; [reflexivity|].
  rewrite processed_cons. cbn [fst snd evaluate].
  unfold collectLocStatsForDie.
  destruct (skipped Opts Die Parent); [|discriminate 1].
  intros H. rewrite bind_Ok. apply IH. exact H.
Qed.

(** X15. When no reached variable or formal parameter passes the filters
    (no unit with a unit DIE, no variable outside abandoned scopes, or the
    active mode leaves none), the run completes with the zeroed statistics
    and the report is the line [No coverage recorded.] *)
Theorem nothing_processed_no_coverage Opts DICtx :
  processed Opts (reachedUnits Opts (compile_units DICtx)) = [] ->
  finalStats Opts DICtx = Ok initialStats
  ∧ collectLocstats Opts DICtx = Ok ("No coverage recorded." +:+ nl).
Proof.
  intros H.
  assert (E : finalStats Opts DICtx = Ok initialStats)
    by (rewrite finalStats_reached; apply evaluate_skipped; exact H).
  split; [exact E|]. unfold collectLocstats. rewrite E. reflexivity.
Qed.

Lemma nothing_processed_no_coverage_witness :
  processed Sample.onlyVariables
    (reachedUnits Sample.onlyVariables
       (compile_units (Sample.context [Sample.function [Sample.parameter]])))
  = []
  ∧ collectLocstats Sample.onlyVariables
      (Sample.context [Sample.function [Sample.parameter]])
    = Ok ("No coverage recorded." +:+ nl).
Proof.
  split; [reflexivity|].
  exact (proj2 (nothing_processed_no_coverage Sample.onlyVariables
                  (Sample.context [Sample.function [Sample.parameter]])
                  eq_refl)).
Defined.

(** X16. After a run that completes the histogram has exactly the 12
    categories, each count a 64-bit value; the count of processed
    variables is the sum of the categories in the 32 bits of the counter,
    and the sum itself when that is below [2 ^ 32]. *)
Theorem run_keeps_categories Opts DICtx S :
  finalStats Opts DICtx = Ok S ->
  categories (LocStatistics S)
  ∧ counts64 (LocStatistics S)
  ∧ CumulNumOfVars S = u32 (categoriesTotal (LocStatistics S))
  ∧ (categoriesTotal (LocStatistics S) < 2 ^ 32 ->
     CumulNumOfVars S = categoriesTotal (LocStatistics S)).
Proof.
  intros H. pose proof (completed_run_balanced Opts DICtx S H) as [Hcat Hsum].
  pose proof (finalStats_counts64 Opts DICtx S H) as H64.
  split; [exact Hcat|]. split; [exact H64|]. split; [symmetry; exact Hsum|].
  intros Hlt. rewrite <- Hsum. unfold u32. apply Z.mod_small.
  split; [apply categoriesTotal_nonneg; exact H64 | exact Hlt].
Qed.

Lemma run_keeps_categories_witness :
  categories (LocStatistics (record 80 initialStats))
  ∧ CumulNumOfVars (record 80 initialStats)
    = categoriesTotal (LocStatistics (record 80 initialStats)).
Proof.
  destruct (run_keeps_categories Sample.plain
              (Sample.context [Sample.function [Sample.listed]])
              (record 80 initialStats) eighty_percent_run)
    as (Hcat & _ & _ & Hsum).
  split; [exact Hcat|]. apply Hsum. vm_compute. reflexivity.
Defined.

Lemma collectUnits_bind Opts DICtx Units1 Units2 S :
  collectUnits Opts DICtx (Units1 ++ Units2) S
  = S' ← collectUnits Opts DICtx Units1 S; collectUnits Opts DICtx Units2 S'.
Proof.
  revert S. induction Units1 as [|[CUDie|] Units1 IH]; intros S;
    cbn [app collectUnits].
  - reflexivity.
  - destruct (collectStatsRecursive Opts DICtx CUDie DW_TAG_null 0 0 S); simpl;
      [apply IH | reflexivity].
  - apply IH.
Qed.

(** X17. The units of a context are handled one after the other on the
    same statistics: a run over two lists of units is the run over the
    second from the statistics left by the first, and it is undefined as
    soon as the first is, whatever follows. A unit without a unit DIE is
    passed over: the run is the one over the units that have a unit DIE, in
    the same order. *)
Theorem collectUnits_app Opts DICtx Units1 Units2 S :
  collectUnits Opts DICtx (Units1 ++ Units2) S
  = (S' ← collectUnits Opts DICtx Units1 S; collectUnits Opts DICtx Units2 S')
  ∧ (collectUnits Opts DICtx Units1 S = Undefined ->
     collectUnits Opts DICtx (Units1 ++ Units2) S = Undefined)
  ∧ collectUnits Opts DICtx (Units1 ++ None :: Units2) S
    = collectUnits Opts DICtx (Units1 ++ Units2) S
  ∧ collectUnits Opts DICtx Units1 S
    = collectUnits Opts DICtx (Some <$> omap id Units1) S.
Proof.
  split; [apply collectUnits_bind|].
  split; [intros H; rewrite collectUnits_bind, H; reflexivity|].
  split; [rewrite !collectUnits_bind; reflexivity|].
  revert S. induction Units1 as [|[CUDie|] Units1 IH]; intros S;
    cbn [omap fmap list_fmap list_omap collectUnits id].
  - reflexivity.
  - destruct (collectStatsRecursive Opts DICtx CUDie DW_TAG_null 0 0 S); simpl;
      [apply IH | reflexivity].
  - apply IH.
Qed.

(** ** The running total *)

Lemma exact_exponent_le mc ec c mN eN N :
  2 ^ 52 <= Z.pos mc < 2 ^ 53 -> 2 ^ 52 <= Z.pos mN < 2 ^ 53 ->
  ec <= 0 -> eN <= 0 ->
  Z.pos mc = c * 2 ^ (- ec) -> Z.pos mN = N * 2 ^ (- eN) ->
  0 < c <= N -> ec <= eN.
Proof.
  intros Hmc HmN Hec HeN Ec EN Hc.
  destruct (Z.le_gt_cases ec eN) as [?|Hgt]; [assumption|]. exfalso.
  assert (Hp : 2 ^ (- eN) = 2 ^ (- ec) * 2 ^ (ec - eN))
    by (rewrite <- Z.pow_add_r by lia; f_equal; lia).
  assert (2 ^ 1 <= 2 ^ (ec - eN)) by (apply Z.pow_le_mono_r; lia).
  assert (0 < 2 ^ (- ec)) by (apply Z.pow_pos_nonneg; lia).
  rewrite Hp in EN. nia.
Qed.

Lemma shl_align_fst mx ex ez :
  ez <= ex -> Z.pos (fst (shl_align mx ex ez)) = Z.pos mx * 2 ^ (ex - ez).
Proof.
  intros H. unfold shl_align.
  destruct (ez - ex) as [|d|d] eqn:Hd; cbn [fst].
  - replace (ex - ez) with 0 by lia. lia.
  - lia.
  - rewrite iter_xO. do 2 f_equal. lia.
Qed.

(** The same integer is held by one mantissa and exponent only. *)
Lemma exact_unique m1 e1 m2 e2 v :
  2 ^ 52 <= Z.pos m1 < 2 ^ 53 -> 2 ^ 52 <= Z.pos m2 < 2 ^ 53 ->
  e1 <= 0 -> e2 <= 0 ->
  Z.pos m1 = v * 2 ^ (- e1) -> Z.pos m2 = v * 2 ^ (- e2) ->
  m1 = m2 ∧ e1 = e2.
Proof.
  intros H1 H2 He1 He2 E1 E2.
  assert (Hv : 0 < v).
  { destruct (Z.lt_ge_cases 0 v) as [?|Hle]; [assumption|]. exfalso.
    assert (0 < 2 ^ (- e1)) by (apply Z.pow_pos_nonneg; lia). nia. }
  assert (He : e1 = e2).
  { pose proof (exact_exponent_le m1 e1 v m2 e2 v H1 H2 He1 He2 E1 E2
                  ltac:(lia)).
    pose proof (exact_exponent_le m2 e2 v m1 e1 v H2 H1 He2 He1 E2 E1
                  ltac:(lia)).
    lia. }
  split; [|exact He]. subst e2. apply Pos2Z.inj. congruence.
Qed.

(** The sum of two integers held exactly is exact below [2 ^ 53]. *)
Lemma add_exact a b :
  0 <= a -> 0 <= b -> a + b < 2 ^ 53 ->
  add (of_Z a) (of_Z b) = of_Z (a + b).
Proof.
  intros Ha Hb Hlt.
  destruct (Z.eq_dec a 0) as [-> | Ha0].
  { rewrite Z.add_0_l. destruct (Z.eq_dec b 0) as [-> | Hb0]; [reflexivity|].
    destruct (of_Z_exact b ltac:(lia)) as (m & e & -> & _). reflexivity. }
  destruct (Z.eq_dec b 0) as [-> | Hb0].
  { rewrite Z.add_0_r.
    destruct (of_Z_exact a ltac:(lia)) as (m & e & -> & _). reflexivity. }
  destruct (of_Z_exact a ltac:(lia)) as (ma & ea & Ea & Hma & Hea & Ema).
  destruct (of_Z_exact b ltac:(lia)) as (mb & eb & Eb & Hmb & Heb & Emb).
  destruct (of_Z_exact (a + b) ltac:(lia)) as (M & E & EM & HM & HE & EMv).
  rewrite Ea, Eb, EM. unfold add. cbn [SFadd cond_Zopp].
  set (ez := Z.min ea eb).
  rewrite !shl_align_fst by lia.
  assert (Hpz : 0 < 2 ^ (- ez)) by (apply Z.pow_pos_nonneg; lia).
  assert (Esum : Z.pos ma * 2 ^ (ea - ez) + Z.pos mb * 2 ^ (eb - ez)
                 = (a + b) * 2 ^ (- ez)).
  { rewrite Ema, Emb, <- !Z.mul_assoc, <- !Z.pow_add_r by lia.
    replace (- ea + (ea - ez)) with (- ez) by lia.
    replace (- eb + (eb - ez)) with (- ez) by lia. ring. }
  rewrite Esum.
  destruct ((a + b) * 2 ^ (- ez)) as [|sp|sp] eqn:Hsp; [nia | | nia].
  cbn [binary_normalize]. unfold binary_round.
  assert (Hsplo : 2 ^ 52 <= Z.pos sp).
  { rewrite <- Esum.
    assert (H1 : 1 <= 2 ^ (ea - ez))
      by (pose proof (Z.pow_pos_nonneg 2 (ea - ez)); lia).
    assert (H2 : 0 <= 2 ^ (eb - ez)) by (apply Z.pow_nonneg; lia).
    assert (H3 : 2 ^ 52 * 1 <= Z.pos ma * 2 ^ (ea - ez))
      by (apply Z.mul_le_mono_nonneg; clear - Hma H1; lia).
    assert (H4 : 0 <= Z.pos mb * 2 ^ (eb - ez))
      by (apply Z.mul_nonneg_nonneg; clear - H2; lia).
    clear - H3 H4. lia. }
  assert (Hn : ez <= E).
  { destruct (Z.le_gt_cases ez E) as [?|Hgt]; [assumption|]. exfalso.
    assert (Hp : 2 ^ (- E) = 2 ^ (- ez) * 2 ^ (ez - E))
      by (rewrite <- Z.pow_add_r by lia; f_equal; lia).
    assert (H2 : 2 ^ 1 <= 2 ^ (ez - E)) by (apply Z.pow_le_mono_r; lia).
    assert (EMs : Z.pos M = Z.pos sp * 2 ^ (ez - E))
      by (rewrite EMv, Hp, <- Hsp; ring).
    assert (H3 : 2 ^ 52 * 2 ^ 1 <= Z.pos sp * 2 ^ (ez - E))
      by (apply Z.mul_le_mono_nonneg; clear - Hsplo H2; lia).
    clear - EMs H3 HM. lia. }
  assert (Esp : Z.pos sp = Z.pos M * 2 ^ (E - ez)).
  { assert (Hp : 2 ^ (- ez) = 2 ^ (- E) * 2 ^ (E - ez))
      by (rewrite <- Z.pow_add_r by lia; f_equal; lia).
    rewrite <- Hsp, EMv, Hp. ring. }
  assert (Hdg : Z.pos (digits2_pos sp) = 53 + (E - ez)).
  { apply digits2_pos_unique; [|lia]. rewrite Esp.
    replace (53 + (E - ez) - 1) with (52 + (E - ez)) by lia.
    rewrite !Z.pow_add_r by lia.
    assert (Hp : 0 < 2 ^ (E - ez)) by (apply Z.pow_pos_nonneg; lia).
    split; [apply Z.mul_le_mono_nonneg_r | apply Z.mul_lt_mono_pos_r];
      clear - HM Hp; lia. }
  rewrite Hdg, fexp_normal by lia.
  unfold shl_align.
  destruct (53 + (E - ez) + ez - 53 - ez) as [|d|d] eqn:Hd; [| |lia].
  - rewrite (binary_round_aux_shift false sp M (E - ez) ez);
      [f_equal; lia | | lia | exact Esp | lia].
    apply digits2_pos_unique; [exact HM | lia].
  - rewrite (binary_round_aux_shift false sp M (E - ez) ez);
      [f_equal; lia | | lia | exact Esp | lia].
    apply digits2_pos_unique; [exact HM | lia].
Qed.

Lemma evaluate_total Opts DICtx Vars :
  Forall (fun V => 0 <= V.2 < 2 ^ 64) Vars ->
  forall S S' T,
    evaluate Opts DICtx Vars S = Ok S' ->
    TotalAverage S = of_Z T -> 0 <= T ->
    T + 100 * Z.of_nat (length (processed Opts Vars)) < 2 ^ 53 ->
    TotalAverage S' = of_Z (T + percentSum Opts DICtx (processed Opts Vars))
    ∧ 0 <= percentSum Opts DICtx (processed Opts Vars)
      <= 100 * Z.of_nat (length (processed Opts Vars)).
Proof.
  induction 1 as [|[[Die Parent] Bytes] Vars HB _ IH]; intros S S' T;
    cbn [evaluate].
  - intros [= <-] HT _ _. cbn [processed List.filter percentSum foldr length].
    rewrite Z.add_0_r. split; [exact HT | lia].
  - destruct (collectLocStatsForDie Opts DICtx Die Parent 0 Bytes S) as [S1|]
      eqn:H1; [|discriminate 1].
    rewrite bind_Ok. intros H2 HT HT0. rewrite processed_cons.
    cbn [fst snd] in HB |- *.
    destruct (collectLocStatsForDie_step _ _ _ _ _ _ _ HB H1)
      as [[-> ->] | (-> & p & Hp & Hr & ->)].
    + intros Hlt. exact (IH _ _ T H2 HT HT0 Hlt).
    + cbn [length]. rewrite Nat2Z.inj_succ. intros Hlt.
      assert (E1 : TotalAverage (record p S) = of_Z (T + p)).
      { cbn [record TotalAverage]. rewrite HT. apply add_exact; lia. }
      destruct (IH _ _ (T + p) H2 E1 ltac:(lia) ltac:(lia)) as [E Hs].
      assert (Ep : percentOf Opts DICtx (Die, Parent, Bytes) = p)
        by (unfold percentOf; cbn [fst snd]; rewrite Hp; reflexivity).
      unfold percentSum in *. cbn [foldr]. rewrite Ep.
      split; [rewrite E; f_equal; lia | lia].
Qed.

Lemma tally_le_length Opts DICtx Key Vars :
  0 <= tally Opts DICtx Key Vars <= Z.of_nat (length Vars).
Proof.
  unfold tally. split; [lia|]. apply Nat2Z.inj_le.
  induction Vars as [|V Vars IH]; cbn [List.filter length]; [lia|].
  destruct (bool_decide _); cbn [length]; lia.
Qed.

Lemma finalStats_total Opts DICtx S :
  finalStats Opts DICtx = Ok S ->
  Z.of_nat (length (processed Opts (reachedUnits Opts (compile_units DICtx))))
  <= 2 ^ 46 ->
  TotalAverage S
  = of_Z (percentSum Opts DICtx
            (processed Opts (reachedUnits Opts (compile_units DICtx))))
  ∧ 0 <= percentSum Opts DICtx
           (processed Opts (reachedUnits Opts (compile_units DICtx)))
    <= 100 * Z.of_nat (length (processed Opts
                                 (reachedUnits Opts (compile_units DICtx)))).
Proof.
  intros H Hlen. rewrite finalStats_reached in H.
  assert (H46 : 100 * 2 ^ 46 < 2 ^ 53) by reflexivity.
  destruct (evaluate_total Opts DICtx _ (reachedUnits_bytes_range Opts _)
              initialStats S 0 H eq_refl ltac:(lia) ltac:(lia)) as [E Hs].
  split; [exact E | exact Hs].
Qed.

(** X18. After a run that completes with at most [2 ^ 46] processed
    variables, the running total holds exactly the sum of their
    percentages: no addition is rounded. *)
Theorem total_is_sum Opts DICtx S :
  finalStats Opts DICtx = Ok S ->
  Z.of_nat (length (processed Opts (reachedUnits Opts (compile_units DICtx))))
  <= 2 ^ 46 ->
  TotalAverage S
  = of_Z (percentSum Opts DICtx
            (processed Opts (reachedUnits Opts (compile_units DICtx))))
  ∧ 0 <= percentSum Opts DICtx
           (processed Opts (reachedUnits Opts (compile_units DICtx)))
    <= 100 * Z.of_nat (length (processed Opts
                                 (reachedUnits Opts (compile_units DICtx)))).
Proof. apply finalStats_total. Qed.

Lemma total_is_sum_witness :
  TotalAverage (record 80 initialStats) = of_Z 80
  ∧ percentSum Sample.plain (Sample.context [Sample.function [Sample.listed]])
      (processed Sample.plain
         (reachedUnits Sample.plain
            (compile_units (Sample.context [Sample.function [Sample.listed]]))))
    = 80.
Proof.
  split; [|vm_compute; reflexivity].
  destruct (total_is_sum Sample.plain
              (Sample.context [Sample.function [Sample.listed]])
              (record 80 initialStats) eighty_percent_run) as [E _].
  - vm_compute. discriminate.
  - rewrite E. vm_compute. reflexivity.
Defined.

(** ** The categories and their rows *)

(** X19. The percentages of each category: category 0 holds 0 alone,
    category 1 the percentages 1 to 9, category 11 holds 100 alone, and
    category [i] from 2 to 10 the ten percentages from [10 * (i - 1)] to
    [10 * (i - 1) + 9]; a higher percentage never falls into a lower
    category. *)
Theorem PercentageKey_decades p :
  0 <= p <= 100 ->
  (PercentageKey p = 0 <-> p = 0)
  ∧ (PercentageKey p = 1 <-> 1 <= p <= 9)
  ∧ (PercentageKey p = 11 <-> p = 100)
  ∧ (forall i, 2 <= i <= 10 ->
       PercentageKey p = i <-> 10 * (i - 1) <= p <= 10 * (i - 1) + 9)
  ∧ (forall q, p <= q <= 100 -> PercentageKey p <= PercentageKey q).
Proof.
  intros Hp.
  assert (Hkey : forall x, 0 <= x <= 100 ->
    PercentageKey x = if x =? 0 then 0 else if x =? 100 then 11 else x / 10 + 1).
  { intros x Hx. unfold PercentageKey, largest_cov_category.
    destruct (Z.eqb_spec x 0); [reflexivity|].
    destruct (Z.eqb_spec x 100); [reflexivity|].
    rewrite Z.quot_div_nonneg by lia. reflexivity. }
  rewrite (Hkey p Hp).
  pose proof (Z.div_mod p 10 ltac:(lia)) as Hdm.
  pose proof (Z.mod_pos_bound p 10 ltac:(lia)) as Hm.
  destruct (Z.eqb_spec p 0) as [H0|H0]; [subst p; repeat split; intros; try lia;
    rewrite (Hkey q) by lia; destruct (Z.eqb_spec q 0); try lia;
    destruct (Z.eqb_spec q 100); try lia;
    pose proof (Z.div_pos q 10); lia|].
  destruct (Z.eqb_spec p 100) as [H100|H100]; [subst p; repeat split; intros;
    try lia; rewrite (Hkey q) by lia; replace q with 100 by lia; simpl; lia|].
  repeat split; intros; try lia.
  rewrite (Hkey q) by lia.
  destruct (Z.eqb_spec q 0); [lia|].
  destruct (Z.eqb_spec q 100); [lia|].
  assert (p / 10 <= q / 10) by (apply Z.div_le_mono; lia). lia.
Qed.

Lemma PercentageKey_decades_witness :
  0 <= 80 <= 100
  ∧ (PercentageKey 80 = 9 <-> 10 * (9 - 1) <= 80 <= 10 * (9 - 1) + 9).
Proof.
  assert (H : 0 <= 80 <= 100) by lia.
  split; [exact H|].
  destruct (PercentageKey_decades 80 H) as (_ & _ & _ & Hi & _).
  apply Hi. lia.
Defined.

(** X20. The row of a percentage from 10 to 99 is one of the nine rows of
    the loop, and its label runs from one above the decade of the
    percentage to the end of the decade: a multiple of ten is counted in
    the row whose label starts one above it. *)
Theorem decade_row_label p :
  10 <= p <= 99 ->
  PercentageKey p ∈ seqZ 2 9
  ∧ band (PercentageKey p)
    = "    " +:+ pretty (10 * (p / 10) + 1) +:+ ".."
      +:+ pretty (10 * (p / 10) + 9) +:+ "    "
  ∧ (p mod 10 = 0 -> p < 10 * (p / 10) + 1).
Proof.
  intros Hp.
  assert (Hkey : PercentageKey p = p / 10 + 1).
  { unfold PercentageKey.
    destruct (Z.eqb_spec p 0); [lia|]. destruct (Z.eqb_spec p 100); [lia|].
    rewrite Z.quot_div_nonneg by lia. reflexivity. }
  pose proof (Z.div_mod p 10 ltac:(lia)) as Hdm.
  pose proof (Z.mod_pos_bound p 10 ltac:(lia)) as Hm.
  assert (Hk : 1 <= p / 10 <= 9) by lia.
  rewrite Hkey. split; [apply elem_of_seqZ; lia|]. split; [|lia].
  clear Hdm Hm Hkey. generalize dependent (p / 10). intros k Hk.
  unfold band, u32.
  replace (k + 1 - 1) with k by lia.
  rewrite (Z.mod_small k) by lia.
  rewrite (Z.mod_small (k * 10)) by lia.
  rewrite (Z.mod_small (k * 10 + 1)) by lia.
  rewrite (Z.mod_small ((k + 1) * 10)) by lia.
  rewrite (Z.mod_small ((k + 1) * 10 - 1)) by lia.
  replace (k * 10 + 1) with (10 * k + 1) by lia.
  replace ((k + 1) * 10 - 1) with (10 * k + 9) by lia.
  reflexivity.
Qed.

Lemma decade_row_label_witness :
  10 <= 80 <= 99
  ∧ band (PercentageKey 80) = "    81..89    "%string
  ∧ 80 < 81.
Proof.
  assert (H : 10 <= 80 <= 99) by lia.
  split; [exact H|].
  destruct (decade_row_label 80 H) as (_ & Hband & Hlow).
  split; [rewrite Hband; reflexivity | apply Hlow; reflexivity].
Defined.

(** ** The percentage of a row *)

Lemma mul_comm_finite sx mx ex sy my ey :
  mul (S754_finite sx mx ex) (S754_finite sy my ey)
  = mul (S754_finite sy my ey) (S754_finite sx mx ex).
Proof.
  unfold mul. cbn [SFmul].
  rewrite (Pos.mul_comm mx my), (Z.add_comm ex ey), (xorb_comm sx sy).
  reflexivity.
Qed.

(** [100 * x] for a positive normal [x]: the product of the mantissas
    moved by at most one part in [2 ^ 52]. *)
Lemma mul_100_bounds mx ex :
  2 ^ 52 <= Z.pos mx < 2 ^ 53 -> -200 <= ex <= 200 ->
  exists mz ez,
    mul (of_Z 100) (S754_finite false mx ex) = S754_finite false mz ez
    ∧ 2 ^ 52 <= Z.pos mz < 2 ^ 53
    ∧ 52 <= ez - (ex - 46) <= 54
    ∧ (2 ^ 52 - 1) * (100 * 2 ^ 46 * Z.pos mx)
      <= 2 ^ 52 * (Z.pos mz * 2 ^ (ez - (ex - 46)))
      <= (2 ^ 52 + 1) * (100 * 2 ^ 46 * Z.pos mx).
Proof.
  intros Hmx Hex.
  change (of_Z 100) with (S754_finite false (100 * 2 ^ 46) (-46)).
  unfold mul. cbn [SFmul xorb].
  set (m := (100 * 2 ^ 46 * mx)%positive).
  assert (Em : Z.pos m = 100 * 2 ^ 46 * Z.pos mx) by reflexivity.
  assert (Hlo : 2 ^ (105 - 1) <= Z.pos m).
  { rewrite Em. change (2 ^ (105 - 1)) with (2 ^ 52 * 2 ^ 52).
    assert (2 ^ 52 <= 100 * 2 ^ 46) by (vm_compute; discriminate).
    apply Z.mul_le_mono_nonneg; lia. }
  assert (Hhi : Z.pos m < 2 ^ 106).
  { rewrite Em. change (2 ^ 106) with (2 ^ 53 * 2 ^ 53).
    assert (100 * 2 ^ 46 < 2 ^ 53) by (vm_compute; reflexivity).
    apply Z.mul_lt_mono_nonneg; lia. }
  pose proof (digits2_pos_ge m 105 Hlo) as Hk1.
  pose proof (digits2_pos_le m 106 ltac:(lia) Hhi) as Hk2.
  pose proof (digits2_pos_bounds m) as [Hlo' _].
  destruct (binary_round_aux_shape false m (-46 + ex) loc_Exact)
    as (mz & ez & Hb & Hmz & Hez & Hv); [lia | lia |].
  cbv zeta in Hez, Hv.
  set (k := Z.pos (digits2_pos m)) in *.
  exists mz, ez. rewrite Hb.
  destruct (Z.leb_spec ez (emax - prec)); [|unfold emax, prec in *; lia].
  split; [reflexivity|]. split; [exact Hmz|]. split; [lia|].
  assert (Hulp : 2 ^ 52 * 2 ^ (k - 53) <= Z.pos m).
  { rewrite <- Z.pow_add_r by lia.
    replace (52 + (k - 53)) with (k - 1) by lia. exact Hlo'. }
  replace (ez - (ex - 46)) with (ez - (-46 + ex)) by lia.
  rewrite <- Em. clear - Hulp Hv. lia.
Qed.

(** The quotient of two integers held exactly, in integers: the quotient
    of the mantissas is the quotient of the integers scaled by a power of
    two. *)
Lemma quotient_of_exact mc ec c mN eN N :
  -52 <= ec <= 0 -> -52 <= eN <= 0 -> 0 < N ->
  Z.pos mc = c * 2 ^ (- ec) -> Z.pos mN = N * 2 ^ (- eN) ->
  Z.pos mc * 2 ^ 53 / Z.pos mN = c * 2 ^ (53 + eN - ec) / N.
Proof.
  intros Hec HeN HN Ec EN.
  assert (Hpy : 0 < 2 ^ (- eN)) by (apply Z.pow_pos_nonneg; lia).
  assert (Enum : Z.pos mc * 2 ^ 53 = c * 2 ^ (53 + eN - ec) * 2 ^ (- eN)).
  { rewrite Ec. rewrite <- !Z.mul_assoc, <- !Z.pow_add_r by lia.
    do 2 f_equal. lia. }
  rewrite Enum, EN. apply Z.div_mul_cancel_r; lia.
Qed.

(** The percentage of a row: the exact percentage rounded down, or one
    less when the exact percentage is an integer. *)
Lemma share_bounds Samples N :
  0 <= Samples <= N -> 0 < N < 2 ^ 32 ->
  exists p,
    share Samples N = Ok p
    ∧ 100 * Samples / N - 1 <= p <= 100 * Samples / N
    ∧ ((100 * Samples) mod N ≠ 0 -> p = 100 * Samples / N).
Proof.
  intros Hc HN. unfold share.
  assert (H32 : 2 ^ 32 < 2 ^ 53) by reflexivity.
  destruct (of_Z_exact N ltac:(lia)) as (mN & eN & EN & HmN & HeN & EmN).
  destruct (Z.eq_dec Samples 0) as [-> | Hc0].
  { exists 0. rewrite EN. split; [reflexivity|].
    change (100 * 0) with 0. rewrite Z.div_0_l, Z.mod_0_l by lia. lia. }
  destruct (of_Z_exact Samples ltac:(lia)) as (mc & ec & EC & Hmc & Hec & Emc).
  rewrite EN, EC.
  pose proof (exact_exponent_le mc ec Samples mN eN N Hmc HmN ltac:(lia)
                ltac:(lia) Emc EmN ltac:(lia)) as Hexp.
  destruct (div_quotient mc ec mN eN Hmc HmN ltac:(lia) ltac:(lia))
    as (ma & ea & n & Ea & Hma & Hn & Hea & Hqlo & Hu).
  rewrite Ea.
  rewrite (quotient_of_exact mc ec Samples mN eN N Hec HeN ltac:(lia) Emc EmN)
    in Hqlo, Hu.
  change (of_Z 100) with (S754_finite false (100 * 2 ^ 46) (-46)).
  rewrite mul_comm_finite.
  change (S754_finite false (100 * 2 ^ 46) (-46)) with (of_Z 100).
  destruct (mul_100_bounds ma ea Hma ltac:(lia)) as (mb & eb & Eb & Hmb & Heb & Hv).
  rewrite Eb. cbn [to_int cond_Zopp].
  set (g := ea - (ec - eN - 53)) in *.
  set (h := eb - (ea - 46)) in *.
  set (U := 2 ^ (53 + eN - ec)) in *.
  assert (HU : 0 < U) by (apply Z.pow_pos_nonneg; lia).
  assert (Hg : n <= g <= n + 1) by (unfold g; lia).
  assert (Heb0 : eb < 0) by (unfold h, g in *; lia).
  set (c := Samples) in *.
  set (K := 100 * c / N).
  pose proof (Z.div_mod (100 * c) N ltac:(lia)) as HX. fold K in HX.
  pose proof (Z.mod_pos_bound (100 * c) N ltac:(lia)) as Hrho.
  set (rho := (100 * c) mod N) in *.
  assert (HK : 0 <= K <= 100).
  { split; [apply Z.div_pos; lia|]. apply Z.div_le_upper_bound; lia. }
  (* the quotient of the mantissas *)
  set (q := c * U / N) in *.
  pose proof (Z.div_mod (c * U) N ltac:(lia)) as Hq. fold q in Hq.
  pose proof (Z.mod_pos_bound (c * U) N ltac:(lia)) as Hr.
  assert (Hpn : 1 <= 2 ^ n <= 2).
  { destruct (Z.eq_dec n 0) as [-> | ?]; [simpl; lia|].
    replace n with 1 by lia. simpl; lia. }
  set (A := Z.pos ma * 2 ^ g) in *.
  set (B := Z.pos mb * 2 ^ h) in *.
  assert (Hpg : 0 < 2 ^ g) by (apply Z.pow_pos_nonneg; lia).
  assert (Hph : 0 < 2 ^ h) by (apply Z.pow_pos_nonneg; lia).
  (* everything times [N * 2 ^ g] *)
  assert (HNq : N * q <= c * U < N * q + N) by (clear - Hq Hr; lia).
  assert (HcU : c * U <= N * U)
    by (apply Z.mul_le_mono_nonneg_r; clear - Hc HU; lia).
  assert (HU52 : 2 ^ 52 <= U).
  { assert (H1 : N * 2 ^ 52 <= N * q)
      by (apply Z.mul_le_mono_nonneg_l; clear - Hqlo Hpn HN; lia).
    apply (Z.mul_le_mono_pos_l _ _ N); clear - H1 HNq HcU HN; lia. }
  assert (HAN : c * U - 3 * N < N * A <= c * U + 2 * N).
  { assert (H1 : N * (q - 2) < N * A)
      by (apply Z.mul_lt_mono_pos_l; clear - Hu Hpn HN; lia).
    assert (H2 : N * A <= N * (q + 2))
      by (apply Z.mul_le_mono_nonneg_l; clear - Hu Hpn HN; lia).
    clear - H1 H2 HNq. lia. }
  assert (HBA : (2 ^ 52 - 1) * (100 * 2 ^ 46 * (N * A))
                <= 2 ^ 52 * (N * (B * 2 ^ g))
                <= (2 ^ 52 + 1) * (100 * 2 ^ 46 * (N * A))).
  { unfold A.
    replace (100 * 2 ^ 46 * (N * (Z.pos ma * 2 ^ g)))
      with (N * 2 ^ g * (100 * 2 ^ 46 * Z.pos ma)) by ring.
    replace (2 ^ 52 * (N * (B * 2 ^ g)))
      with (N * 2 ^ g * (2 ^ 52 * B)) by ring.
    replace ((2 ^ 52 - 1) * (N * 2 ^ g * (100 * 2 ^ 46 * Z.pos ma)))
      with (N * 2 ^ g * ((2 ^ 52 - 1) * (100 * 2 ^ 46 * Z.pos ma))) by ring.
    replace ((2 ^ 52 + 1) * (N * 2 ^ g * (100 * 2 ^ 46 * Z.pos ma)))
      with (N * 2 ^ g * ((2 ^ 52 + 1) * (100 * 2 ^ 46 * Z.pos ma))) by ring.
    assert (0 <= N * 2 ^ g)
      by (apply Z.mul_nonneg_nonneg; clear - HN Hpg; lia).
    split; (apply Z.mul_le_mono_nonneg_l; [assumption | clear - Hv; lia]). }
  assert (HNU : N * U < 2 ^ 32 * U)
    by (apply Z.mul_lt_mono_pos_r; clear - HN HU; lia).
  assert (HXU : 100 * (c * U) = K * (N * U) + rho * U).
  { replace (100 * (c * U)) with (100 * c * U) by ring. rewrite HX. ring. }
  assert (HKU : 0 <= K * (N * U) <= 100 * (N * U)).
  { assert (0 <= N * U) by (apply Z.mul_nonneg_nonneg; clear - HN HU; lia).
    split; [apply Z.mul_nonneg_nonneg | apply Z.mul_le_mono_nonneg_r];
      clear - HK H; lia. }
  assert (HrU : 0 <= rho * U <= N * U - U).
  { split; [apply Z.mul_nonneg_nonneg; clear - Hrho HU; lia|].
    replace (N * U - U) with ((N - 1) * U) by ring.
    apply Z.mul_le_mono_nonneg_r; clear - Hrho HU; lia. }
  assert (HrU1 : rho <> 0 -> U <= rho * U).
  { intros Hne. replace U with (1 * U) at 1 by ring.
    apply Z.mul_le_mono_nonneg_r; clear - Hrho HU Hne; lia. }
  assert (Hscale : 2 ^ (- eb + (h + g)) = 2 ^ 46 * U).
  { unfold U, h, g. rewrite <- Z.pow_add_r by lia. f_equal. lia. }
  assert (HNU52 : 2 ^ 52 * N <= N * U).
  { rewrite (Z.mul_comm (2 ^ 52) N).
    apply Z.mul_le_mono_nonneg_l; clear - HN HU52; lia. }
  assert (Hbound : (K - 1) * (N * (2 ^ 46 * U)) <= N * (B * 2 ^ g)
                   < (K + 1) * (N * (2 ^ 46 * U))
                   ∧ (rho <> 0 -> K * (N * (2 ^ 46 * U)) <= N * (B * 2 ^ g))).
  { replace ((K - 1) * (N * (2 ^ 46 * U))) with (2 ^ 46 * (K * (N * U) - N * U))
      by ring.
    replace ((K + 1) * (N * (2 ^ 46 * U))) with (2 ^ 46 * (K * (N * U) + N * U))
      by ring.
    replace (K * (N * (2 ^ 46 * U))) with (2 ^ 46 * (K * (N * U))) by ring.
    assert (Hlin : forall NU cU rU KNU NA NB : Z,
      2 ^ 52 * N <= NU -> NU < 2 ^ 32 * U -> cU <= NU ->
      100 * cU = KNU + rU -> 0 <= KNU <= 100 * NU -> 0 <= rU <= NU - U ->
      cU - 3 * N < NA <= cU + 2 * N ->
      (2 ^ 52 - 1) * (100 * 2 ^ 46 * NA) <= 2 ^ 52 * NB
        <= (2 ^ 52 + 1) * (100 * 2 ^ 46 * NA) ->
      (2 ^ 46 * (KNU - NU) <= NB < 2 ^ 46 * (KNU + NU))
      ∧ (U <= rU -> 2 ^ 46 * KNU <= NB)).
    { clear - HN HU52. intros. lia. }
    destruct (Hlin (N * U) (c * U) (rho * U) (K * (N * U)) (N * A)
                (N * (B * 2 ^ g)) HNU52 HNU HcU HXU HKU HrU HAN HBA)
      as [H1 H2].
    split; [exact H1|]. intros Hne. apply H2, HrU1, Hne. }
  destruct Hbound as [[Hlo Hhi] Hex].
  assert (HBg : B * 2 ^ g = Z.pos mb * 2 ^ (h + g))
    by (unfold B; rewrite Z.pow_add_r by lia; ring).
  assert (Hrange : K - 1 <= trunc_mag mb eb <= K).
  { apply (trunc_mag_between mb eb (h + g)); [exact Heb0 | lia |].
    rewrite Hscale, <- HBg. split.
    - apply (Z.mul_le_mono_pos_l _ _ N); lia.
    - apply (Z.mul_lt_mono_pos_l N); lia. }
  exists (trunc_mag mb eb). split.
  { apply as_int_Ok. unfold INT_MIN, INT_MAX. clear - Hrange HK. lia. }
  split; [exact Hrange|].
  intros Hne. specialize (Hex Hne).
  assert (K <= trunc_mag mb eb <= K); [|lia].
  apply (trunc_mag_between mb eb (h + g)); [exact Heb0 | lia |].
  rewrite Hscale, <- HBg. split.
  - apply (Z.mul_le_mono_pos_l _ _ N); lia.
  - apply (Z.mul_lt_mono_pos_l N); lia.
Qed.

(** X21. The percentage shown in a row, for a category that holds
    [Samples] of [N] variables ([N] below [2 ^ 32]), is defined; it is the
    exact percentage [100 * Samples / N] rounded down, or one less than
    that, and one less can only happen when the exact percentage is an
    integer. *)
Theorem share_floor_or_one_less Samples N :
  0 <= Samples <= N -> 0 < N < 2 ^ 32 ->
  exists p,
    share Samples N = Ok p
    ∧ 100 * Samples / N - 1 <= p <= 100 * Samples / N
    ∧ ((100 * Samples) mod N ≠ 0 -> p = 100 * Samples / N).
Proof. apply share_bounds. Qed.

(** 29 of 100 variables are shown as 28 percent. *)
Lemma share_floor_or_one_less_witness :
  exists p, share 29 100 = Ok p
            ∧ 100 * 29 / 100 - 1 <= p <= 100 * 29 / 100
            ∧ share 29 100 = Ok 28 ∧ 100 * 29 / 100 = 29.
Proof.
  destruct (share_floor_or_one_less 29 100) as (p & Hp & Hr & _).
  - lia.
  - vm_compute. split; [reflexivity | reflexivity].
  - exists p. split; [exact Hp|]. split; [exact Hr|].
    split; vm_compute; reflexivity.
Defined.

(** ** Rounding between grid points *)

(** The quotient of two positive normal numbers: it is not below a
    number of its own grid that is not above the exact quotient, and it
    exceeds the exact quotient by at most two units of the integer
    quotient of the mantissas. *)
Lemma div_bounds mz ez my ey :
  2 ^ 52 <= Z.pos mz < 2 ^ 53 -> 2 ^ 52 <= Z.pos my < 2 ^ 53 ->
  -140 <= ez <= 100 -> -52 <= ey <= 0 ->
  exists mq eq,
    div (S754_finite false mz ez) (S754_finite false my ey)
    = S754_finite false mq eq
    ∧ 2 ^ 52 <= Z.pos mq < 2 ^ 53
    ∧ ez - ey - 53 <= eq <= ez - ey - 51
    ∧ (forall j, j * 2 ^ (eq - (ez - ey - 53)) * Z.pos my <= Z.pos mz * 2 ^ 53 ->
         j <= Z.pos mq)
    ∧ Z.pos my * scaled mq eq
      <= scaled mz ez * 2 ^ (- ey) + 2 * Z.pos my * 2 ^ (ez - ey - 53 + 200).
Proof.
  intros Hmz Hmy Hez Hey.
  destruct (div_quotient mz ez my ey Hmz Hmy ltac:(lia) ltac:(lia))
    as (mq & eq & n & Eq & Hmq & Hn & Heq & Hqlo & Hu).
  exists mq, eq. split; [exact Eq|]. split; [exact Hmq|]. split; [lia|].
  set (e0 := ez - ey - 53) in *.
  set (g := eq - e0) in *.
  assert (Hg : n <= g <= n + 1) by (unfold g; lia).
  assert (Hpn : 1 <= 2 ^ n <= 2).
  { destruct (Z.eq_dec n 0) as [-> | ?]; [simpl; lia|].
    replace n with 1 by lia. simpl; lia. }
  assert (Hpg : 2 ^ n <= 2 ^ g) by (apply Z.pow_le_mono_r; lia).
  set (q := Z.pos mz * 2 ^ 53 / Z.pos my) in *.
  pose proof (Z.div_mod (Z.pos mz * 2 ^ 53) (Z.pos my) ltac:(lia)) as Hq.
  fold q in Hq.
  pose proof (Z.mod_pos_bound (Z.pos mz * 2 ^ 53) (Z.pos my) ltac:(lia)) as Hr.
  split.
  - intros j Hj.
    assert (Hjq : j * 2 ^ g <= q)
      by (apply Z.div_le_lower_bound; [lia | rewrite Z.mul_comm; exact Hj]).
    apply (grid_lower _ _ (2 ^ g)); clear - Hjq Hu Hpg Hpn; lia.
  - assert (Hup : Z.pos my * (Z.pos mq * 2 ^ g)
                  <= Z.pos mz * 2 ^ 53 + 2 * Z.pos my).
    { assert (Z.pos my * (Z.pos mq * 2 ^ g) <= Z.pos my * (q + 2))
        by (apply Z.mul_le_mono_nonneg_l; clear - Hu Hpn; lia).
      clear - H Hq Hr. lia. }
    assert (HE : 0 < 2 ^ (e0 + 200)) by (apply Z.pow_pos_nonneg; unfold e0; lia).
    assert (E1 : scaled mq eq = Z.pos mq * 2 ^ g * 2 ^ (e0 + 200)).
    { unfold scaled, g. rewrite <- Z.mul_assoc, <- Z.pow_add_r by (unfold e0; lia).
      do 2 f_equal. lia. }
    assert (E2 : scaled mz ez * 2 ^ (- ey) = Z.pos mz * 2 ^ 53 * 2 ^ (e0 + 200)).
    { unfold scaled, e0. rewrite <- !Z.mul_assoc, <- !Z.pow_add_r by lia.
      do 2 f_equal. lia. }
    rewrite E1, E2.
    replace (Z.pos my * (Z.pos mq * 2 ^ g * 2 ^ (e0 + 200)))
      with (Z.pos my * (Z.pos mq * 2 ^ g) * 2 ^ (e0 + 200)) by ring.
    replace (Z.pos mz * 2 ^ 53 * 2 ^ (e0 + 200)
             + 2 * Z.pos my * 2 ^ (e0 + 200))
      with ((Z.pos mz * 2 ^ 53 + 2 * Z.pos my) * 2 ^ (e0 + 200)) by ring.
    apply Z.mul_le_mono_nonneg_r; [lia | exact Hup].
Qed.

(** [x * 100] for a positive normal [x]: not below a number of its own
    grid that is not above the exact product, and above the exact product
    by at most one part in [2 ^ 52]. *)
Lemma mul_100_r_bounds mx ex :
  2 ^ 52 <= Z.pos mx < 2 ^ 53 -> -150 <= ex <= 100 ->
  exists mz ez,
    mul (S754_finite false mx ex) (of_Z 100) = S754_finite false mz ez
    ∧ 2 ^ 52 <= Z.pos mz < 2 ^ 53
    ∧ ex + 6 <= ez <= ex + 8
    ∧ (forall j, j * 2 ^ (ez - (ex - 46)) <= 100 * 2 ^ 46 * Z.pos mx ->
         j <= Z.pos mz)
    ∧ 2 ^ 52 * scaled mz ez <= (2 ^ 52 + 1) * (100 * scaled mx ex).
Proof.
  intros Hmx Hex.
  change (of_Z 100) with (S754_finite false (100 * 2 ^ 46) (-46)).
  rewrite mul_comm_finite.
  unfold mul. cbn [SFmul xorb].
  set (m := (100 * 2 ^ 46 * mx)%positive).
  assert (Em : Z.pos m = 100 * 2 ^ 46 * Z.pos mx) by reflexivity.
  assert (Hlo : 2 ^ (105 - 1) <= Z.pos m).
  { rewrite Em. change (2 ^ (105 - 1)) with (2 ^ 52 * 2 ^ 52).
    assert (2 ^ 52 <= 100 * 2 ^ 46) by (vm_compute; discriminate).
    apply Z.mul_le_mono_nonneg; lia. }
  assert (Hhi : Z.pos m < 2 ^ 106).
  { rewrite Em. change (2 ^ 106) with (2 ^ 53 * 2 ^ 53).
    assert (100 * 2 ^ 46 < 2 ^ 53) by (vm_compute; reflexivity).
    apply Z.mul_lt_mono_nonneg; lia. }
  pose proof (digits2_pos_ge m 105 Hlo) as Hk1.
  pose proof (digits2_pos_le m 106 ltac:(lia) Hhi) as Hk2.
  pose proof (digits2_pos_bounds m) as [Hlo' _].
  destruct (binary_round_aux_shape false m (-46 + ex) loc_Exact)
    as (mz & ez & Hb & Hmz & Hez & Hv); [lia | lia |].
  cbv zeta in Hez, Hv.
  set (k := Z.pos (digits2_pos m)) in *.
  exists mz, ez. rewrite Hb.
  destruct (Z.leb_spec ez (emax - prec)); [|unfold emax, prec in *; lia].
  split; [reflexivity|]. split; [exact Hmz|]. split; [lia|].
  assert (Hulp : 2 ^ 52 * 2 ^ (k - 53) <= Z.pos m).
  { rewrite <- Z.pow_add_r by lia.
    replace (52 + (k - 53)) with (k - 1) by lia. exact Hlo'. }
  replace (ez - (ex - 46)) with (ez - (-46 + ex)) by lia.
  set (h := ez - (-46 + ex)) in *.
  assert (Hph : 2 ^ (k - 53) <= 2 ^ h) by (apply Z.pow_le_mono_r; lia).
  assert (Hpk : 0 < 2 ^ (k - 53)) by (apply Z.pow_pos_nonneg; lia).
  split.
  - intros j Hj. rewrite <- Em in Hj.
    apply (grid_lower _ _ (2 ^ h)); clear - Hj Hv Hph Hpk; lia.
  - assert (H1 : 2 ^ 52 * (Z.pos mz * 2 ^ h) <= (2 ^ 52 + 1) * Z.pos m)
      by (clear - Hulp Hv; lia).
    assert (HE : 0 < 2 ^ (-46 + ex + 200)) by (apply Z.pow_pos_nonneg; lia).
    assert (E1 : scaled mz ez = Z.pos mz * 2 ^ h * 2 ^ (-46 + ex + 200)).
    { unfold scaled, h. rewrite <- Z.mul_assoc, <- Z.pow_add_r by lia.
      do 2 f_equal. lia. }
    assert (E2 : 100 * scaled mx ex = Z.pos m * 2 ^ (-46 + ex + 200)).
    { unfold scaled. rewrite Em.
      replace (ex + 200) with (46 + (-46 + ex + 200)) by lia.
      rewrite (Z.pow_add_r 2 46) by lia. ring. }
    rewrite E1, E2.
    replace (2 ^ 52 * (Z.pos mz * 2 ^ h * 2 ^ (-46 + ex + 200)))
      with (2 ^ 52 * (Z.pos mz * 2 ^ h) * 2 ^ (-46 + ex + 200)) by ring.
    replace ((2 ^ 52 + 1) * (Z.pos m * 2 ^ (-46 + ex + 200)))
      with ((2 ^ 52 + 1) * Z.pos m * 2 ^ (-46 + ex + 200)) by ring.
    apply Z.mul_le_mono_nonneg_r; [lia | exact H1].
Qed.

(** ** The mean *)

Lemma nearest_pos T N :
  0 < T -> 0 < N -> nearest T N = (2 * T + N) / (2 * N).
Proof.
  intros HT HN. unfold nearest.
  rewrite Z.sgn_pos, Z.abs_eq by lia. lia.
Qed.

Lemma exact_exponent_within mT eT T mN eN N :
  2 ^ 52 <= Z.pos mT < 2 ^ 53 -> 2 ^ 52 <= Z.pos mN < 2 ^ 53 ->
  eT <= 0 -> eN <= 0 ->
  Z.pos mT = T * 2 ^ (- eT) -> Z.pos mN = N * 2 ^ (- eN) ->
  0 < T <= 100 * N -> eT <= eN + 7.
Proof.
  intros HmT HmN HeT HeN ET EN HT.
  destruct (Z.le_gt_cases eT (eN + 7)) as [?|Hgt]; [assumption|]. exfalso.
  assert (Hp : 2 ^ (- eN) = 2 ^ (- eT) * 2 ^ (eT - eN))
    by (rewrite <- Z.pow_add_r by lia; f_equal; lia).
  assert (2 ^ 8 <= 2 ^ (eT - eN)) by (apply Z.pow_le_mono_r; lia).
  assert (0 < 2 ^ (- eT)) by (apply Z.pow_pos_nonneg; lia).
  rewrite Hp in EN.
  assert (100 * Z.pos mN >= 2 ^ 8 * Z.pos mT) by nia.
  lia.
Qed.

(** The mean of a total [T] of percentages over [N] variables, as the
    code computes it in [double], is [T / N] rounded to the nearest
    integer, a halfway case going up. *)
Lemma average_nearest T N :
  0 <= T <= 100 * N -> 0 < N < 2 ^ 32 ->
  average (of_Z T) N = Ok (nearest T N).
Proof.
  intros HT HN. unfold average. rewrite to_int_round.
  assert (H32 : 2 ^ 32 < 2 ^ 53) by reflexivity.
  destruct (of_Z_exact N ltac:(lia)) as (mN & eN & EN & HmN & HeN & EmN).
  rewrite EN.
  destruct (Z.eq_dec T 0) as [-> | HT0]; [reflexivity|].
  assert (HT53 : T < 2 ^ 53).
  { assert (100 * 2 ^ 32 < 2 ^ 53) by reflexivity. lia. }
  destruct (of_Z_exact T ltac:(lia)) as (mT & eT & ET & HmT & HeT & EmT).
  rewrite ET.
  pose proof (exact_exponent_within mT eT T mN eN N HmT HmN ltac:(lia)
                ltac:(lia) EmT EmN ltac:(lia)) as Hexp.
  destruct (div_bounds mT eT mN eN HmT HmN ltac:(lia) HeN)
    as (ma & ea & Ea & Hma & Hea & Hlow1 & Hup1).
  rewrite Ea.
  destruct (mul_100_r_bounds ma ea Hma ltac:(lia))
    as (mb & eb & Eb & Hmb & Heb & Hlow2 & Hup2).
  rewrite Eb.
  change (of_Z 100) with (S754_finite false (100 * 2 ^ 46) (-46)).
  destruct (div_bounds mb eb (100 * 2 ^ 46) (-46) Hmb ltac:(simpl; lia)
              ltac:(lia) ltac:(lia))
    as (mc & ec & Ec & Hmc & Hec & Hlow3 & Hup3).
  rewrite Ec. clear Ea Eb Ec EN ET.
  rewrite nearest_pos by lia.
  set (R := (2 * T + N) / (2 * N)).
  pose proof (Z.div_mod (2 * T + N) (2 * N) ltac:(lia)) as HR. fold R in HR.
  pose proof (Z.mod_pos_bound (2 * T + N) (2 * N) ltac:(lia)) as HRr.
  assert (HR0 : 0 <= R <= 100).
  { split; [apply Z.div_pos; lia|].
    assert (R < 101); [|lia]. apply Z.div_lt_upper_bound; lia. }
  assert (HRlo : (2 * R - 1) * N <= 2 * T) by (clear - HR HRr; lia).
  assert (HRhi : 2 * T + 1 <= (2 * R + 1) * N) by (clear - HR HRr; lia).
  assert (Hec0 : ec < 0) by lia.
  unfold rounded. cbn [is_number numerator denominator cond_Zopp].
  destruct (Z.leb_spec 0 ec) as [?|_]; [lia|].
  set (D := 2 ^ (- ec)).
  assert (HD : 0 < D) by (apply Z.pow_pos_nonneg; lia).
  (* the result is not below [R - 1/2] *)
  assert (Hj1 : (2 * R - 1) * 2 ^ (- ea - 1) <= Z.pos ma).
  { apply Hlow1. rewrite EmT, EmN.
    replace ((2 * R - 1) * 2 ^ (- ea - 1) * 2 ^ (ea - (eT - eN - 53))
             * (N * 2 ^ (- eN)))
      with ((2 * R - 1) * N
            * (2 ^ (- ea - 1) * 2 ^ (ea - (eT - eN - 53)) * 2 ^ (- eN))) by ring.
    rewrite <- !Z.pow_add_r by lia.
    replace (T * 2 ^ (- eT) * 2 ^ 53) with (2 * T * (2 ^ (- eT) * 2 ^ 52))
      by (change (2 ^ 53) with (2 * 2 ^ 52); ring).
    rewrite <- Z.pow_add_r by lia.
    replace (- ea - 1 + (ea - (eT - eN - 53)) + - eN) with (- eT + 52) by lia.
    apply Z.mul_le_mono_nonneg_r; [apply Z.pow_nonneg; lia | exact HRlo]. }
  assert (Hj2 : 50 * (2 * R - 1) * 2 ^ (- eb) <= Z.pos mb).
  { apply Hlow2.
    replace (50 * (2 * R - 1) * 2 ^ (- eb) * 2 ^ (eb - (ea - 46)))
      with (50 * (2 * R - 1) * (2 ^ (- eb) * 2 ^ (eb - (ea - 46)))) by ring.
    rewrite <- Z.pow_add_r by lia.
    replace (- eb + (eb - (ea - 46))) with (47 + (- ea - 1)) by lia.
    rewrite Z.pow_add_r by lia.
    replace (50 * (2 * R - 1) * (2 ^ 47 * 2 ^ (- ea - 1)))
      with (100 * 2 ^ 46 * ((2 * R - 1) * 2 ^ (- ea - 1)))
      by (change (2 ^ 47) with (2 * 2 ^ 46); ring).
    apply Z.mul_le_mono_nonneg_l; [lia | exact Hj1]. }
  assert (Hj3 : (2 * R - 1) * 2 ^ (- ec - 1) <= Z.pos mc).
  { apply Hlow3.
    change (Z.pos (100 * 2 ^ 46)) with (100 * 2 ^ 46).
    replace ((2 * R - 1) * 2 ^ (- ec - 1) * 2 ^ (ec - (eb - -46 - 53))
             * (100 * 2 ^ 46))
      with (100 * (2 * R - 1)
            * (2 ^ (- ec - 1) * 2 ^ (ec - (eb - -46 - 53)) * 2 ^ 46)) by ring.
    rewrite <- !Z.pow_add_r by lia.
    replace (- ec - 1 + (ec - (eb - -46 - 53)) + 46) with (- eb + 52) by lia.
    rewrite Z.pow_add_r by lia.
    replace (100 * (2 * R - 1) * (2 ^ (- eb) * 2 ^ 52))
      with (50 * (2 * R - 1) * 2 ^ (- eb) * 2 ^ 53)
      by (change (2 ^ 53) with (2 * 2 ^ 52); ring).
    apply Z.mul_le_mono_nonneg_r; [lia | exact Hj2]. }
  assert (Hlow : (2 * R - 1) * D <= 2 * Z.pos mc).
  { unfold D. replace (- ec) with (1 + (- ec - 1)) by lia.
    rewrite Z.pow_add_r by lia. change (2 ^ 1) with 2.
    clear - Hj3. lia. }
  (* the result is below [R + 1/2] *)
  set (W := 2 ^ 200).
  assert (HW : 0 < W) by (apply Z.pow_pos_nonneg; lia).
  set (e1 := 2 ^ (eT - eN - 53 + 200)) in *.
  set (e3 := 2 ^ (eb - -46 - 53 + 200)) in *.
  assert (He1 : 0 < e1) by (apply Z.pow_pos_nonneg; lia).
  assert (He3 : 0 < e3) by (apply Z.pow_pos_nonneg; lia).
  assert (He1W : 2 ^ 46 * e1 <= W).
  { unfold e1, W. rewrite <- Z.pow_add_r by lia. apply Z.pow_le_mono_r; lia. }
  assert (He3W : 2 ^ 43 * e3 <= W).
  { unfold e3, W. rewrite <- Z.pow_add_r by lia. apply Z.pow_le_mono_r; lia. }
  assert (Hu1 : N * scaled ma ea <= T * W + 2 * (N * e1)).
  { assert (HpN : 0 < 2 ^ (- eN)) by (apply Z.pow_pos_nonneg; lia).
    assert (ETW : scaled mT eT = T * W).
    { unfold scaled, W. rewrite EmT, <- Z.mul_assoc, <- Z.pow_add_r by lia.
      do 2 f_equal. lia. }
    rewrite ETW, EmN in Hup1.
    apply (Z.mul_le_mono_pos_r _ _ (2 ^ (- eN))); [exact HpN|].
    replace (N * scaled ma ea * 2 ^ (- eN))
      with (N * 2 ^ (- eN) * scaled ma ea) by ring.
    replace ((T * W + 2 * (N * e1)) * 2 ^ (- eN))
      with (T * W * 2 ^ (- eN) + 2 * (N * 2 ^ (- eN)) * e1) by ring.
    exact Hup1. }
  assert (Hu3 : 100 * scaled mc ec <= scaled mb eb + 200 * e3).
  { change (Z.pos (100 * 2 ^ 46)) with (100 * 2 ^ 46) in Hup3.
    change (- -46) with 46 in Hup3.
    apply (Z.mul_le_mono_pos_r _ _ (2 ^ 46)); [lia|].
    clear - Hup3. lia. }
  assert (Hhigh : 2 * Z.pos mc < (2 * R + 1) * D).
  { assert (Hsc : 2 * scaled mc ec < (2 * R + 1) * W).
    { apply (Z.mul_lt_mono_pos_l N); [lia|].
      assert (HNb : 2 ^ 52 * (N * scaled mb eb)
                    <= (2 ^ 52 + 1) * (100 * (N * scaled ma ea))).
      { replace (2 ^ 52 * (N * scaled mb eb))
          with (N * (2 ^ 52 * scaled mb eb)) by ring.
        replace ((2 ^ 52 + 1) * (100 * (N * scaled ma ea)))
          with (N * ((2 ^ 52 + 1) * (100 * scaled ma ea))) by ring.
        apply Z.mul_le_mono_nonneg_l; [lia | exact Hup2]. }
      assert (HNc : 100 * (N * scaled mc ec) <= N * scaled mb eb + 200 * (N * e3)).
      { replace (100 * (N * scaled mc ec)) with (N * (100 * scaled mc ec))
          by ring.
        replace (N * scaled mb eb + 200 * (N * e3))
          with (N * (scaled mb eb + 200 * e3)) by ring.
        apply Z.mul_le_mono_nonneg_l; [lia | exact Hu3]. }
      assert (HRW : (2 * (T * W) + W) <= N * ((2 * R + 1) * W)).
      { replace (2 * (T * W) + W) with ((2 * T + 1) * W) by ring.
        replace (N * ((2 * R + 1) * W)) with ((2 * R + 1) * N * W) by ring.
        apply Z.mul_le_mono_nonneg_r; [lia | exact HRhi]. }
      assert (HTW : T * W <= 2 ^ 39 * W).
      { apply Z.mul_le_mono_nonneg_r; [lia|].
        assert (100 * 2 ^ 32 < 2 ^ 39) by reflexivity. lia. }
      assert (HNe1 : N * e1 <= 2 ^ 32 * e1)
        by (apply Z.mul_le_mono_nonneg_r; lia).
      assert (HNe3 : N * e3 <= 2 ^ 32 * e3)
        by (apply Z.mul_le_mono_nonneg_r; lia).
      replace (N * (2 * scaled mc ec)) with (2 * (N * scaled mc ec)) by ring.
      clear - HNb HNc HRW HTW HNe1 HNe3 Hu1 He1W He3W HW He1 He3.
      generalize dependent (N * scaled mc ec).
      generalize dependent (N * scaled mb eb).
      generalize dependent (N * scaled ma ea).
      generalize dependent (N * ((2 * R + 1) * W)).
      generalize dependent (T * W).
      generalize dependent (N * e1). generalize dependent (N * e3).
      intros. lia. }
    assert (HDW : D * 2 ^ (ec + 200) = W)
      by (unfold D, W; rewrite <- Z.pow_add_r by lia; f_equal; lia).
    assert (Hp : 0 < 2 ^ (ec + 200)) by (apply Z.pow_pos_nonneg; lia).
    apply (Z.mul_lt_mono_pos_r (2 ^ (ec + 200))); [exact Hp|].
    replace ((2 * R + 1) * D * 2 ^ (ec + 200))
      with ((2 * R + 1) * (D * 2 ^ (ec + 200))) by ring.
    rewrite HDW. unfold scaled in Hsc. clear - Hsc. lia. }
  assert (Enear : nearest (Z.pos mc) D = R).
  { unfold nearest. change (Z.sgn (Z.pos mc)) with 1.
    change (Z.abs (Z.pos mc)) with (Z.pos mc). rewrite Z.mul_1_l.
    symmetry. apply Z.div_unique with (r := 2 * Z.pos mc + D - 2 * D * R);
      clear - Hlow Hhigh HD; lia. }
  rewrite Enear. apply as_int_Ok. unfold INT_MIN, INT_MAX.
  clear - HR0. lia.
Qed.

(** X22. The mean shown in the footer, for a total [T] of percentages
    over [N] variables ([N] below [2 ^ 32], [T] at most [100 * N]), is
    [T / N] rounded to the nearest integer, a halfway case going up: the
    three roundings of the [double] computation never change it. *)
Theorem mean_is_nearest T N :
  0 <= T <= 100 * N -> 0 < N < 2 ^ 32 ->
  average (of_Z T) N = Ok (nearest T N)
  ∧ nearest T N = (2 * T + N) / (2 * N).
Proof.
  intros HT HN. split; [apply average_nearest; assumption|].
  destruct (Z.eq_dec T 0) as [-> | HT0].
  - unfold nearest. simpl. symmetry. apply Z.div_small. lia.
  - apply nearest_pos; lia.
Qed.

(** A total of 199 over 2 variables is 99.5 and is shown as 100. *)
Lemma mean_is_nearest_witness :
  average (of_Z 199) 2 = Ok (nearest 199 2) ∧ nearest 199 2 = 100.
Proof.
  split; [|reflexivity].
  exact (proj1 (mean_is_nearest 199 2 ltac:(lia) ltac:(lia))).
Defined.

(** ** The report of a run *)

Lemma lines_defined Is M N :
  (forall i, i ∈ Is -> 0 <= default 0 (M !! i) <= N) -> 0 < N < 2 ^ 32 ->
  exists Ls, lines Is M N = Ok Ls.
Proof.
  intros HM HN. induction Is as [|i Is IH]; cbn [lines]; [eauto|].
  destruct (share_bounds (default 0 (M !! i)) N) as (p & Hp & _);
    [apply HM, list_elem_of_here | exact HN |].
  destruct IH as [Ls HLs].
  { intros j Hj. apply HM, list_elem_of_further, Hj. }
  unfold line. rewrite Hp, bind_Ok, bind_Ok, HLs, bind_Ok. eauto.
Qed.

Lemma rows_defined S :
  (forall i, 0 <= i < largest_cov_category ->
     0 <= default 0 (LocStatistics S !! i) <= CumulNumOfVars S) ->
  0 < CumulNumOfVars S < 2 ^ 32 ->
  exists Rows, rows S = Ok Rows.
Proof.
  intros HM HN. unfold rows, line, largest_cov_category in *.
  destruct (share_bounds (default 0 (LocStatistics S !! 0)) (CumulNumOfVars S))
    as (p0 & -> & _); [apply HM; lia | exact HN|].
  destruct (share_bounds (default 0 (LocStatistics S !! 1)) (CumulNumOfVars S))
    as (p1 & -> & _); [apply HM; lia | exact HN|].
  destruct (share_bounds (default 0 (LocStatistics S !! 11)) (CumulNumOfVars S))
    as (p11 & -> & _); [apply HM; lia | exact HN|].
  destruct (lines_defined (seqZ 2 9) (LocStatistics S) (CumulNumOfVars S))
    as [Ls ->]; [|exact HN|].
  { intros i Hi%elem_of_seqZ. apply HM. lia. }
  rewrite !bind_Ok. eauto.
Qed.

(** X23. A run that completes with 1 to [2 ^ 32 - 1] processed variables
    always has a report: the table, whose rows are all defined, and a
    footer that shows the number of processed variables and, as the
    average, the sum of their percentages divided by their number and
    rounded to the nearest integer, a halfway case going up. *)
Theorem report_of_run Opts DICtx S :
  finalStats Opts DICtx = Ok S ->
  0 < Z.of_nat (length (processed Opts
                          (reachedUnits Opts (compile_units DICtx)))) < 2 ^ 32 ->
  exists Rows,
    rows S = Ok Rows
    ∧ collectLocstats Opts DICtx
      = Ok (heading +:+ Rows
            +:+ footer
                  (Z.of_nat (length (processed Opts
                     (reachedUnits Opts (compile_units DICtx)))))
                  (nearest
                     (percentSum Opts DICtx
                        (processed Opts
                           (reachedUnits Opts (compile_units DICtx))))
                     (Z.of_nat (length (processed Opts
                        (reachedUnits Opts (compile_units DICtx))))))).
Proof.
  intros H HN.
  set (Vars := processed Opts (reachedUnits Opts (compile_units DICtx))) in *.
  set (N := Z.of_nat (length Vars)) in *.
  pose proof (completed_run_balanced Opts DICtx S H) as [Hcat Hsum].
  pose proof (finalStats_counts64 Opts DICtx S H) as H64.
  pose proof H as Hev. rewrite finalStats_reached in Hev.
  pose proof (reachedUnits_bytes_range Opts (compile_units DICtx)) as Hrange.
  (* the count *)
  assert (HC : CumulNumOfVars S = N).
  { pose proof (evaluate_count Opts DICtx _ Hrange _ _ Hev) as Hc.
    cbn [initialStats CumulNumOfVars] in Hc. rewrite Z.add_0_l in Hc.
    fold Vars in Hc. fold N in Hc.
    rewrite <- Hsum in Hc |- *. unfold u32 in *. rewrite Zmod_mod in Hc.
    rewrite Hc. apply Z.mod_small. lia. }
  (* the total *)
  assert (H32 : 100 * 2 ^ 32 < 2 ^ 53) by reflexivity.
  destruct (evaluate_total Opts DICtx _ Hrange initialStats S 0 Hev eq_refl
              ltac:(lia)) as [ET HT].
  { fold Vars. fold N. lia. }
  fold Vars in ET, HT. fold N in HT. rewrite Z.add_0_l in ET.
  (* the rows *)
  destruct (rows_defined S) as [Rows HRows].
  { intros i Hi. rewrite HC.
    pose proof (evaluate_tally Opts DICtx i _ Hrange _ _ Hev) as Ht.
    rewrite (initialStats_lookup i Hi) in Ht.
    cbn [default from_option id] in Ht. fold Vars in Ht.
    pose proof (tally_le_length Opts DICtx i Vars) as Hle. fold N in Hle.
    destruct (proj2 (Hcat i) Hi) as [v Hv]. rewrite Hv in Ht |- *.
    cbn [default from_option id] in Ht |- *.
    rewrite (u64_small v) in Ht by exact (H64 i v Hv).
    rewrite Z.add_0_l, u64_small in Ht; [lia|].
    assert (2 ^ 32 < 2 ^ 64) by reflexivity. lia. }
  { rewrite HC. exact HN. }
  exists Rows. split; [exact HRows|].
  unfold collectLocstats. rewrite H, bind_Ok. unfold outputLocStats.
  rewrite HC. destruct (Z.eqb_spec N 0) as [?|_]; [lia|].
  rewrite HRows, bind_Ok, ET, average_nearest by lia.
  reflexivity.
Qed.

Lemma report_of_run_witness :
  exists Rows,
    rows (record 80 initialStats) = Ok Rows
    ∧ collectLocstats Sample.plain
        (Sample.context [Sample.function [Sample.listed]])
      = Ok (heading +:+ Rows +:+ footer 1 80).
Proof.
  destruct (report_of_run Sample.plain
              (Sample.context [Sample.function [Sample.listed]])
              (record 80 initialStats) eighty_percent_run)
    as (Rows & HRows & Hrun).
  - vm_compute. split; reflexivity.
  - exists Rows. split; [exact HRows|]. rewrite Hrun. reflexivity.
Defined.

(** ** The driver *)

(** X24. The exit status of a run is 0 or 1. It is 1 exactly when help is
    not asked for and either no input file is named, or the two modes are
    not both set and the output cannot be opened, the input cannot be
    read, or the input is not a binary; a run that ends with status 1
    shows one error message and nothing else. *)
Theorem main_status Opts W O :
  main Opts W = Ok O ->
  (status O = 0 ∨ status O = 1)
  ∧ (status O = 1 <->
     Help Opts = false
     ∧ (InputFilename Opts = ""%string
        ∨ (OnlyFormalParameters Opts && OnlyVariables Opts = false
           ∧ (is_Some (openOutput W (OutputFilename Opts))
              ∨ (exists EC, getFileOrSTDIN W (InputFilename Opts) = Unreadable EC)
              ∨ (exists EC, getFileOrSTDIN W (InputFilename Opts) = NotABinary EC)))))
  ∧ (status O = 1 -> exists Text, events O = [ErrorMessage Text]).
Proof.
  unfold main, handleFile.
  destruct (Help Opts).
  { intros [= <-]. cbn. split; [auto|]. split; [|discriminate 1].
    split; [discriminate 1 | intros [H _]; discriminate H]. }
  case_bool_decide as Hin.
  { intros [= <-]. cbn. split; [auto|]. split; [|eauto]. tauto. }
  destruct (OnlyFormalParameters Opts && OnlyVariables Opts).
  { intros [= <-]. cbn. split; [auto|]. split; [|discriminate 1].
    split; [discriminate 1|]. intros (_ & [H | [H _]]); [tauto | discriminate]. }
  destruct (openOutput W (OutputFilename Opts)) as [EC|] eqn:Hout.
  { intros [= <-]. cbn. split; [auto|]. split; [|eauto].
    split; [|reflexivity]. intros _. split; [reflexivity|]. right.
    split; [reflexivity|]. left. eauto. }
  destruct (getFileOrSTDIN W (InputFilename Opts)) as [EC|EC| |DICtx] eqn:Hfile.
  - intros [= <-]. cbn. split; [auto|]. split; [|eauto].
    split; [|reflexivity]. intros _. split; [reflexivity|]. right.
    split; [reflexivity|]. right. left. eauto.
  - intros [= <-]. cbn. split; [auto|]. split; [|eauto].
    split; [|reflexivity]. intros _. split; [reflexivity|]. right.
    split; [reflexivity|]. right. right. eauto.
  - intros [= <-]. cbn. split; [auto|]. split; [|discriminate 1].
    split; [discriminate 1|].
    intros (_ & [H | (_ & [[? H] | [[? H] | [? H]]])]);
      [tauto | discriminate | discriminate | discriminate].
  - destruct (collectLocstats Opts DICtx) as [Text|]; [|discriminate 1].
    rewrite bind_Ok. intros [= <-]. cbn. split; [auto|].
    split; [|discriminate 1]. split; [discriminate 1|].
    intros (_ & [H | (_ & [[? H] | [[? H] | [? H]]])]);
      [tauto | discriminate | discriminate | discriminate].
Qed.

Lemma main_status_witness :
  main Sample.plain Sample.missing
  = Ok (error "a.o" "No such file or directory")
  ∧ status (error "a.o" "No such file or directory") = 1
  ∧ Help Sample.plain = false.
Proof.
  assert (H : main Sample.plain Sample.missing
              = Ok (error "a.o" "No such file or directory")) by reflexivity.
  split; [exact H|]. split; [reflexivity|].
  destruct (main_status Sample.plain Sample.missing _ H) as (_ & Hone & _).
  exact (proj1 (proj1 Hone eq_refl)).
Defined.

(** X25. A report is written in one case only: help is not asked for, an
    input file is named, the two modes are not both set, the output opens
    and the input is an object file; the report is then the one of the
    DWARF context of that file, it is the only thing the run shows, and the
    status is 0. *)
Theorem report_is_of_the_input Opts W O Text :
  main Opts W = Ok O ->
  Report Text ∈ events O ->
  O = {| status := 0; events := [Report Text] |}
  ∧ Help Opts = false
  ∧ InputFilename Opts ≠ ""%string
  ∧ OnlyFormalParameters Opts && OnlyVariables Opts = false
  ∧ openOutput W (OutputFilename Opts) = None
  ∧ exists DICtx,
      getFileOrSTDIN W (InputFilename Opts) = ObjectFile DICtx
      ∧ collectLocstats Opts DICtx = Ok Text.
Proof.
  unfold main, handleFile, error.
  destruct (Help Opts).
  { intros [= <-]. cbn. intros H%list_elem_of_singleton. discriminate H. }
  case_bool_decide as Hin.
  { intros [= <-]. cbn. intros H%list_elem_of_singleton. discriminate H. }
  destruct (OnlyFormalParameters Opts && OnlyVariables Opts).
  { intros [= <-]. cbn. intros H%list_elem_of_singleton. discriminate H. }
  destruct (openOutput W (OutputFilename Opts)) as [EC|] eqn:Hout.
  { intros [= <-]. cbn. intros H%list_elem_of_singleton. discriminate H. }
  destruct (getFileOrSTDIN W (InputFilename Opts)) as [EC|EC| |DICtx] eqn:Hfile.
  - intros [= <-]. cbn. intros H%list_elem_of_singleton. discriminate H.
  - intros [= <-]. cbn. intros H%list_elem_of_singleton. discriminate H.
  - intros [= <-]. cbn. intros H%elem_of_nil. destruct H.
  - destruct (collectLocstats Opts DICtx) as [Text'|] eqn:Hrun; [|discriminate 1].
    rewrite bind_Ok. intros [= <-]. cbn.
    intros [= <-]%list_elem_of_singleton. eauto 10.
Qed.

Lemma report_is_of_the_input_witness :
  let Text := ("No coverage recorded." +:+ nl)%string in
  let W := Sample.world (Sample.context [Sample.function [Sample.parameter]]) in
  main Sample.onlyVariables W = Ok {| status := 0; events := [Report Text] |}
  ∧ exists DICtx,
      getFileOrSTDIN W (InputFilename Sample.onlyVariables) = ObjectFile DICtx
      ∧ collectLocstats Sample.onlyVariables DICtx = Ok Text.
Proof.
  cbv zeta.
  assert (H : main Sample.onlyVariables
                (Sample.world (Sample.context [Sample.function [Sample.parameter]]))
              = Ok {| status := 0;
                      events := [Report ("No coverage recorded." +:+ nl)] |})
    by reflexivity.
  split; [exact H|].
  destruct (report_is_of_the_input Sample.onlyVariables _ _
              ("No coverage recorded." +:+ nl) H)
    as (_ & _ & _ & _ & _ & Hctx).
  - apply list_elem_of_here.
  - exact Hctx.
Defined.

(** X26. A run that completes shows nothing at all in one case only: the
    input is a binary that is not an object file (the options are
    accepted and the output opens); its status is then 0. *)
Theorem silent_run Opts W O :
  main Opts W = Ok O ->
  (events O = [] <->
   Help Opts = false
   ∧ InputFilename Opts ≠ ""%string
   ∧ OnlyFormalParameters Opts && OnlyVariables Opts = false
   ∧ openOutput W (OutputFilename Opts) = None
   ∧ getFileOrSTDIN W (InputFilename Opts) = OtherBinary)
  ∧ (events O = [] -> status O = 0).
Proof.
  unfold main, handleFile, error.
  destruct (Help Opts).
  { intros [= <-]. cbn. split; [|discriminate 1].
    split; [discriminate 1 | intros [H _]; discriminate H]. }
  case_bool_decide as Hin.
  { intros [= <-]. cbn. split; [|discriminate 1].
    split; [discriminate 1 | tauto]. }
  destruct (OnlyFormalParameters Opts && OnlyVariables Opts).
  { intros [= <-]. cbn. split; [|discriminate 1].
    split; [discriminate 1 | intros (_ & _ & H & _); discriminate H]. }
  destruct (openOutput W (OutputFilename Opts)) as [EC|] eqn:Hout.
  { intros [= <-]. cbn. split; [|discriminate 1].
    split; [discriminate 1 | intros (_ & _ & _ & H & _); discriminate H]. }
  destruct (getFileOrSTDIN W (InputFilename Opts)) as [EC|EC| |DICtx] eqn:Hfile.
  - intros [= <-]. cbn. split; [|discriminate 1].
    split; [discriminate 1 | intros (_ & _ & _ & _ & H); discriminate H].
  - intros [= <-]. cbn. split; [|discriminate 1].
    split; [discriminate 1 | intros (_ & _ & _ & _ & H); discriminate H].
  - intros [= <-]. cbn. split; [|reflexivity]. split; auto.
  - destruct (collectLocstats Opts DICtx) as [Text|]; [|discriminate 1].
    rewrite bind_Ok. intros [= <-]. cbn. split; [|discriminate 1].
    split; [discriminate 1 | intros (_ & _ & _ & _ & H); discriminate H].
Qed.

Lemma silent_run_witness :
  main Sample.plain Sample.archive = Ok {| status := 0; events := [] |}
  ∧ getFileOrSTDIN Sample.archive (InputFilename Sample.plain) = OtherBinary.
Proof.
  assert (H : main Sample.plain Sample.archive
              = Ok {| status := 0; events := [] |}) by reflexivity.
  split; [exact H|].
  destruct (silent_run Sample.plain Sample.archive _ H) as [Hiff _].
  exact (proj2 (proj2 (proj2 (proj2 (proj1 Hiff eq_refl))))).
Defined.

(** X27. A run is undefined only through the analysis: help is not asked
    for, an input file is named, the two modes are not both set, the
    output opens, the input is an object file, and the statistics or the
    report of its DWARF context are undefined. *)
Theorem main_undefined Opts W :
  main Opts W = Undefined <->
  Help Opts = false
  ∧ InputFilename Opts ≠ ""%string
  ∧ OnlyFormalParameters Opts && OnlyVariables Opts = false
  ∧ openOutput W (OutputFilename Opts) = None
  ∧ exists DICtx,
      getFileOrSTDIN W (InputFilename Opts) = ObjectFile DICtx
      ∧ collectLocstats Opts DICtx = Undefined.
Proof.
  unfold main, handleFile, error.
  destruct (Help Opts).
  { split; [discriminate 1 | intros [H _]; discriminate H]. }
  case_bool_decide as Hin.
  { split; [discriminate 1 | tauto]. }
  destruct (OnlyFormalParameters Opts && OnlyVariables Opts).
  { split; [discriminate 1 | intros (_ & _ & H & _); discriminate H]. }
  destruct (openOutput W (OutputFilename Opts)) as [EC|] eqn:Hout.
  { split; [discriminate 1 | intros (_ & _ & _ & H & _); discriminate H]. }
  destruct (getFileOrSTDIN W (InputFilename Opts)) as [EC|EC| |DICtx] eqn:Hfile.
  - split; [discriminate 1 | intros (_ & _ & _ & _ & ? & H & _); discriminate H].
  - split; [discriminate 1 | intros (_ & _ & _ & _ & ? & H & _); discriminate H].
  - split; [discriminate 1 | intros (_ & _ & _ & _ & ? & H & _); discriminate H].
  - destruct (collectLocstats Opts DICtx) as [Text|] eqn:Hrun.
    + split; [discriminate 1|].
      intros (_ & _ & _ & _ & ? & [= <-] & H). congruence.
    + split; [|reflexivity]. intros _. eauto 10.
Qed.

(** ** Undefined runs, and the order of the units *)

Lemma Coverage_DebugLoc Opts DICtx DICtx' Die Bytes :
  DebugLoc DICtx = DebugLoc DICtx' ->
  Coverage Opts DICtx Die Bytes = Coverage Opts DICtx' Die Bytes.
Proof.
  intros H. unfold Coverage, coveredBytes, summedBytes, getLocationListAtOffset.
  rewrite H. reflexivity.
Qed.

Lemma evaluate_Undefined Opts DICtx Vars :
  Forall (fun V => 0 <= V.2 < 2 ^ 64) Vars ->
  forall S, evaluate Opts DICtx Vars S = Undefined
            <-> Exists (unguarded Opts) Vars.
Proof.
  induction 1 as [|[[Die Parent] Bytes] Vars HB _ IH]; intros S;
    cbn [evaluate].
  - split; [discriminate 1 | intros H; inversion H].
  - cbn [snd] in HB.
    pose proof (collectLocStatsForDie_Undefined Opts DICtx Die Parent 0 Bytes S
                  HB) as Hone.
    rewrite Exists_cons.
    destruct (collectLocStatsForDie Opts DICtx Die Parent 0 Bytes S) as [S1|].
    + rewrite bind_Ok, IH. split; [auto|].
      intros [Hbad | Hrest]; [|exact Hrest].
      apply Hone in Hbad. discriminate Hbad.
    + split; [|reflexivity]. intros _. left. apply Hone. reflexivity.
Qed.

Lemma finalStats_Undefined Opts DICtx :
  finalStats Opts DICtx = Undefined
  <-> exists V, V ∈ reachedUnits Opts (compile_units DICtx) ∧ unguarded Opts V.
Proof.
  rewrite finalStats_reached, evaluate_Undefined
    by apply reachedUnits_bytes_range.
  apply Exists_exists.
Qed.

(** X28. A run is undefined exactly when one of the reached variables or
    formal parameters passes the filters, has no constant value, has a
    location list, and is evaluated against a scope of 0 bytes. *)
Theorem run_undefined_iff Opts DICtx :
  finalStats Opts DICtx = Undefined
  <-> exists V, V ∈ reachedUnits Opts (compile_units DICtx) ∧ unguarded Opts V.
Proof. apply finalStats_Undefined. Qed.

Section Order.

Variable Opts : Options.
Variable Loc : gmap Z (list LocEntry).

Lemma categoryOf_units Units Units' V :
  categoryOf Opts (mkContext Loc Units) V
  = categoryOf Opts (mkContext Loc Units') V.
Proof.
  unfold categoryOf.
  rewrite (Coverage_DebugLoc Opts (mkContext Loc Units) (mkContext Loc Units'))
    by reflexivity.
  reflexivity.
Qed.

Lemma processed_Permutation Vars Vars' :
  Vars ≡ₚ Vars' -> processed Opts Vars ≡ₚ processed Opts Vars'.
Proof.
  induction 1 as [|V Vs Vs' _ IH|V V' Vs|Vs1 Vs2 Vs3 _ IH1 _ IH2].
  - reflexivity.
  - rewrite !processed_cons. destruct (skipped _ _ _); [exact IH|].
    constructor. exact IH.
  - rewrite !processed_cons.
    destruct (skipped Opts V.1.1 V.1.2), (skipped Opts V'.1.1 V'.1.2);
      try reflexivity. constructor.
  - etransitivity; eassumption.
Qed.

Lemma tally_Permutation Units Units' Key Vars Vars' :
  Vars ≡ₚ Vars' ->
  tally Opts (mkContext Loc Units) Key Vars
  = tally Opts (mkContext Loc Units') Key Vars'.
Proof.
  induction 1 as [|V Vs Vs' _ IH|V V' Vs|Vs1 Vs2 Vs3 _ IH1 _ IH2].
  - reflexivity.
  - rewrite !tally_cons, IH, (categoryOf_units Units Units'). reflexivity.
  - rewrite !tally_cons, !(categoryOf_units Units Units').
    assert (E : tally Opts (mkContext Loc Units) Key Vs
                = tally Opts (mkContext Loc Units') Key Vs).
    { clear. induction Vs as [|W Ws IHW]; [reflexivity|].
      rewrite !tally_cons, IHW, (categoryOf_units Units Units'). reflexivity. }
    rewrite E. lia.
  - rewrite IH1. rewrite <- IH2.
    clear. induction Vs2 as [|W Ws IHW]; [reflexivity|].
    rewrite !tally_cons, IHW, (categoryOf_units Units Units'). reflexivity.
Qed.

Lemma percentSum_cons DICtx V Vars :
  percentSum Opts DICtx (V :: Vars)
  = percentOf Opts DICtx V + percentSum Opts DICtx Vars.
Proof. reflexivity. Qed.

Lemma percentSum_Permutation Units Units' Vars Vars' :
  Vars ≡ₚ Vars' ->
  percentSum Opts (mkContext Loc Units) Vars
  = percentSum Opts (mkContext Loc Units') Vars'.
Proof.
  assert (Hone : forall V, percentOf Opts (mkContext Loc Units) V
                           = percentOf Opts (mkContext Loc Units') V).
  { intros V. unfold percentOf.
    rewrite (Coverage_DebugLoc Opts (mkContext Loc Units)
               (mkContext Loc Units')) by reflexivity.
    reflexivity. }
  assert (Hsame : forall Vs, percentSum Opts (mkContext Loc Units) Vs
                             = percentSum Opts (mkContext Loc Units') Vs).
  { induction Vs as [|W Ws IHW]; [reflexivity|].
    rewrite !percentSum_cons, IHW, Hone. reflexivity. }
  induction 1 as [|V Vs Vs' _ IH|V V' Vs|Vs1 Vs2 Vs3 _ IH1 _ IH2].
  - reflexivity.
  - rewrite !percentSum_cons, IH, Hone. reflexivity.
  - rewrite !percentSum_cons, !Hone, Hsame. lia.
  - rewrite IH1, <- IH2. symmetry. apply Hsame.
Qed.

(** X29. The report does not depend on the order of the compile units:
    with the same location lists and at most [2 ^ 46] processed variables,
    two contexts whose units are a permutation of each other give the same
    report, and one is undefined exactly when the other is. *)
Theorem unit_order_irrelevant Units Units' :
  Units ≡ₚ Units' ->
  Z.of_nat (length (processed Opts (reachedUnits Opts Units))) <= 2 ^ 46 ->
  collectLocstats Opts (mkContext Loc Units)
  = collectLocstats Opts (mkContext Loc Units').
Proof.
  intros Hperm Hlen.
  assert (Hreached : reachedUnits Opts Units ≡ₚ reachedUnits Opts Units')
    by (unfold reachedUnits; apply Permutation_flat_map; exact Hperm).
  pose proof (processed_Permutation _ _ Hreached) as Hproc.
  pose proof (Permutation_length Hproc) as Hsame.
  unfold collectLocstats.
  destruct (finalStats Opts (mkContext Loc Units)) as [S|] eqn:H1;
    destruct (finalStats Opts (mkContext Loc Units')) as [S'|] eqn:H2;
    [| exfalso | exfalso | reflexivity].
  - rewrite !bind_Ok. f_equal.
    destruct (finalStats_total Opts _ S H1) as [ET _]; [exact Hlen|].
    destruct (finalStats_total Opts _ S' H2) as [ET' _].
    { cbn [compile_units]. rewrite <- Hsame. exact Hlen. }
    pose proof (finalStats_count Opts _ S H1) as EC.
    pose proof (finalStats_count Opts _ S' H2) as EC'.
    cbn [compile_units] in *.
    destruct S as [L C T], S' as [L' C' T'].
    cbn [LocStatistics CumulNumOfVars TotalAverage] in *.
    f_equal.
    + apply map_eq. intros Key.
      pose proof (finalStats_lookup Opts _ _ Key H1) as EL.
      pose proof (finalStats_lookup Opts _ _ Key H2) as EL'.
      cbn [compile_units LocStatistics] in EL, EL'.
      rewrite EL, EL', (tally_Permutation Units Units' Key _ _ Hproc).
      reflexivity.
    + rewrite EC, EC', Hsame. reflexivity.
    + rewrite ET, ET', (percentSum_Permutation Units Units' _ _ Hproc).
      reflexivity.
  - apply finalStats_Undefined in H2 as (V & Hin & Hbad).
    cbn [compile_units] in Hin. rewrite <- Hreached in Hin.
    assert (H3 : finalStats Opts (mkContext Loc Units) = Undefined)
      by (apply finalStats_Undefined; eauto).
    congruence.
  - apply finalStats_Undefined in H1 as (V & Hin & Hbad).
    cbn [compile_units] in Hin. rewrite Hreached in Hin.
    assert (H3 : finalStats Opts (mkContext Loc Units') = Undefined)
      by (apply finalStats_Undefined; eauto).
    congruence.
Qed.

End Order.

Lemma unit_order_irrelevant_witness :
  let First := Some (Sample.unit [Sample.function [Sample.listed]]) in
  let Second := Some (Sample.unit [Sample.function [Sample.parameter]]) in
  collectLocstats Sample.plain (mkContext Sample.lists [First; Second])
  = collectLocstats Sample.plain (mkContext Sample.lists [Second; First]).
Proof.
  cbv zeta.
  apply (unit_order_irrelevant Sample.plain Sample.lists _ _
           (perm_swap _ _ [])).
  vm_compute. discriminate.
Defined.

(** ** The two modes *)

Section Modes.

Variable Opts : Options.
Variable DICtx : DWARFContext.

Lemma reached_withModes p v Die :
  forall Parent Bytes,
    reached (withModes Opts p v) Die Parent Bytes = reached Opts Die Parent Bytes.
Proof.
  induction Die as [tag attrs ranges children IH] using DWARFDie_children_ind.
  assert (Hloop : forall Parent Bytes,
    flat_map (fun Child => reached (withModes Opts p v) Child Parent Bytes)
             children
    = flat_map (fun Child => reached Opts Child Parent Bytes) children).
  { intros Parent Bytes. induction IH as [|c cs Hc _ IHcs]; cbn [flat_map];
      [reflexivity | rewrite Hc, IHcs; reflexivity]. }
  intros Parent Bytes. rewrite !reached_unfold. cbn zeta.
  cbn [getTag getChildren].
  change (RangesOrError (withModes Opts p v) (mkDie tag attrs ranges children))
    with (RangesOrError Opts (mkDie tag attrs ranges children)).
  destruct (IsScope tag).
  - destruct (RangesOrError _ _) as [[Ranges|]|]; try reflexivity. apply Hloop.
  - destruct (_ || _); [f_equal|]; apply Hloop.
Qed.

Lemma reachedUnits_withModes p v Units :
  reachedUnits (withModes Opts p v) Units = reachedUnits Opts Units.
Proof.
  unfold reachedUnits. induction Units as [|[CUDie|] Units IH];
    cbn [flat_map]; [reflexivity | | exact IH].
  rewrite reached_withModes, IH. reflexivity.
Qed.

(** Every reached entry is a variable or a formal parameter. *)
Lemma reached_tags Die :
  forall Parent Bytes,
    Forall (fun V => getTag V.1.1 = DW_TAG_variable
                     ∨ getTag V.1.1 = DW_TAG_formal_parameter)
           (reached Opts Die Parent Bytes).
Proof.
  induction Die as [tag attrs ranges children IH] using DWARFDie_children_ind.
  assert (Hloop : forall Parent Bytes,
    Forall (fun V => getTag V.1.1 = DW_TAG_variable
                     ∨ getTag V.1.1 = DW_TAG_formal_parameter)
      (flat_map (fun Child => reached Opts Child Parent Bytes) children)).
  { intros Parent Bytes. induction IH as [|c cs Hc _ IHcs]; cbn [flat_map];
      [constructor|]. apply Forall_app. split; [apply Hc | exact IHcs]. }
  intros Parent Bytes. rewrite reached_unfold. cbn zeta.
  cbn [getTag getChildren].
  destruct (IsScope tag).
  - destruct (RangesOrError _ _) as [[Ranges|]|]; try constructor. apply Hloop.
  - destruct (bool_decide (tag = DW_TAG_variable)
              || bool_decide (tag = DW_TAG_formal_parameter)) eqn:Ht;
      [|apply Hloop].
    constructor; [|apply Hloop]. cbn [fst getTag].
    apply orb_true_iff in Ht as [Ht%bool_decide_eq_true | Ht%bool_decide_eq_true];
      auto.
Qed.

Lemma reachedUnits_tags Units :
  Forall (fun V => getTag V.1.1 = DW_TAG_variable
                   ∨ getTag V.1.1 = DW_TAG_formal_parameter)
         (reachedUnits Opts Units).
Proof.
  unfold reachedUnits. induction Units as [|[CUDie|] Units IH];
    cbn [flat_map]; [constructor | | exact IH].
  apply Forall_app. split; [apply reached_tags | exact IH].
Qed.

(** A variable or formal parameter that passes the filters without a
    mode passes them in exactly one of the two modes. *)
Lemma skipped_withModes Die Parent :
  getTag Die = DW_TAG_variable ∨ getTag Die = DW_TAG_formal_parameter ->
  (skipped (withModes Opts false false) Die Parent = true
   ∧ skipped (withModes Opts false true) Die Parent = true
   ∧ skipped (withModes Opts true false) Die Parent = true)
  ∨ (skipped (withModes Opts false false) Die Parent = false
     ∧ skipped (withModes Opts false true) Die Parent
       = negb (skipped (withModes Opts true false) Die Parent)).
Proof.
  intros Htag. unfold skipped.
  cbn [withModes OnlyFormalParameters OnlyVariables].
  rewrite !andb_false_r.
  destruct Htag as [-> | ->];
    rewrite ?(bool_decide_eq_true_2 (_ = _) eq_refl),
            ?(bool_decide_eq_false_2 (DW_TAG_variable = DW_TAG_formal_parameter)),
            ?(bool_decide_eq_false_2 (DW_TAG_formal_parameter = DW_TAG_variable))
      by discriminate;
    cbn [andb];
    destruct (has Die DW_AT_declaration || has Die DW_AT_artificial); auto;
    destruct (has Die DW_AT_external && negb (has Die DW_AT_location)); auto;
    destruct (bool_decide (Parent = DW_TAG_subroutine_type)); auto.
Qed.

Lemma categoryOf_withModes p v V :
  categoryOf (withModes Opts p v) DICtx V = categoryOf Opts DICtx V.
Proof. reflexivity. Qed.

Lemma tally_withModes Key Vars :
  Forall (fun V => getTag V.1.1 = DW_TAG_variable
                   ∨ getTag V.1.1 = DW_TAG_formal_parameter) Vars ->
  tally Opts DICtx Key (processed (withModes Opts false false) Vars)
  = tally Opts DICtx Key (processed (withModes Opts false true) Vars)
    + tally Opts DICtx Key (processed (withModes Opts true false) Vars)
  ∧ Z.of_nat (length (processed (withModes Opts false false) Vars))
    = Z.of_nat (length (processed (withModes Opts false true) Vars))
      + Z.of_nat (length (processed (withModes Opts true false) Vars)).
Proof.
  induction 1 as [|V Vars HV _ [IHt IHl]].
  - split; reflexivity.
  - rewrite !processed_cons.
    destruct (skipped_withModes V.1.1 V.1.2 HV)
      as [(-> & -> & ->) | (-> & ->)]; [split; assumption|].
    destruct (skipped (withModes Opts true false) V.1.1 V.1.2); cbn [negb];
      rewrite ?tally_cons; cbn [length]; rewrite ?Nat2Z.inj_succ; lia.
Qed.

(** X30. Without a mode every processed variable or formal parameter is
    processed in exactly one of the two modes: on the same input the count
    of processed variables is the sum of the counts of [-only-variables]
    and [-only-formal-parameters] in the 32 bits of the counter, and each
    category is the sum of the two categories in 64 bits. *)
Theorem modes_partition SAll SVars SPars :
  finalStats (withModes Opts false false) DICtx = Ok SAll ->
  finalStats (withModes Opts false true) DICtx = Ok SVars ->
  finalStats (withModes Opts true false) DICtx = Ok SPars ->
  CumulNumOfVars SAll = u32 (CumulNumOfVars SVars + CumulNumOfVars SPars)
  ∧ forall Key,
      default 0 (LocStatistics SAll !! Key)
      = u64 (default 0 (LocStatistics SVars !! Key)
             + default 0 (LocStatistics SPars !! Key)).
Proof.
  intros HA HV HP.
  pose proof (reachedUnits_tags (compile_units DICtx)) as Htags.
  split.
  - rewrite (finalStats_count _ _ _ HA), (finalStats_count _ _ _ HV),
      (finalStats_count _ _ _ HP), !reachedUnits_withModes.
    destruct (tally_withModes 0 _ Htags) as [_ ->].
    unfold u32. rewrite <- Zplus_mod. reflexivity.
  - intros Key.
    rewrite (finalStats_lookup _ _ _ Key HA), (finalStats_lookup _ _ _ Key HV),
      (finalStats_lookup _ _ _ Key HP), !reachedUnits_withModes.
    case_bool_decide; cbn [default from_option id]; [|reflexivity].
    change (tally (withModes Opts false false) DICtx)
      with (tally Opts DICtx).
    change (tally (withModes Opts false true) DICtx) with (tally Opts DICtx).
    change (tally (withModes Opts true false) DICtx) with (tally Opts DICtx).
    destruct (tally_withModes Key _ Htags) as [-> _].
    unfold u64. rewrite <- Zplus_mod. reflexivity.
Qed.

End Modes.

Lemma modes_partition_witness :
  let DICtx := Sample.context [Sample.function [Sample.listed; Sample.parameter]] in
  finalStats (withModes Sample.plain false true) DICtx
  = Ok (record 80 initialStats)
  ∧ finalStats (withModes Sample.plain true false) DICtx
    = Ok (record 100 initialStats)
  ∧ CumulNumOfVars (record 100 (record 80 initialStats))
    = u32 (CumulNumOfVars (record 80 initialStats)
           + CumulNumOfVars (record 100 initialStats)).
Proof.
  cbv zeta.
  assert (HA : finalStats (withModes Sample.plain false false)
                 (Sample.context [Sample.function [Sample.listed; Sample.parameter]])
               = Ok (record 100 (record 80 initialStats)))
    by (vm_compute; reflexivity).
  assert (HV : finalStats (withModes Sample.plain false true)
                 (Sample.context [Sample.function [Sample.listed; Sample.parameter]])
               = Ok (record 80 initialStats))
    by (vm_compute; reflexivity).
  assert (HP : finalStats (withModes Sample.plain true false)
                 (Sample.context [Sample.function [Sample.listed; Sample.parameter]])
               = Ok (record 100 initialStats))
    by (vm_compute; reflexivity).
  split; [exact HV|]. split; [exact HP|].
  exact (proj1 (modes_partition Sample.plain _ _ _ _ HA HV HP)).
Defined.
